(** * Ohmu TIL bytecode: the codec of [src/til/Bytecode.h]

    A shallow embedding of the bytecode writer and reader of the Ohmu typed
    intermediate language.  The header declares two stream base classes
    ([ByteStreamWriterBase], [ByteStreamReaderBase]) whose out-of-line
    methods are only declared there, and defines inline the field-width
    table, the typed read/write wrappers, the opcode encoding and the
    traversal hooks of [BytecodeWriter] and [BytecodeReader].

    The out-of-line stream methods are the methods of two type classes; the
    inline code of the header is written once, over any instance.  Two
    instances follow: a bit-cursor stream over a byte buffer, and a
    recording stream that keeps the sequence of calls. *)

From Stdlib Require Import String ZArith List Lia Bool.
Import ListNotations.
Local Open Scope Z_scope.

(** ** Integer conversions of the C++ code *)

(** [static_cast<uintN_t>]: reduction modulo [2^N]. *)
Definition to_unsigned (bits V : Z) : Z := V mod 2 ^ bits.

(** [static_cast<intN_t>]: the two's-complement reading of the low [N] bits. *)
Definition to_signed (bits V : Z) : Z :=
  (V + 2 ^ (bits - 1)) mod 2 ^ bits - 2 ^ (bits - 1).

(** Conversion of an integer to [bool]: non-zero is [true]. *)
Definition to_bool (V : Z) : bool := negb (V =? 0).

(** ** The stream base classes *)

(** [ByteStreamWriterBase]: the methods the header declares and does not
    define.  Integer arguments are the values of the unsigned parameters. *)
Class ByteStreamWriterBase (W : Type) : Type := {
  flush : W -> W;
  endAtom : W -> W;
  writeBits32 : Z -> Z -> W -> W;
  writeBits64 : Z -> Z -> W -> W;
  writeUInt32_Vbr : Z -> W -> W;
  writeUInt64_Vbr : Z -> W -> W
}.

(** [ByteStreamReaderBase]: likewise; a read returns the value and the
    reader after it.  The reader's [endAtom] is [readEndAtom] here. *)
Class ByteStreamReaderBase (R : Type) : Type := {
  readEndAtom : R -> R;
  empty : R -> bool;
  readBits32 : Z -> R -> Z * R;
  readBits64 : Z -> R -> Z * R;
  readUInt32_Vbr : R -> Z * R;
  readUInt64_Vbr : R -> Z * R
}.

Section InlineStreamMethods.
Context {W R : Type} {WB : ByteStreamWriterBase W} {RB : ByteStreamReaderBase R}.

(** [void writeBool(bool V) { writeBits32(V, 1); }] *)
Definition writeBool (V : bool) (w : W) : W := writeBits32 (Z.b2z V) 1 w.

(** [writeUInt8 (uint8_t V) { writeBits32(V, 8); }] and the three
    variable-width unsigned writers. *)
Definition writeUInt8 (V : Z) (w : W) : W := writeBits32 (to_unsigned 8 V) 8 w.
Definition writeUInt16 (V : Z) (w : W) : W := writeUInt32_Vbr (to_unsigned 16 V) w.
Definition writeUInt32 (V : Z) (w : W) : W := writeUInt32_Vbr (to_unsigned 32 V) w.
Definition writeUInt64 (V : Z) (w : W) : W := writeUInt64_Vbr (to_unsigned 64 V) w.

(** [writeInt8(int8_t V) { writeBits32(static_cast<uint8_t>(V), 8); }] and
    its three siblings. *)
Definition writeInt8 (V : Z) (w : W) : W := writeBits32 (to_unsigned 8 V) 8 w.
Definition writeInt16 (V : Z) (w : W) : W := writeBits32 (to_unsigned 16 V) 16 w.
Definition writeInt32 (V : Z) (w : W) : W := writeBits32 (to_unsigned 32 V) 32 w.
Definition writeInt64 (V : Z) (w : W) : W := writeBits64 (to_unsigned 64 V) 64 w.

(** [bool readBool() { return readBits32(1); }] *)
Definition readBool (r : R) : bool * R :=
  let '(v, r') := readBits32 1 r in (to_bool v, r').

Definition readUInt8 (r : R) : Z * R :=
  let '(v, r') := readBits32 8 r in (to_unsigned 8 v, r').
Definition readUInt16 (r : R) : Z * R :=
  let '(v, r') := readUInt32_Vbr r in (to_unsigned 16 v, r').
Definition readUInt32 (r : R) : Z * R := readUInt32_Vbr r.
Definition readUInt64 (r : R) : Z * R := readUInt64_Vbr r.

Definition readInt8 (r : R) : Z * R :=
  let '(v, r') := readBits32 8 r in (to_signed 8 v, r').
Definition readInt16 (r : R) : Z * R :=
  let '(v, r') := readBits32 16 r in (to_signed 16 v, r').
Definition readInt32 (r : R) : Z * R :=
  let '(v, r') := readBits32 32 r in (to_signed 32 v, r').
Definition readInt64 (r : R) : Z * R :=
  let '(v, r') := readBits64 64 r in (to_signed 64 v, r').

End InlineStreamMethods.

(** ** [BytecodeBase]: pseudo-opcodes and field widths *)

(** [enum PseudoOpcode : uint8_t]. *)
Definition PSOP_Null : Z := 0.
Definition PSOP_WeakInstrRef : Z := 1.
Definition PSOP_BBArgument : Z := 2.
Definition PSOP_BBInstruction : Z := 3.
Definition PSOP_EnterScope : Z := 4.
Definition PSOP_ExitScope : Z := 5.
Definition PSOP_EnterBlock : Z := 6.
Definition PSOP_EnterCFG : Z := 7.
Definition PSOP_Annotation : Z := 8.
Definition PSOP_Last : Z := 9.

(** The pseudo-opcodes that name a marker ([PSOP_Last] is the sentinel). *)
Definition pseudoOpcodes : list Z :=
  [PSOP_Null; PSOP_WeakInstrRef; PSOP_BBArgument; PSOP_BBInstruction;
   PSOP_EnterScope; PSOP_ExitScope; PSOP_EnterBlock; PSOP_EnterCFG;
   PSOP_Annotation].

(** The enumerated types [getBitSizeImpl] is overloaded on. *)
Inductive FieldKind : Type :=
  | F_PseudoOpcode
  | F_TIL_Opcode
  | F_TIL_AnnKind
  | F_TIL_UnaryOpcode
  | F_TIL_BinaryOpcode
  | F_TIL_CastOpcode
  | F_VariableKind
  | F_CallingConvention
  | F_ApplyKind
  | F_AllocKind.

Definition getBitSizeImpl (T : FieldKind) : Z :=
  match T with
  | F_PseudoOpcode => 6
  | F_TIL_Opcode => 6
  | F_TIL_AnnKind => 8
  | F_TIL_UnaryOpcode => 6
  | F_TIL_BinaryOpcode => 6
  | F_TIL_CastOpcode => 6
  | F_VariableKind => 2
  | F_CallingConvention => 4
  | F_ApplyKind => 2
  | F_AllocKind => 2
  end.

(** [template<class T> unsigned getBitSize()
      { return getBitSizeImpl(static_cast<T>(0)); }] *)
Definition getBitSize (T : FieldKind) : Z := getBitSizeImpl T.

(** [static_cast<T>] of a value read from the stream.  [PseudoOpcode] is
    a [uint8_t]; the other enumerations are declared in [TIL.h], and a
    value below [2 ^ getBitSize T] is a value of each of them. *)
Definition castTo (T : FieldKind) (V : Z) : Z :=
  match T with
  | F_PseudoOpcode => to_unsigned 8 V
  | _ => V
  end.

(** [BaseType] is declared in [TIL.h]; the codec uses its byte code
    ([asUInt8()]) and its vector size. *)
Record BaseType : Type := mkBaseType {
  asUInt8 : Z;
  VectSize : Z
}.

(** [LiteralT<Ty>]: the base type and the value of a literal. *)
Record LiteralT (Ty : Type) : Type := mkLiteralT {
  baseType : BaseType;
  value : Ty
}.
Arguments mkLiteralT {Ty} _ _.
Arguments baseType {Ty} _.
Arguments value {Ty} _.

(** What a writer method ends in: it returns, or an [assert] in it fails
    (assertions are taken as compiled in). *)
Inductive Outcome (W : Type) : Type :=
  | Done (w : W)
  | AssertionFailed (Msg : string) (w : W).
Arguments Done {W} _.
Arguments AssertionFailed {W} _ _.

(** ** [BytecodeWriter]: the inline methods *)

Section BytecodeWriterMethods.
Context {W : Type} {WB : ByteStreamWriterBase W}.

(** [template<class T> void writeFlag(T Flag)
      { Writer->writeBits32(Flag, getBitSize<T>()); }] *)
Definition writeFlag (T : FieldKind) (Flag : Z) (w : W) : W :=
  writeBits32 Flag (getBitSize T) w.

Definition writePseudoOpcode (Psop : Z) (w : W) : W :=
  writeFlag F_PseudoOpcode Psop w.

(** [unsigned Psop = static_cast<unsigned>(PSOP_Last) + Op;
     writePseudoOpcode(static_cast<PseudoOpcode>(Psop));] *)
Definition writeOpcode (Op : Z) (w : W) : W :=
  let Psop := to_unsigned 32 (PSOP_Last + Op) in
  writePseudoOpcode (to_unsigned 8 Psop) w.

(** [Writer->writeUInt8(Bt.asUInt8());
     if (Bt.VectSize >= 1) Writer->writeUInt8(Bt.VectSize);] *)
Definition writeBaseType (Bt : BaseType) (w : W) : W :=
  let w1 := writeUInt8 (asUInt8 Bt) w in
  if 1 <=? VectSize Bt then writeUInt8 (VectSize Bt) w1 else w1.

(** The overloads of [writeLitVal] on the integer types and on [bool]. *)
Definition writeLitVal_bool (V : bool) (w : W) : Outcome W := Done (writeBool V w).
Definition writeLitVal_uint8 (V : Z) (w : W) : Outcome W := Done (writeUInt8 V w).
Definition writeLitVal_uint16 (V : Z) (w : W) : Outcome W := Done (writeUInt16 V w).
Definition writeLitVal_uint32 (V : Z) (w : W) : Outcome W := Done (writeUInt32 V w).
Definition writeLitVal_uint64 (V : Z) (w : W) : Outcome W := Done (writeUInt64 V w).
Definition writeLitVal_int8 (V : Z) (w : W) : Outcome W := Done (writeInt8 V w).
Definition writeLitVal_int16 (V : Z) (w : W) : Outcome W := Done (writeInt16 V w).
Definition writeLitVal_int32 (V : Z) (w : W) : Outcome W := Done (writeInt32 V w).
Definition writeLitVal_int64 (V : Z) (w : W) : Outcome W := Done (writeInt64 V w).

(** [void writeLitVal(void* P) {
       assert(P == nullptr && "Cannot serialize non-null pointer literal.");
     }]: a pointer is its address, [nullptr] is 0. *)
Definition writeLitVal_ptr (P : Z) (w : W) : Outcome W :=
  if P =? 0 then Done w
  else AssertionFailed "Cannot serialize non-null pointer literal." w.

(** [template<class Ty> void reduceLiteralT(LiteralT<Ty>* E) {
       writeOpcode(COP_Literal);
       writeBaseType(E->baseType());
       writeLitVal(E->value());
     }].  [COP_Literal] is an enumerator of [TIL_Opcode] ([TIL.h]); the
    overload of [writeLitVal] is the one for [Ty]. *)
Definition reduceLiteralT {Ty : Type} (COP_Literal : Z)
    (writeLitVal : Ty -> W -> Outcome W) (E : LiteralT Ty) (w : W) : Outcome W :=
  let w1 := writeOpcode COP_Literal w in
  let w2 := writeBaseType (baseType E) w1 in
  writeLitVal (value E) w2.

End BytecodeWriterMethods.

(** ** [BytecodeReader]: the inline methods on the stream *)

Section BytecodeReaderMethods.
Context {R : Type} {RB : ByteStreamReaderBase R}.

(** [template<class T> T readFlag()
      { return static_cast<T>(Reader->readBits32(getBitSize<T>())); }] *)
Definition readFlag (T : FieldKind) (r : R) : Z * R :=
  let '(v, r') := readBits32 (getBitSize T) r in (castTo T v, r').

Definition readPseudoOpcode (r : R) : Z * R := readFlag F_PseudoOpcode r.

(** The overloads of [readLitVal] on the integer types and on [bool]. *)
Definition readLitVal_bool (r : R) : bool * R := readBool r.
Definition readLitVal_uint8 (r : R) : Z * R := readUInt8 r.
Definition readLitVal_uint16 (r : R) : Z * R := readUInt16 r.
Definition readLitVal_uint32 (r : R) : Z * R := readUInt32 r.
Definition readLitVal_uint64 (r : R) : Z * R := readUInt64 r.
Definition readLitVal_int8 (r : R) : Z * R := readInt8 r.
Definition readLitVal_int16 (r : R) : Z * R := readInt16 r.
Definition readLitVal_int32 (r : R) : Z * R := readInt32 r.
Definition readLitVal_int64 (r : R) : Z * R := readInt64 r.

(** The overload of [readLitVal] for pointers: [{ return nullptr; }]; it
    reads nothing. *)
Definition readLitVal_ptr (r : R) : Z * R := (0, r).

End BytecodeReaderMethods.

(** [TIL_Opcode getOpcode(PseudoOpcode Psop)
      { return static_cast<TIL_Opcode>(Psop - PSOP_Last); }] *)
Definition getOpcode (Psop : Z) : Z := Psop - PSOP_Last.

(** Modelled from the spec: the test of [readSExpr], missing from the
    header, that tells a real opcode from a marker (section 4.E: "if the
    opcode is a real IR opcode (>= PSOP_Last), dispatch to the per-opcode
    reader"). *)
Definition isRealOpcode (Psop : Z) : bool := PSOP_Last <=? Psop.

(** * The bit stream of the specification

    [Bytecode.h] declares [writeBits32], [readBits32], the two VBR codecs,
    [flush] and [endAtom] and defines them elsewhere.  The module below
    gives them the behaviour the specification describes: a byte buffer
    with a byte index and an in-byte bit offset, values packed least
    significant bit first. *)

Module ByteStream.

(** ** Bit strings *)

(** The [n] low bits of [V], least significant first. *)
Definition bitsLE (n : nat) (V : Z) : list bool :=
  map (fun i => Z.testbit V (Z.of_nat i)) (seq 0 n).

(** The number a bit string spells, least significant bit first. *)
Fixpoint bitsVal (l : list bool) : Z :=
  match l with
  | [] => 0
  | b :: t => Z.b2z b + 2 * bitsVal t
  end.

Definition byteBits (b : Z) : list bool := bitsLE 8 b.
Definition bitsOfBytes (bytes : list Z) : list bool := flat_map byteBits bytes.

(** ** Buffers *)

(** [BytecodeBase::MaxAtomSize = (1 << 12)] and the streams'
    [BufferSize = MaxAtomSize << 4]. *)
Definition MaxAtomSize : Z := Z.shiftl 1 12.
Definition BufferSize : Z := Z.shiftl MaxAtomSize 4.

(** [Buffer[i]], and [Buffer[i] = b] (no effect outside the vector; the
    C++ code has undefined behaviour there). *)
Definition getByte (buf : list Z) (i : Z) : Z := nth (Z.to_nat i) buf 0.

Fixpoint setNth (n : nat) (b : Z) (l : list Z) : list Z :=
  match l, n with
  | [], _ => []
  | _ :: t, O => b :: t
  | x :: t, S m => x :: setNth m b t
  end.

Definition setByte (buf : list Z) (i : Z) (b : Z) : list Z :=
  setNth (Z.to_nat i) b buf.

(** ** The writer *)

(** The writer's state: [Pos] and [Buffer] of the header.
    Modelled from the spec: the in-byte bit offset [wBit] of the "bit
    cursor" (section 3), which the header's private members do not show;
    [wSink] is what [writeData] has received. *)
Record ByteStreamWriter := mkWriter {
  wPos : Z;
  wBit : Z;
  wBuffer : list Z;
  wSink : list Z
}.

(** [ByteStreamWriterBase() : Pos(0), Buffer(BufferSize)]. *)
Definition newWriter : ByteStreamWriter :=
  {| wPos := 0; wBit := 0; wBuffer := repeat 0 (Z.to_nat BufferSize);
     wSink := [] |}.

(** Modelled from the spec: one step of "shift V into the current byte at
    the current bit offset" (section 4.A, bit packing): the [k] low bits of
    [V] go into the current byte at offset [wBit]; a byte that is begun is
    begun from zero. *)
Definition writeChunk (V k : Z) (w : ByteStreamWriter) : ByteStreamWriter :=
  let old := if wBit w =? 0 then 0 else getByte (wBuffer w) (wPos w) in
  let byte := Z.lor old (Z.shiftl (Z.land V (Z.ones k)) (wBit w)) in
  let buf := setByte (wBuffer w) (wPos w) byte in
  if wBit w + k <? 8
  then {| wPos := wPos w; wBit := wBit w + k; wBuffer := buf; wSink := wSink w |}
  else {| wPos := wPos w + 1; wBit := 0; wBuffer := buf; wSink := wSink w |}.

(** Modelled from the spec: "if N exceeds the remaining bits of the current
    byte, spill into subsequent bytes, always LSB-first".  Each round
    writes at least one bit, so [Nbits] rounds are enough fuel. *)
Fixpoint writeBitsLoop (fuel : nat) (V Nbits : Z) (w : ByteStreamWriter)
  : ByteStreamWriter :=
  match fuel with
  | O => w
  | S fuel' =>
      if Nbits <=? 0 then w
      else
        let k := Z.min Nbits (8 - wBit w) in
        writeBitsLoop fuel' (Z.shiftr V k) (Nbits - k) (writeChunk V k w)
  end.

(** Modelled from the spec: [writeBits32(uint32_t V, int Nbits)] and
    [writeBits64(uint64_t V, int Nbits)], missing from the header: the
    [Nbits] low bits of [V], zero-extended. *)
Definition writeBits32 (V Nbits : Z) (w : ByteStreamWriter) : ByteStreamWriter :=
  writeBitsLoop (Z.to_nat Nbits) (to_unsigned 32 V) Nbits w.

Definition writeBits64 (V Nbits : Z) (w : ByteStreamWriter) : ByteStreamWriter :=
  writeBitsLoop (Z.to_nat Nbits) (to_unsigned 64 V) Nbits w.

(** Modelled from the spec: the VBR encoder, missing from the header
    (section 4.A): "emit 7-bit groups LSB-first; for each group, first
    write the 1-bit continuation flag, then the 7-bit group".  [groups]
    bounds the loop: 5 rounds empty a 32-bit value, 10 a 64-bit one. *)
Fixpoint writeVbrLoop (groups : nat) (V : Z) (w : ByteStreamWriter)
  : ByteStreamWriter :=
  match groups with
  | O => w
  | S g =>
      let V2 := Z.shiftr V 7 in
      let more := negb (V2 =? 0) in
      let w1 := writeBits32 (Z.b2z more) 1 w in
      let w2 := writeBits32 (Z.land V 127) 7 w1 in
      if more then writeVbrLoop g V2 w2 else w2
  end.

Definition writeUInt32_Vbr (V : Z) (w : ByteStreamWriter) : ByteStreamWriter :=
  writeVbrLoop 5 (to_unsigned 32 V) w.

Definition writeUInt64_Vbr (V : Z) (w : ByteStreamWriter) : ByteStreamWriter :=
  writeVbrLoop 10 (to_unsigned 64 V) w.

(** Modelled from the spec: [flush], missing from the header (section
    4.A): "writes out whatever partial atom remains and resets the cursor
    to zero"; a byte that is begun goes out whole. *)
Definition flush (w : ByteStreamWriter) : ByteStreamWriter :=
  let used := wPos w + (if wBit w =? 0 then 0 else 1) in
  {| wPos := 0; wBit := 0; wBuffer := wBuffer w;
     wSink := wSink w ++ firstn (Z.to_nat used) (wBuffer w) |}.

(** Modelled from the spec: the writer's [endAtom], missing from the
    header: "if the remaining buffer space is less than MaxAtomSize, the
    buffer is flushed"; the remaining space is the header's
    [length() = BufferSize - Pos]. *)
Definition endAtom (w : ByteStreamWriter) : ByteStreamWriter :=
  if BufferSize - wPos w <? MaxAtomSize then flush w else w.

(** ** The reader *)

(** The reader's state: [BufferLen], [Pos], [Eof], [Error] and [Buffer] of
    the header.  Modelled from the spec: the in-byte bit offset [rBit].
    The refill from the source is not modelled: [rBuffer] holds the whole
    input. *)
Record ByteStreamReader := mkReader {
  rBufferLen : Z;
  rPos : Z;
  rBit : Z;
  rEof : bool;
  rError : bool;
  rBuffer : list Z
}.

(** Modelled from the spec: the sticky [Error] flag of section 4.B. *)
Definition setError (r : ByteStreamReader) : ByteStreamReader :=
  {| rBufferLen := rBufferLen r; rPos := rPos r; rBit := rBit r;
     rEof := rEof r; rError := true; rBuffer := rBuffer r |}.

(** The reader with its cursor at bit [c] of the buffer. *)
Definition seek (c : Z) (r : ByteStreamReader) : ByteStreamReader :=
  {| rBufferLen := rBufferLen r; rPos := c / 8; rBit := c mod 8;
     rEof := rEof r; rError := rError r; rBuffer := rBuffer r |}.

(** Modelled from the spec: the mirror of [writeChunk]: [k] bits of the
    current byte from offset [rBit]. *)
Definition readChunk (k : Z) (r : ByteStreamReader) : Z * ByteStreamReader :=
  let byte := getByte (rBuffer r) (rPos r) in
  let v := Z.land (Z.shiftr byte (rBit r)) (Z.ones k) in
  (v,
   if rBit r + k <? 8
   then {| rBufferLen := rBufferLen r; rPos := rPos r; rBit := rBit r + k;
           rEof := rEof r; rError := rError r; rBuffer := rBuffer r |}
   else {| rBufferLen := rBufferLen r; rPos := rPos r + 1; rBit := 0;
           rEof := rEof r; rError := rError r; rBuffer := rBuffer r |}).

(** Modelled from the spec: "any attempt to read past end-of-stream sets a
    sticky Error flag" (section 4.B); the bits that are missing read as
    zero. *)
Fixpoint readBitsLoop (fuel : nat) (Nbits : Z) (r : ByteStreamReader)
  : Z * ByteStreamReader :=
  match fuel with
  | O => (0, r)
  | S fuel' =>
      if Nbits <=? 0 then (0, r)
      else if rBufferLen r <=? rPos r then (0, setError r)
      else
        let k := Z.min Nbits (8 - rBit r) in
        let '(lo, r1) := readChunk k r in
        let '(hi, r2) := readBitsLoop fuel' (Nbits - k) r1 in
        (Z.lor lo (Z.shiftl hi k), r2)
  end.

(** Modelled from the spec: [readBits32(int Nbits)] and
    [readBits64(int Nbits)], missing from the header. *)
Definition readBits32 (Nbits : Z) (r : ByteStreamReader) : Z * ByteStreamReader :=
  let '(v, r') := readBitsLoop (Z.to_nat Nbits) Nbits r in (to_unsigned 32 v, r').

Definition readBits64 (Nbits : Z) (r : ByteStreamReader) : Z * ByteStreamReader :=
  let '(v, r') := readBitsLoop (Z.to_nat Nbits) Nbits r in (to_unsigned 64 v, r').

(** Modelled from the spec: the VBR decoder, missing from the header: "the
    decoder accepts up to 5 groups for 32-bit and 10 for 64-bit" (section
    3); "a VBR continuation chain exceeding the permitted group count sets
    a sticky Error flag" (section 4.B). *)
Fixpoint readVbrLoop (groups : nat) (shift : Z) (r : ByteStreamReader)
  : Z * ByteStreamReader :=
  match groups with
  | O => (0, setError r)
  | S g =>
      let '(more, r1) := readBits32 1 r in
      let '(grp, r2) := readBits32 7 r1 in
      if more =? 0 then (Z.shiftl grp shift, r2)
      else
        let '(hi, r3) := readVbrLoop g (shift + 7) r2 in
        (Z.lor (Z.shiftl grp shift) hi, r3)
  end.

Definition readUInt32_Vbr (r : ByteStreamReader) : Z * ByteStreamReader :=
  let '(v, r') := readVbrLoop 5 0 r in (to_unsigned 32 v, r').

Definition readUInt64_Vbr (r : ByteStreamReader) : Z * ByteStreamReader :=
  let '(v, r') := readVbrLoop 10 0 r in (to_unsigned 64 v, r').

(** Modelled from the spec: the reader's [endAtom], missing from the
    header (section 4.B): "advances the bit cursor to the byte after the
    last one it read"; the refill that follows is not modelled. *)
Definition readEndAtom (r : ByteStreamReader) : ByteStreamReader :=
  if rBit r =? 0 then r
  else {| rBufferLen := rBufferLen r; rPos := rPos r + 1; rBit := 0;
          rEof := rEof r; rError := rError r; rBuffer := rBuffer r |}.

(** [bool empty() { return Eof && length() <= 0; }] with
    [length() = BufferLen - Pos]. *)
Definition empty (r : ByteStreamReader) : bool :=
  rEof r && (rBufferLen r - rPos r <=? 0).

(** ** Relating a writer and a reader *)

(** The writer's cursor in bits, and the bits it has put in its buffer. *)
Definition cursor (w : ByteStreamWriter) : Z := 8 * wPos w + wBit w.

Definition streamBits (w : ByteStreamWriter) : list bool :=
  bitsOfBytes (firstn (Z.to_nat (wPos w)) (wBuffer w))
  ++ firstn (Z.to_nat (wBit w)) (byteBits (getByte (wBuffer w) (wPos w))).

(** A writer in a sound state: the cursor is inside the buffer and the
    byte that is begun holds nothing above the bit offset. *)
Record valid (w : ByteStreamWriter) : Prop := {
  valid_pos : 0 <= wPos w <= Z.of_nat (length (wBuffer w));
  valid_bit : 0 <= wBit w < 8;
  valid_in : wBit w <> 0 -> wPos w < Z.of_nat (length (wBuffer w));
  valid_cur : wBit w <> 0 -> 0 <= getByte (wBuffer w) (wPos w) < 2 ^ wBit w
}.

(** The buffer has room for [Nbits] more bits. *)
Definition room (Nbits : Z) (w : ByteStreamWriter) : Prop :=
  cursor w + Nbits <= 8 * Z.of_nat (length (wBuffer w)).

(** The bytes the buffer holds up to the cursor, as [flush] hands them to
    the sink. *)
Definition written (w : ByteStreamWriter) : list Z :=
  firstn (Z.to_nat (wPos w + (if wBit w =? 0 then 0 else 1))) (wBuffer w).

(** [data] starts with every bit [w] has written. *)
Definition carries (data : list Z) (w : ByteStreamWriter) : Prop :=
  exists rest, bitsOfBytes data = streamBits w ++ rest.

(** A reader over [data] whose cursor stands where the cursor of [w]
    stands. *)
Definition readerAt (data : list Z) (w : ByteStreamWriter) : ByteStreamReader :=
  {| rBufferLen := Z.of_nat (length data); rPos := wPos w; rBit := wBit w;
     rEof := true; rError := false; rBuffer := data |}.

Definition rcursor (r : ByteStreamReader) : Z := 8 * rPos r + rBit r.

(** The bits ahead of the reader's cursor. *)
Definition remaining (r : ByteStreamReader) : list bool :=
  skipn (Z.to_nat (rcursor r))
        (bitsOfBytes (firstn (Z.to_nat (rBufferLen r)) (rBuffer r))).

Record validR (r : ByteStreamReader) : Prop := {
  validR_pos : 0 <= rPos r;
  validR_bit : 0 <= rBit r < 8;
  validR_len : 0 <= rBufferLen r <= Z.of_nat (length (rBuffer r))
}.

(** The (flag, group) pairs the VBR encoder emits for [V]. *)
Fixpoint vbrGroups (groups : nat) (V : Z) : list (bool * Z) :=
  match groups with
  | O => []
  | S g =>
      let V2 := Z.shiftr V 7 in
      let more := negb (V2 =? 0) in
      (more, Z.land V 127) :: (if more then vbrGroups g V2 else [])
  end.

(** The bits of one group: the continuation flag, then the 7 bits. *)
Definition groupBits (fg : bool * Z) : list bool := fst fg :: bitsLE 7 (snd fg).

(** The number whose base-128 digits, least significant first, are [ds]. *)
Fixpoint groupsValue (ds : list Z) : Z :=
  match ds with
  | [] => 0
  | d :: t => d + 128 * groupsValue t
  end.

(** A chain of [g] groups ahead of the reader that all carry the
    continuation flag. *)
Fixpoint continues (g : nat) (r : ByteStreamReader) : Prop :=
  match g with
  | O => True
  | S g' =>
      fst (readBits32 1 r) <> 0
      /\ continues g' (snd (readBits32 7 (snd (readBits32 1 r))))
  end.

(** ** Bit strings and lists *)

Lemma bitsLE_length n V : length (bitsLE n V) = n.
Proof. unfold bitsLE. now rewrite length_map, length_seq. Qed.

Lemma bitsLE_S n V : bitsLE (S n) V = Z.testbit V 0 :: bitsLE n (Z.shiftr V 1).
Proof.
  unfold bitsLE. cbn [seq map]. f_equal.
  rewrite <- seq_shift, map_map. apply map_ext. intros i.
  rewrite Z.shiftr_spec by lia. f_equal. lia.
Qed.

Lemma bitsLE_app n m V :
  bitsLE (n + m) V = bitsLE n V ++ bitsLE m (Z.shiftr V (Z.of_nat n)).
Proof.
  revert V. induction n as [|n IH]; intros V.
  - cbn [Nat.add bitsLE seq map app Z.of_nat]. now rewrite Z.shiftr_0_r.
  - cbn [Nat.add]. rewrite !bitsLE_S, IH. cbn [app].
    rewrite Z.shiftr_shiftr by lia.
    replace (1 + Z.of_nat n) with (Z.of_nat (S n)) by lia. reflexivity.
Qed.

Lemma bitsVal_bitsLE n V : bitsVal (bitsLE n V) = V mod 2 ^ Z.of_nat n.
Proof.
  revert V. induction n as [|n IH]; intros V.
  - cbn. now rewrite Z.mod_1_r.
  - rewrite bitsLE_S. cbn [bitsVal]. rewrite IH.
    rewrite Nat2Z.inj_succ, Z.pow_succ_r by lia.
    rewrite Z.shiftr_div_pow2 by lia. change (2 ^ 1) with 2.
    rewrite Z.bit0_odd.
    rewrite Z.rem_mul_r by lia.
    rewrite Zmod_odd. destruct (Z.odd V); cbn [Z.b2z]; lia.
Qed.

Lemma bitsVal_range l : 0 <= bitsVal l < 2 ^ Z.of_nat (length l).
Proof.
  induction l as [|b t IH]; cbn [bitsVal length].
  - cbn. lia.
  - rewrite Nat2Z.inj_succ, Z.pow_succ_r by lia. destruct b; cbn [Z.b2z]; lia.
Qed.

Lemma bitsLE_ext n U V :
  (forall i, 0 <= i < Z.of_nat n -> Z.testbit U i = Z.testbit V i) ->
  bitsLE n U = bitsLE n V.
Proof.
  intros E. unfold bitsLE. apply map_ext_in. intros i Hi.
  apply in_seq in Hi. apply E. lia.
Qed.

Lemma bitsLE_mod n V : bitsLE n (V mod 2 ^ Z.of_nat n) = bitsLE n V.
Proof.
  apply bitsLE_ext. intros i Hi. now rewrite Z.mod_pow2_bits_low by lia.
Qed.

Lemma firstn_bitsLE k n V : (k <= n)%nat -> firstn k (bitsLE n V) = bitsLE k V.
Proof.
  intros Hk. replace n with (k + (n - k))%nat by lia.
  rewrite bitsLE_app, firstn_app, bitsLE_length, Nat.sub_diag.
  rewrite firstn_all2 by (rewrite bitsLE_length; lia).
  cbn [firstn]. apply app_nil_r.
Qed.

Lemma skipn_bitsLE k n V :
  (k <= n)%nat -> skipn k (bitsLE n V) = bitsLE (n - k) (Z.shiftr V (Z.of_nat k)).
Proof.
  intros Hk. replace n with (k + (n - k))%nat at 1 by lia.
  rewrite bitsLE_app, skipn_app, bitsLE_length, Nat.sub_diag.
  rewrite skipn_all2 by (rewrite bitsLE_length; lia). reflexivity.
Qed.

(* lists *)
Lemma setNth_length n b l : length (setNth n b l) = length l.
Proof. revert n; induction l as [|x t IH]; intros [|n]; cbn; auto. Qed.

Lemma firstn_setNth n b l : firstn n (setNth n b l) = firstn n l.
Proof. revert n; induction l as [|x t IH]; intros [|n]; cbn; auto. now rewrite IH. Qed.

Lemma nth_setNth n b l d : (n < length l)%nat -> nth n (setNth n b l) d = b.
Proof.
  revert n; induction l as [|x t IH]; intros [|n] Hn; cbn in *; try lia; auto.
  apply IH. lia.
Qed.

Lemma firstn_S_setNth n b l :
  (n < length l)%nat -> firstn (S n) (setNth n b l) = firstn n l ++ [b].
Proof.
  revert n; induction l as [|x t IH]; intros [|n] Hn; cbn in *; try lia; auto.
  f_equal. apply IH. lia.
Qed.

Lemma bitsOfBytes_app a b : bitsOfBytes (a ++ b) = bitsOfBytes a ++ bitsOfBytes b.
Proof. apply flat_map_app. Qed.

Lemma bitsOfBytes_length l : length (bitsOfBytes l) = (8 * length l)%nat.
Proof.
  induction l as [|x t IH]; cbn [bitsOfBytes flat_map length]; auto.
  rewrite length_app. fold (bitsOfBytes t). rewrite IH.
  unfold byteBits. rewrite bitsLE_length. lia.
Qed.

(* bits *)
Lemma testbit_above n x i : 0 <= x < 2 ^ n -> n <= i -> Z.testbit x i = false.
Proof.
  intros Hx Hi. destruct (Z.eq_dec x 0) as [->|Hne]; [apply Z.testbit_0_l|].
  apply Z.bits_above_log2; [lia|].
  assert (0 <= n). { destruct (Z.lt_ge_cases n 0) as [Hn|]; [|lia]. rewrite Z.pow_neg_r in Hx; lia. }
  assert (Z.log2 x < n) by (apply Z.log2_lt_pow2; lia). lia.
Qed.

Lemma bound_of_bits n x :
  0 <= n -> 0 <= x -> (forall i, n <= i -> Z.testbit x i = false) -> x < 2 ^ n.
Proof.
  intros Hn Hx Hb.
  assert (E : x mod 2 ^ n = x).
  { apply Z.bits_inj'. intros i Hi. destruct (Z.lt_ge_cases i n).
    - now rewrite Z.mod_pow2_bits_low.
    - rewrite Z.mod_pow2_bits_high by lia. symmetry. apply Hb. lia. }
  rewrite <- E. apply Z.mod_pos_bound. apply Z.pow_pos_nonneg; lia.
Qed.

Lemma lor_shiftl_add lo hi k :
  0 <= k -> 0 <= lo < 2 ^ k -> Z.lor lo (Z.shiftl hi k) = lo + hi * 2 ^ k.
Proof.
  intros Hk Hlo.
  rewrite <- Z.shiftl_mul_pow2 by lia.
  rewrite <- Z.lxor_lor, <- Z.add_nocarry_lxor; auto;
  apply Z.bits_inj'; intros i Hi; rewrite Z.land_spec, Z.bits_0;
  destruct (Z.lt_ge_cases i k).
  - rewrite Z.shiftl_spec_low by lia. apply andb_false_r.
  - rewrite (testbit_above k lo i) by lia. reflexivity.
  - rewrite Z.shiftl_spec_low by lia. apply andb_false_r.
  - rewrite (testbit_above k lo i) by lia. reflexivity.
Qed.

Lemma bitsVal_app a b :
  bitsVal (a ++ b) = bitsVal a + bitsVal b * 2 ^ Z.of_nat (length a).
Proof.
  induction a as [|x t IH]; cbn [app bitsVal length].
  - cbn. lia.
  - rewrite IH, Nat2Z.inj_succ, Z.pow_succ_r by lia. lia.
Qed.

(* the byte a chunk produces *)
Lemma chunk_bits old V k o :
  0 <= o -> 0 <= k -> 0 <= old < 2 ^ o ->
  let B := Z.lor old (Z.shiftl (Z.land V (Z.ones k)) o) in
  bitsLE (Z.to_nat (o + k)) B = bitsLE (Z.to_nat o) old ++ bitsLE (Z.to_nat k) V
  /\ 0 <= B < 2 ^ (o + k).
Proof.
  intros Ho Hk Hold B. split.
  - rewrite Z2Nat.inj_add, bitsLE_app by lia. f_equal.
    + apply bitsLE_ext. intros i Hi. unfold B.
      rewrite Z.lor_spec, Z.shiftl_spec_low by lia. apply orb_false_r.
    + apply bitsLE_ext. intros i Hi. unfold B.
      rewrite Z.shiftr_spec, Z.lor_spec, Z.shiftl_spec by lia.
      rewrite (testbit_above o old) by lia. cbn [orb].
      replace (i + Z.of_nat (Z.to_nat o) - o) with i by lia.
      rewrite Z.land_spec, Z.testbit_ones_nonneg by lia.
      replace (i <? k) with true by (symmetry; apply Z.ltb_lt; lia).
      apply andb_true_r.
  - assert (0 <= B).
    { unfold B. apply Z.lor_nonneg. split; [lia|]. apply Z.shiftl_nonneg.
      apply Z.land_nonneg. right. rewrite Z.ones_equiv.
      pose proof (Z.pow_pos_nonneg 2 k). lia. }
    split; [lia|]. apply bound_of_bits; try lia.
    intros i Hi. unfold B.
    rewrite Z.lor_spec, Z.shiftl_spec by lia.
    rewrite (testbit_above o old) by lia. cbn [orb].
    rewrite Z.land_spec, Z.testbit_ones_nonneg by lia.
    replace (i - o <? k) with false by (symmetry; apply Z.ltb_ge; lia).
    apply andb_false_r.
Qed.

Lemma streamBits_length w : valid w -> Z.of_nat (length (streamBits w)) = cursor w.
Proof.
  intros [Hp Hb _ _]. unfold streamBits, cursor.
  rewrite length_app, bitsOfBytes_length, length_firstn, length_firstn.
  unfold byteBits. rewrite bitsLE_length. lia.
Qed.

Lemma writeChunk_spec V k w :
  valid w -> 1 <= k <= 8 - wBit w -> room k w ->
  let w' := writeChunk V k w in
  valid w' /\ streamBits w' = streamBits w ++ bitsLE (Z.to_nat k) V
  /\ cursor w' = cursor w + k
  /\ length (wBuffer w') = length (wBuffer w) /\ wSink w' = wSink w.
Proof.
  intros [Hp Hb Hin Hc] Hk Hroom. unfold room, cursor in Hroom.
  set (old := if wBit w =? 0 then 0 else getByte (wBuffer w) (wPos w)).
  set (B := Z.lor old (Z.shiftl (Z.land V (Z.ones k)) (wBit w))).
  assert (Hold : 0 <= old < 2 ^ wBit w).
  { unfold old. destruct (Z.eqb_spec (wBit w) 0) as [E|E].
    - rewrite E. cbn. lia.
    - apply Hc, E. }
  assert (Hlow : bitsLE (Z.to_nat (wBit w)) old
                 = bitsLE (Z.to_nat (wBit w)) (getByte (wBuffer w) (wPos w))).
  { unfold old. destruct (Z.eqb_spec (wBit w) 0) as [E|E]; [now rewrite E|reflexivity]. }
  destruct (chunk_bits old V k (wBit w)) as [HB1 HB2]; try lia. fold B in HB1, HB2.
  assert (Hlt : (Z.to_nat (wPos w) < length (wBuffer w))%nat) by lia.
  assert (Hget : getByte (setByte (wBuffer w) (wPos w) B) (wPos w) = B).
  { unfold getByte, setByte. now apply nth_setNth. }
  assert (Hs : streamBits w = bitsOfBytes (firstn (Z.to_nat (wPos w)) (wBuffer w))
                 ++ bitsLE (Z.to_nat (wBit w)) old).
  { unfold streamBits, byteBits. rewrite firstn_bitsLE by lia. now rewrite Hlow. }
  unfold writeChunk. fold old. fold B. cbv zeta.
  assert (Hlen : length (setByte (wBuffer w) (wPos w) B) = length (wBuffer w))
    by apply setNth_length.
  destruct (Z.ltb_spec (wBit w + k) 8) as [Hlt8|Hge8].
  - split; [|split; [|split; [|split]]]; cbn [wPos wBit wBuffer wSink]; auto.
    + constructor; cbn [wPos wBit wBuffer wSink]; rewrite ?Hlen, ?Hget; lia.
    + rewrite Hs. unfold streamBits; cbn [wPos wBit wBuffer wSink]. rewrite Hget.
      unfold setByte. rewrite firstn_setNth. unfold byteBits.
      rewrite firstn_bitsLE by lia. rewrite HB1. now rewrite app_assoc.
    + unfold cursor; cbn [wPos wBit]. lia.
  - assert (wBit w + k = 8) by lia.
    split; [|split; [|split; [|split]]]; cbn [wPos wBit wBuffer wSink]; auto.
    + constructor; cbn [wPos wBit wBuffer wSink]; rewrite ?Hlen; lia.
    + rewrite Hs. unfold streamBits; cbn [wPos wBit wBuffer wSink].
      replace (Z.to_nat (wPos w + 1)) with (S (Z.to_nat (wPos w))) by lia.
      unfold setByte. rewrite firstn_S_setNth by lia.
      rewrite bitsOfBytes_app. cbn [Z.to_nat firstn]. rewrite app_nil_r.
      cbn [bitsOfBytes flat_map]. rewrite app_nil_r. unfold byteBits.
      replace 8%nat with (Z.to_nat (wBit w + k)) by lia.
      rewrite HB1. now rewrite app_assoc.
    + unfold cursor; cbn [wPos wBit]. lia.
Qed.

Lemma writeBitsLoop_spec fuel : forall V Nbits w,
  valid w -> 0 <= Nbits -> (Z.to_nat Nbits <= fuel)%nat -> room Nbits w ->
  let w' := writeBitsLoop fuel V Nbits w in
  valid w' /\ streamBits w' = streamBits w ++ bitsLE (Z.to_nat Nbits) V
  /\ cursor w' = cursor w + Nbits
  /\ length (wBuffer w') = length (wBuffer w) /\ wSink w' = wSink w.
Proof.
  induction fuel as [|fuel IH]; intros V Nbits w Hv HN Hf Hroom; cbn [writeBitsLoop].
  - replace Nbits with 0 by lia. cbn [Z.to_nat bitsLE seq map]. rewrite app_nil_r.
    split; [|split; [|split; [|split]]]; auto; lia.
  - destruct (Z.leb_spec Nbits 0) as [Hz|Hpos].
    + replace Nbits with 0 by lia. cbn [Z.to_nat bitsLE seq map]. rewrite app_nil_r.
      split; [|split; [|split; [|split]]]; auto; lia.
    + set (k := Z.min Nbits (8 - wBit w)).
      pose proof (valid_bit w Hv) as Hb.
      assert (Hk : 1 <= k <= 8 - wBit w) by (unfold k; lia).
      assert (Hkn : k <= Nbits) by (unfold k; lia).
      destruct (writeChunk_spec V k w Hv Hk) as (Hv1 & Hs1 & Hc1 & Hl1 & Hk1).
      { unfold room in *. lia. }
      destruct (IH (Z.shiftr V k) (Nbits - k) (writeChunk V k w)) as (Hv2 & Hs2 & Hc2 & Hl2 & Hk2);
        auto; try lia.
      { unfold room in *. rewrite Hc1, Hl1. lia. }
      cbv zeta. fold k.
      split; [|split; [|split; [|split]]]; auto; try lia; try congruence.
      rewrite Hs2, Hs1, <- app_assoc. f_equal.
      replace (Z.to_nat Nbits) with (Z.to_nat k + Z.to_nat (Nbits - k))%nat by lia.
      rewrite bitsLE_app, Z2Nat.id by lia. reflexivity.
Qed.

Lemma byteBits_length b : length (byteBits b) = 8%nat.
Proof. apply bitsLE_length. Qed.

Lemma skipn_bitsOfBytes p o bytes :
  (p < length bytes)%nat -> (o <= 8)%nat ->
  skipn (8 * p + o) (bitsOfBytes bytes)
  = skipn o (byteBits (nth p bytes 0)) ++ bitsOfBytes (skipn (S p) bytes).
Proof.
  revert bytes. induction p as [|p IH]; intros [|x t] Hp Ho; cbn [length] in Hp; try lia.
  - change (bitsOfBytes (x :: t)) with (byteBits x ++ bitsOfBytes t).
    cbn [Nat.mul Nat.add nth skipn].
    rewrite skipn_app, byteBits_length.
    replace (o - 8)%nat with 0%nat by lia. reflexivity.
  - replace (8 * S p + o)%nat with ((8 * p + o) + 8)%nat by lia.
    change (bitsOfBytes (x :: t)) with (byteBits x ++ bitsOfBytes t).
    rewrite <- skipn_skipn.
    rewrite (skipn_app 8), byteBits_length, Nat.sub_diag.
    rewrite (skipn_all2 (byteBits x)) by (rewrite byteBits_length; lia).
    cbn [app skipn nth]. rewrite IH by lia. reflexivity.
Qed.

Lemma nth_firstn_lt (l : list Z) i j d : (i < j)%nat -> nth i (firstn j l) d = nth i l d.
Proof.
  revert i j. induction l as [|x t IH]; intros [|i] [|j] Hij; cbn; try lia; auto.
  apply IH. lia.
Qed.

Lemma div8 p b : 0 <= b < 8 -> (8 * p + b) / 8 = p /\ (8 * p + b) mod 8 = b.
Proof.
  intros Hb. split.
  - symmetry. apply (Z.div_unique _ _ _ b); lia.
  - symmetry. apply (Z.mod_unique _ _ p); lia.
Qed.

Lemma remaining_seek c r :
  0 <= rcursor r -> 0 <= c ->
  remaining (seek (rcursor r + c) r) = skipn (Z.to_nat c) (remaining r).
Proof.
  intros H0 Hc. unfold remaining, seek, rcursor at 1; cbn [rPos rBit rBufferLen rBuffer].
  rewrite skipn_skipn. f_equal.
  pose proof (Z.div_mod (rcursor r + c) 8). lia.
Qed.

Lemma readChunk_spec k r :
  validR r -> 1 <= k <= 8 - rBit r -> rPos r < rBufferLen r ->
  readChunk k r = (bitsVal (firstn (Z.to_nat k) (remaining r)), seek (rcursor r + k) r).
Proof.
  intros [Hp Hb Hl] Hk Hlt. unfold readChunk. f_equal.
  - unfold remaining, rcursor.
    replace (Z.to_nat (8 * rPos r + rBit r))
      with (8 * Z.to_nat (rPos r) + Z.to_nat (rBit r))%nat by lia.
    rewrite skipn_bitsOfBytes by (rewrite ?length_firstn; lia).
    rewrite nth_firstn_lt by lia. fold (getByte (rBuffer r) (rPos r)).
    unfold byteBits. rewrite skipn_bitsLE by lia.
    rewrite firstn_app, bitsLE_length.
    replace (Z.to_nat k - (8 - Z.to_nat (rBit r)))%nat with 0%nat by lia.
    cbn [firstn]. rewrite app_nil_r, firstn_bitsLE by lia.
    rewrite bitsVal_bitsLE, !Z2Nat.id by lia. now rewrite Z.land_ones by lia.
  - unfold seek, rcursor.
    destruct (Z.ltb_spec (rBit r + k) 8) as [Hlt8|Hge8].
    + replace (8 * rPos r + rBit r + k) with (8 * rPos r + (rBit r + k)) by lia.
      destruct (div8 (rPos r) (rBit r + k)) as [-> ->]; [lia|]. reflexivity.
    + replace (8 * rPos r + rBit r + k) with (8 * (rPos r + 1) + 0) by lia.
      destruct (div8 (rPos r + 1) 0) as [-> ->]; [lia|]. reflexivity.
Qed.

Lemma firstn_plus {A} (n m : nat) (l : list A) :
  firstn (n + m) l = firstn n l ++ firstn m (skipn n l).
Proof.
  revert l. induction n as [|n IH]; intros [|x t]; cbn [Nat.add firstn skipn app]; auto.
  - now rewrite firstn_nil.
  - now rewrite IH.
Qed.

Lemma seek_seek a b r : seek a (seek b r) = seek a r.
Proof. reflexivity. Qed.

Lemma rcursor_seek c r : 0 <= c -> rcursor (seek c r) = c.
Proof.
  intros Hc. unfold rcursor, seek; cbn [rPos rBit].
  pose proof (Z.div_mod c 8). lia.
Qed.

Lemma validR_seek c r : validR r -> 0 <= c -> validR (seek c r).
Proof.
  intros [Hp Hb Hl] Hc. constructor; cbn [seek rPos rBit rBufferLen rBuffer]; auto.
  - apply Z.div_pos; lia.
  - apply Z.mod_pos_bound. lia.
Qed.

Lemma remaining_length r :
  validR r ->
  Z.of_nat (length (remaining r)) = Z.max 0 (8 * rBufferLen r - rcursor r).
Proof.
  intros [Hp Hb Hl]. unfold remaining.
  rewrite length_skipn, bitsOfBytes_length, length_firstn. unfold rcursor. lia.
Qed.

Lemma readBitsLoop_spec fuel : forall Nbits r,
  validR r -> 0 <= Nbits -> (Z.to_nat Nbits <= fuel)%nat ->
  Nbits <= Z.of_nat (length (remaining r)) ->
  readBitsLoop fuel Nbits r
  = (bitsVal (firstn (Z.to_nat Nbits) (remaining r)), seek (rcursor r + Nbits) r).
Proof.
  assert (Hid : forall r, validR r -> seek (rcursor r + 0) r = r).
  { intros [a b c d e f] [Hp Hb Hl]. unfold seek, rcursor.
    cbn [rPos rBit rBufferLen rEof rError rBuffer] in *.
    rewrite Z.add_0_r. destruct (div8 b c Hb) as [-> ->]. reflexivity. }
  induction fuel as [|fuel IH]; intros Nbits r Hv HN Hf Hrem; cbn [readBitsLoop].
  - replace Nbits with 0 by lia. cbn [Z.to_nat firstn bitsVal]. now rewrite Hid.
  - destruct (Z.leb_spec Nbits 0) as [Hz|Hpos].
    { replace Nbits with 0 by lia. cbn [Z.to_nat firstn bitsVal]. now rewrite Hid. }
    pose proof (remaining_length r Hv) as Hrl.
    pose proof (validR_bit r Hv) as Hb. pose proof (validR_pos r Hv) as Hp.
    assert (Hlt : rPos r < rBufferLen r) by (unfold rcursor in Hrl; lia).
    destruct (Z.leb_spec (rBufferLen r) (rPos r)) as [Hbad|_]; [lia|].
    set (k := Z.min Nbits (8 - rBit r)).
    assert (Hk : 1 <= k <= 8 - rBit r) by (unfold k; lia).
    assert (Hkn : k <= Nbits) by (unfold k; lia).
    rewrite (readChunk_spec k r Hv Hk Hlt).
    assert (Hc0 : 0 <= rcursor r) by (unfold rcursor; lia).
    rewrite IH; try lia.
    + rewrite rcursor_seek, seek_seek by lia. f_equal.
      * rewrite remaining_seek by lia.
        rewrite lor_shiftl_add.
        2: lia.
        2:{ pose proof (bitsVal_range (firstn (Z.to_nat k) (remaining r))) as Hr.
            rewrite length_firstn, Nat.min_l in Hr by lia.
            rewrite Z2Nat.id in Hr by lia. exact Hr. }
        replace (Z.to_nat Nbits) with (Z.to_nat k + Z.to_nat (Nbits - k))%nat by lia.
        rewrite firstn_plus, bitsVal_app, length_firstn, Nat.min_l by lia.
        now rewrite Z2Nat.id by lia.
      * f_equal. lia.
    + apply validR_seek; auto; lia.
    + rewrite remaining_seek by lia. rewrite length_skipn. lia.
Qed.

Lemma cursor_inj w : valid w -> wPos w = cursor w / 8 /\ wBit w = cursor w mod 8.
Proof.
  intros Hv. pose proof (valid_bit w Hv) as Hb. unfold cursor.
  destruct (div8 (wPos w) (wBit w) Hb) as [-> ->]. auto.
Qed.

Lemma readerAt_seek data w w' :
  valid w -> valid w' ->
  seek (rcursor (readerAt data w) + (cursor w' - cursor w)) (readerAt data w)
  = readerAt data w'.
Proof.
  intros Hv Hv'. unfold seek, readerAt, rcursor; cbn [rPos rBit rBufferLen rEof rError rBuffer].
  fold (cursor w). replace (cursor w + (cursor w' - cursor w)) with (cursor w') by lia.
  destruct (cursor_inj w' Hv') as [<- <-]. reflexivity.
Qed.

Lemma validR_readerAt data w : valid w -> validR (readerAt data w).
Proof.
  intros Hv. pose proof (valid_bit w Hv). pose proof (valid_pos w Hv).
  constructor; cbn [readerAt rPos rBit rBufferLen rBuffer]; lia.
Qed.

Lemma remaining_readerAt data w :
  remaining (readerAt data w) = skipn (Z.to_nat (cursor w)) (bitsOfBytes data).
Proof.
  unfold remaining, readerAt, rcursor; cbn [rPos rBit rBufferLen rBuffer].
  rewrite Nat2Z.id, firstn_all. reflexivity.
Qed.

Lemma carries_prefix data w w' bits :
  streamBits w' = streamBits w ++ bits -> carries data w' -> carries data w.
Proof.
  intros E [rest Hr]. exists (bits ++ rest). now rewrite Hr, E, <- app_assoc.
Qed.

Lemma remaining_carried data w w' bits :
  valid w -> streamBits w' = streamBits w ++ bits -> carries data w' ->
  exists rest, remaining (readerAt data w) = bits ++ rest.
Proof.
  intros Hv E [rest Hr]. exists rest.
  rewrite remaining_readerAt, Hr, E, <- app_assoc.
  rewrite skipn_app. rewrite <- (streamBits_length w Hv), Nat2Z.id, Nat.sub_diag.
  rewrite skipn_all. reflexivity.
Qed.

(** Reading back what [writeBitsLoop] wrote. *)
Lemma readBitsLoop_writeBitsLoop data w V Nbits :
  valid w -> 0 <= Nbits -> room Nbits w ->
  let w' := writeBitsLoop (Z.to_nat Nbits) V Nbits w in
  carries data w' ->
  readBitsLoop (Z.to_nat Nbits) Nbits (readerAt data w)
  = (V mod 2 ^ Nbits, readerAt data w').
Proof.
  intros Hv HN Hroom w' Hc.
  destruct (writeBitsLoop_spec (Z.to_nat Nbits) V Nbits w Hv HN (Nat.le_refl _) Hroom)
    as (Hv' & Hs & Hcur & _ & _). fold w' in Hv', Hs, Hcur.
  destruct (remaining_carried data w w' _ Hv Hs Hc) as [rest Hrem].
  rewrite readBitsLoop_spec; try lia.
  - f_equal.
    + rewrite Hrem, firstn_app, bitsLE_length, Nat.sub_diag.
      rewrite firstn_all2 by (rewrite bitsLE_length; lia).
      cbn [firstn]. rewrite app_nil_r, bitsVal_bitsLE, Z2Nat.id by lia. reflexivity.
    + replace Nbits with (cursor w' - cursor w) at 1 by lia.
      now apply readerAt_seek.
  - now apply validR_readerAt.
  - rewrite Hrem, length_app, bitsLE_length. lia.
Qed.

Lemma mod_mod_pow a m n : 0 <= m <= n -> (a mod 2 ^ n) mod 2 ^ m = a mod 2 ^ m.
Proof.
  intros H. replace n with (m + (n - m)) by lia.
  rewrite Z.pow_add_r by lia.
  rewrite Z.rem_mul_r by (apply Z.pow_nonzero || apply Z.pow_pos_nonneg; lia).
  rewrite Z.mul_comm, Z.mod_add by (apply Z.pow_nonzero; lia).
  apply Z.mod_mod. apply Z.pow_nonzero; lia.
Qed.

Lemma writeBits32_spec V Nbits w :
  valid w -> 0 <= Nbits -> room Nbits w ->
  let w' := writeBits32 V Nbits w in
  valid w' /\ streamBits w' = streamBits w ++ bitsLE (Z.to_nat Nbits) (to_unsigned 32 V)
  /\ cursor w' = cursor w + Nbits
  /\ length (wBuffer w') = length (wBuffer w) /\ wSink w' = wSink w.
Proof. intros. now apply writeBitsLoop_spec. Qed.

Lemma readBits32_writeBits32 data w V Nbits :
  valid w -> 0 <= Nbits <= 32 -> room Nbits w ->
  carries data (writeBits32 V Nbits w) ->
  readBits32 Nbits (readerAt data w)
  = (V mod 2 ^ Nbits, readerAt data (writeBits32 V Nbits w)).
Proof.
  intros Hv HN Hroom Hc. unfold readBits32, writeBits32 in *.
  rewrite (readBitsLoop_writeBitsLoop data w (to_unsigned 32 V) Nbits Hv);
    [|lia|assumption|assumption].
  unfold to_unsigned. rewrite (mod_mod_pow V Nbits 32) by lia.
  f_equal. apply Z.mod_small.
  pose proof (Z.mod_pos_bound V (2 ^ Nbits) ltac:(apply Z.pow_pos_nonneg; lia)).
  pose proof (Z.pow_le_mono_r 2 Nbits 32 ltac:(lia) ltac:(lia)). lia.
Qed.

Lemma readBits64_writeBits64 data w V Nbits :
  valid w -> 0 <= Nbits <= 64 -> room Nbits w ->
  carries data (writeBits64 V Nbits w) ->
  readBits64 Nbits (readerAt data w)
  = (V mod 2 ^ Nbits, readerAt data (writeBits64 V Nbits w)).
Proof.
  intros Hv HN Hroom Hc. unfold readBits64, writeBits64 in *.
  rewrite (readBitsLoop_writeBitsLoop data w (to_unsigned 64 V) Nbits Hv);
    [|lia|assumption|assumption].
  unfold to_unsigned. rewrite (mod_mod_pow V Nbits 64) by lia.
  f_equal. apply Z.mod_small.
  pose proof (Z.mod_pos_bound V (2 ^ Nbits) ltac:(apply Z.pow_pos_nonneg; lia)).
  pose proof (Z.pow_le_mono_r 2 Nbits 64 ltac:(lia) ltac:(lia)). lia.
Qed.

Lemma land127 V : Z.land V 127 = V mod 128.
Proof. change 127 with (Z.ones 7). now rewrite Z.land_ones by lia. Qed.

Lemma to_unsigned_small n V : 0 <= V < 2 ^ n -> to_unsigned n V = V.
Proof. intros. unfold to_unsigned. now apply Z.mod_small. Qed.

Lemma writeVbrLoop_spec g : forall V w,
  valid w -> room (8 * Z.of_nat g) w ->
  let w' := writeVbrLoop g V w in
  valid w'
  /\ streamBits w' = streamBits w ++ flat_map groupBits (vbrGroups g V)
  /\ cursor w' = cursor w + 8 * Z.of_nat (length (vbrGroups g V))
  /\ length (wBuffer w') = length (wBuffer w) /\ wSink w' = wSink w.
Proof.
  induction g as [|g IH]; intros V w Hv Hroom; cbn [writeVbrLoop vbrGroups].
  - cbn [flat_map length]. rewrite app_nil_r.
    split; [|split; [|split; [|split]]]; auto; lia.
  - set (V2 := Z.shiftr V 7). set (more := negb (V2 =? 0)).
    destruct (writeBits32_spec (Z.b2z more) 1 w Hv) as (Hv1 & Hs1 & Hc1 & Hl1 & Hk1);
      [lia | unfold room in *; lia |].
    set (w1 := writeBits32 (Z.b2z more) 1 w) in *.
    destruct (writeBits32_spec (Z.land V 127) 7 w1 Hv1) as (Hv2 & Hs2 & Hc2 & Hl2 & Hk2);
      [lia | unfold room in *; lia |].
    set (w2 := writeBits32 (Z.land V 127) 7 w1) in *.
    assert (Hb1 : bitsLE (Z.to_nat 1) (to_unsigned 32 (Z.b2z more)) = [more]).
    { rewrite to_unsigned_small by (destruct more; cbn; lia).
      change (Z.to_nat 1) with 1%nat. unfold bitsLE. cbn [seq map Z.of_nat].
      now rewrite Z.b2z_bit0. }
    assert (Hb7 : bitsLE (Z.to_nat 7) (to_unsigned 32 (Z.land V 127)) = bitsLE 7 (Z.land V 127)).
    { rewrite to_unsigned_small; [reflexivity|].
      rewrite land127. pose proof (Z.mod_pos_bound V 128). lia. }
    assert (Hs12 : streamBits w2 = streamBits w ++ groupBits (more, Z.land V 127)).
    { rewrite Hs2, Hs1, Hb1, Hb7, <- app_assoc. reflexivity. }
    cbv zeta. fold V2. fold more. fold w1. fold w2.
    destruct more.
    + destruct (IH V2 w2 Hv2) as (Hv3 & Hs3 & Hc3 & Hl3 & Hk3).
      { unfold room in *. rewrite Hc2, Hc1, Hl2, Hl1. lia. }
      split; [exact Hv3|]. split; [|split; [|split]].
      * etransitivity; [exact Hs3|]. rewrite Hs12, <- app_assoc. reflexivity.
      * cbn [length]. lia.
      * congruence.
      * congruence.
    + split; [exact Hv2|]. split; [|split; [|split]].
      * etransitivity; [exact Hs12|]. cbn [flat_map]. now rewrite app_nil_r.
      * cbn [length]. lia.
      * congruence.
      * congruence.
Qed.

Lemma vbrGroups_length g V : (length (vbrGroups g V) <= g)%nat.
Proof.
  revert V. induction g as [|g IH]; intros V; cbn [vbrGroups length]; [lia|].
  destruct (negb _); cbn [length]; [specialize (IH (Z.shiftr V 7))|]; lia.
Qed.

Lemma shiftr7_bound g V :
  0 <= V < 2 ^ (7 * Z.of_nat (S g)) -> 0 <= Z.shiftr V 7 < 2 ^ (7 * Z.of_nat g).
Proof.
  intros HV. rewrite Z.shiftr_div_pow2 by lia. split.
  - apply Z.div_pos; lia.
  - apply Z.div_lt_upper_bound; [lia|]. rewrite <- Z.pow_add_r by lia.
    replace (7 + 7 * Z.of_nat g) with (7 * Z.of_nat (S g)) by lia. lia.
Qed.

Lemma split128 V : V = V mod 128 + 128 * Z.shiftr V 7.
Proof.
  rewrite Z.shiftr_div_pow2 by lia. change (2 ^ 7) with 128.
  pose proof (Z.div_mod V 128). lia.
Qed.

(** The groups are the base-128 digits of [V], least significant first; all
    flags but the last say "more". *)
Lemma vbrGroups_digits g : forall V,
  0 <= V < 2 ^ (7 * Z.of_nat (S g)) ->
  groupsValue (map snd (vbrGroups (S g) V)) = V
  /\ Forall (fun d => 0 <= d < 128) (map snd (vbrGroups (S g) V))
  /\ map fst (vbrGroups (S g) V)
     = repeat true (length (vbrGroups (S g) V) - 1) ++ [false].
Proof.
  induction g as [|g IH]; intros V HV.
  - assert (E : Z.shiftr V 7 = 0).
    { pose proof (shiftr7_bound 0 V HV) as H.
      change (2 ^ (7 * Z.of_nat 0)) with 1 in H. lia. }
    cbn [vbrGroups]. rewrite E. cbn [Z.eqb negb map snd fst groupsValue length Nat.sub repeat app].
    rewrite land127. pose proof (split128 V) as HS. rewrite E in HS.
    pose proof (Z.mod_pos_bound V 128).
    split; [lia|]. split; [|reflexivity]. constructor; [lia|constructor].
  - pose proof (shiftr7_bound (S g) V HV) as H2.
    specialize (IH _ H2). destruct IH as (IH1 & IH2 & IH3).
    remember (S g) as g1. cbn [vbrGroups].
    pose proof (Z.mod_pos_bound V 128) as Hm.
    destruct (Z.eqb_spec (Z.shiftr V 7) 0) as [E|E]; cbn [negb].
    + cbn [map snd fst groupsValue length Nat.sub repeat app].
      rewrite land127. pose proof (split128 V) as HS. rewrite E in HS.
      split; [lia|]. split; [|reflexivity]. constructor; [lia|constructor].
    + cbn [map snd fst groupsValue length]. rewrite land127, IH1.
      split; [pose proof (split128 V); lia|].
      split; [constructor; [lia|assumption]|].
      rewrite IH3. 
      assert (Hl : (1 <= length (vbrGroups g1 (Z.shiftr V 7)))%nat).
      { subst g1. cbn [vbrGroups length]. lia. }
      replace (S (length (vbrGroups g1 (Z.shiftr V 7))) - 1)%nat
        with (S (length (vbrGroups g1 (Z.shiftr V 7)) - 1)) by lia.
      reflexivity.
Qed.

Lemma readVbrLoop_writeVbrLoop data g : forall V w shift,
  0 <= V < 2 ^ (7 * Z.of_nat (S g)) -> 0 <= shift ->
  valid w -> room (8 * Z.of_nat (S g)) w ->
  carries data (writeVbrLoop (S g) V w) ->
  readVbrLoop (S g) shift (readerAt data w)
  = (Z.shiftl V shift, readerAt data (writeVbrLoop (S g) V w)).
Proof.
  induction g as [|g IH]; intros V w shift HV Hsh Hv Hroom Hc.
  - assert (E : Z.shiftr V 7 = 0).
    { pose proof (shiftr7_bound 0 V HV) as H.
      change (2 ^ (7 * Z.of_nat 0)) with 1 in H. lia. }
    cbn [writeVbrLoop readVbrLoop] in *. rewrite E in *. cbn [Z.eqb negb Z.b2z] in *.
    destruct (writeBits32_spec 0 1 w Hv) as (Hv1 & Hs1 & Hc1 & Hl1 & _);
      [lia | unfold room in *; lia |].
    set (w1 := writeBits32 0 1 w) in *.
    destruct (writeBits32_spec (Z.land V 127) 7 w1 Hv1) as (Hv2 & Hs2 & Hc2 & Hl2 & _);
      [lia | unfold room in *; lia |].
    rewrite (readBits32_writeBits32 data w 0 1); auto; try lia;
      [| unfold room in *; lia | eapply carries_prefix; eauto ].
    fold w1. change (0 mod 2 ^ 1) with 0.
    rewrite (readBits32_writeBits32 data w1 (Z.land V 127) 7); auto; try lia;
      [| unfold room in *; lia ].
    cbn [Z.eqb]. do 2 f_equal.
    rewrite land127. change (2 ^ 7) with 128. rewrite Z.mod_mod by lia.
    pose proof (split128 V) as HS. rewrite E in HS. lia.
  - pose proof (shiftr7_bound (S g) V HV) as H2.
    remember (S g) as g1.
    cbn [writeVbrLoop readVbrLoop] in *.
    set (V2 := Z.shiftr V 7) in *. set (more := negb (V2 =? 0)) in *.
    destruct (writeBits32_spec (Z.b2z more) 1 w Hv) as (Hv1 & Hs1 & Hc1 & Hl1 & _);
      [lia | unfold room in *; lia |].
    set (w1 := writeBits32 (Z.b2z more) 1 w) in *.
    destruct (writeBits32_spec (Z.land V 127) 7 w1 Hv1) as (Hv2 & Hs2 & Hc2 & Hl2 & _);
      [lia | unfold room in *; lia |].
    set (w2 := writeBits32 (Z.land V 127) 7 w1) in *.
    assert (Hroom2 : room (8 * Z.of_nat g1) w2).
    { unfold room in *. rewrite Hc2, Hc1, Hl2, Hl1. lia. }
    assert (Hc2' : carries data w2).
    { destruct more; [|assumption].
      destruct (writeVbrLoop_spec g1 V2 w2 Hv2 Hroom2) as (_ & Hs3 & _).
      eapply carries_prefix; eauto. }
    rewrite (readBits32_writeBits32 data w (Z.b2z more) 1); auto; try lia;
      [| unfold room in *; lia | eapply carries_prefix; eauto ].
    fold w1.
    rewrite (readBits32_writeBits32 data w1 (Z.land V 127) 7); auto; try lia;
      [| unfold room in *; lia ].
    fold w2.
    assert (Hg : Z.land V 127 mod 2 ^ 7 = V mod 128).
    { rewrite land127. change (2 ^ 7) with 128. now rewrite Z.mod_mod by lia. }
    rewrite Hg.
    pose proof (Z.mod_pos_bound V 128 ltac:(lia)) as Hm.
    destruct more eqn:Em; cbn [Z.b2z].
    + change (1 mod 2 ^ 1 =? 0) with false. cbv iota.
      subst g1. rewrite (IH V2 w2 (shift + 7)); auto; try lia.
      f_equal.
      replace (shift + 7) with (7 + shift) by lia.
      rewrite <- (Z.shiftl_shiftl V2 7 shift) by lia.
      rewrite <- Z.shiftl_lor. f_equal.
      rewrite lor_shiftl_add by (change (2 ^ 7) with 128; lia).
      change (2 ^ 7) with 128. pose proof (split128 V). fold V2 in H. lia.
    + change (0 mod 2 ^ 1 =? 0) with true. cbv iota. do 2 f_equal.
      assert (V2 = 0).
      { unfold more in Em. destruct (Z.eqb_spec V2 0); [assumption|discriminate]. }
      pose proof (split128 V). fold V2 in H0. lia.
Qed.

Lemma readBitsLoop_bound fuel : forall Nbits r,
  validR r -> 0 <= Nbits ->
  let r' := snd (readBitsLoop fuel Nbits r) in
  validR r' /\ rcursor r <= rcursor r' <= rcursor r + Nbits
  /\ (rError r = true -> rError r' = true).
Proof.
  induction fuel as [|fuel IH]; intros Nbits r Hv HN; cbn [readBitsLoop].
  - cbn [snd]. split; [assumption|]. split; [lia|auto].
  - destruct (Z.leb_spec Nbits 0) as [Hz|Hpos].
    { cbn [snd]. split; [assumption|]. split; [lia|auto]. }
    destruct (Z.leb_spec (rBufferLen r) (rPos r)) as [Hbad|Hlt].
    { cbn [snd]. split; [destruct Hv; constructor; assumption|].
      split; [unfold rcursor; cbn [setError rPos rBit]; lia|reflexivity]. }
    set (k := Z.min Nbits (8 - rBit r)).
    pose proof (validR_bit r Hv) as Hb. pose proof (validR_pos r Hv) as Hp.
    assert (Hk : 1 <= k <= 8 - rBit r) by (unfold k; lia).
    assert (Hkn : k <= Nbits) by (unfold k; lia).
    assert (Hc0 : 0 <= rcursor r) by (unfold rcursor; lia).
    rewrite (readChunk_spec k r Hv Hk Hlt).
    assert (Hvs : validR (seek (rcursor r + k) r)) by (apply validR_seek; [assumption|lia]).
    assert (HNk : 0 <= Nbits - k) by lia.
    specialize (IH (Nbits - k) (seek (rcursor r + k) r) Hvs HNk).
    destruct (readBitsLoop fuel (Nbits - k) (seek (rcursor r + k) r)) as [hi r2].
    cbn [snd] in *. rewrite rcursor_seek in IH by lia.
    destruct IH as (H1 & H2 & H3).
    split; [assumption|]. split; [lia|]. intros E. apply H3. exact E.
Qed.

Lemma readBits32_bound Nbits r :
  validR r -> 0 <= Nbits ->
  let r' := snd (readBits32 Nbits r) in
  validR r' /\ rcursor r <= rcursor r' <= rcursor r + Nbits
  /\ (rError r = true -> rError r' = true).
Proof.
  intros Hv HN. unfold readBits32.
  pose proof (readBitsLoop_bound (Z.to_nat Nbits) Nbits r Hv HN) as H.
  destruct (readBitsLoop (Z.to_nat Nbits) Nbits r). exact H.
Qed.

Lemma readVbrLoop_bound g : forall shift r,
  validR r ->
  let r' := snd (readVbrLoop g shift r) in
  validR r' /\ rcursor r <= rcursor r' <= rcursor r + 8 * Z.of_nat g
  /\ (rError r = true -> rError r' = true).
Proof.
  induction g as [|g IH]; intros shift r Hv; cbn [readVbrLoop].
  - cbn [snd]. split; [destruct Hv; constructor; assumption|].
    split; [unfold rcursor; cbn [setError rPos rBit]; lia|reflexivity].
  - pose proof (readBits32_bound 1 r Hv ltac:(lia)) as H1.
    destruct (readBits32 1 r) as [more r1]. cbn [snd] in H1.
    destruct H1 as (Hv1 & Hc1 & He1).
    pose proof (readBits32_bound 7 r1 Hv1 ltac:(lia)) as H2.
    destruct (readBits32 7 r1) as [grp r2]. cbn [snd] in H2.
    destruct H2 as (Hv2 & Hc2 & He2).
    destruct (more =? 0).
    + cbn [snd]. split; [assumption|]. split; [lia|auto].
    + specialize (IH (shift + 7) r2 Hv2).
      destruct (readVbrLoop g (shift + 7) r2) as [hi r3]. cbn [snd] in *.
      destruct IH as (Hv3 & Hc3 & He3).
      split; [assumption|]. split; [lia|auto].
Qed.

Lemma readVbrLoop_overrun g : forall shift r,
  continues g r -> rError (snd (readVbrLoop g shift r)) = true.
Proof.
  induction g as [|g IH]; intros shift r Hc; cbn [readVbrLoop continues] in *.
  - reflexivity.
  - destruct Hc as [Hm Hc].
    destruct (readBits32 1 r) as [more r1]. cbn [fst snd] in *.
    destruct (readBits32 7 r1) as [grp r2]. cbn [snd] in *.
    destruct (Z.eqb_spec more 0) as [E|_]; [contradiction|].
    specialize (IH (shift + 7) r2 Hc).
    destruct (readVbrLoop g (shift + 7) r2). exact IH.
Qed.

(** ** The VBR codec *)

(** What [w'] holds after the VBR encoding of [V] was written at [w]: the
    groups follow one another, each as its flag and its 7 bits; there are
    at most [g] of them; read as base-128 digits, least significant
    first, they spell [V]; every flag but the last is set. *)
Definition vbrEncoded (g : nat) (V : Z) (w w' : ByteStreamWriter) : Prop :=
  let gs := vbrGroups g V in
  streamBits w' = streamBits w ++ flat_map groupBits gs
  /\ (1 <= length gs <= g)%nat
  /\ groupsValue (map snd gs) = V
  /\ Forall (fun d => 0 <= d < 128) (map snd gs)
  /\ map fst gs = repeat true (length gs - 1) ++ [false].

(** The decoder reads at most [g] groups, and a chain of [g] groups that
    all ask for more ends in the error state. *)
Definition vbrLimit (g : nat) (r r' : ByteStreamReader) : Prop :=
  rcursor r <= rcursor r' <= rcursor r + 8 * Z.of_nat g
  /\ (continues g r -> rError r' = true)
  /\ (rError r = true -> rError r' = true).

Lemma vbrEncoded_intro g V w :
  valid w -> room (8 * Z.of_nat (S g)) w -> 0 <= V < 2 ^ (7 * Z.of_nat (S g)) ->
  vbrEncoded (S g) V w (writeVbrLoop (S g) V w).
Proof.
  intros Hv Hr HV.
  destruct (writeVbrLoop_spec (S g) V w Hv Hr) as (_ & Hs & _).
  destruct (vbrGroups_digits g V HV) as (Hd1 & Hd2 & Hd3).
  unfold vbrEncoded. cbv zeta. split; [exact Hs|]. split; [|auto].
  split; [cbn [vbrGroups length]; lia | apply vbrGroups_length].
Qed.

Lemma vbrLimit_intro g shift r :
  validR r -> vbrLimit g r (snd (readVbrLoop g shift r)).
Proof.
  intros Hv. destruct (readVbrLoop_bound g shift r Hv) as (_ & Hc & He).
  split; [exact Hc|]. split; [apply readVbrLoop_overrun|exact He].
Qed.

Lemma readUInt32_Vbr_writeUInt32_Vbr data w V :
  valid w -> room 40 w -> 0 <= V < 2 ^ 32 ->
  carries data (writeUInt32_Vbr V w) ->
  readUInt32_Vbr (readerAt data w) = (V, readerAt data (writeUInt32_Vbr V w)).
Proof.
  intros Hv Hr HV Hc. unfold readUInt32_Vbr, writeUInt32_Vbr in *.
  rewrite (to_unsigned_small 32 V) in * by exact HV.
  assert (HV' : 0 <= V < 2 ^ (7 * Z.of_nat 5)).
  { change (2 ^ (7 * Z.of_nat 5)) with (2 ^ 35).
    pose proof (Z.pow_lt_mono_r 2 32 35). lia. }
  rewrite (readVbrLoop_writeVbrLoop data 4 V w 0 HV' (Z.le_refl 0) Hv Hr Hc).
  rewrite Z.shiftl_0_r. now rewrite to_unsigned_small.
Qed.

Lemma readUInt64_Vbr_writeUInt64_Vbr data w V :
  valid w -> room 80 w -> 0 <= V < 2 ^ 64 ->
  carries data (writeUInt64_Vbr V w) ->
  readUInt64_Vbr (readerAt data w) = (V, readerAt data (writeUInt64_Vbr V w)).
Proof.
  intros Hv Hr HV Hc. unfold readUInt64_Vbr, writeUInt64_Vbr in *.
  rewrite (to_unsigned_small 64 V) in * by exact HV.
  assert (HV' : 0 <= V < 2 ^ (7 * Z.of_nat 10)).
  { change (2 ^ (7 * Z.of_nat 10)) with (2 ^ 70).
    pose proof (Z.pow_lt_mono_r 2 64 70). lia. }
  rewrite (readVbrLoop_writeVbrLoop data 9 V w 0 HV' (Z.le_refl 0) Hv Hr Hc).
  rewrite Z.shiftl_0_r. now rewrite to_unsigned_small.
Qed.

(** C2.  Every 32-bit and every 64-bit unsigned value written by the VBR
    encoder is read back by the VBR decoder, which ends where the encoder
    ended.  The encoding is a run of groups, each a continuation flag
    followed by 7 bits, the groups being the base-128 digits of the value
    from the least significant one, every flag but the last set.  The
    encoder emits at most 5 (resp. 10) groups and the decoder reads at
    most 5 (resp. 10): on a longer chain it stops in the error state. *)
Theorem vbr_round_trip
    (w : ByteStreamWriter) (V32 V64 : Z) (d32 d64 : list Z)
    (r : ByteStreamReader) :
  valid w -> room 80 w ->
  0 <= V32 < 2 ^ 32 -> 0 <= V64 < 2 ^ 64 ->
  carries d32 (writeUInt32_Vbr V32 w) ->
  carries d64 (writeUInt64_Vbr V64 w) ->
  validR r ->
  readUInt32_Vbr (readerAt d32 w) = (V32, readerAt d32 (writeUInt32_Vbr V32 w))
  /\ readUInt64_Vbr (readerAt d64 w) = (V64, readerAt d64 (writeUInt64_Vbr V64 w))
  /\ vbrEncoded 5 V32 w (writeUInt32_Vbr V32 w)
  /\ vbrEncoded 10 V64 w (writeUInt64_Vbr V64 w)
  /\ vbrLimit 5 r (snd (readUInt32_Vbr r))
  /\ vbrLimit 10 r (snd (readUInt64_Vbr r)).
Proof.
  intros Hv Hr H32 H64 Hc32 Hc64 HvR.
  assert (Hr40 : room 40 w) by (unfold room in *; lia).
  split; [now apply readUInt32_Vbr_writeUInt32_Vbr|].
  split; [now apply readUInt64_Vbr_writeUInt64_Vbr|].
  split; [|split; [|split]].
  - unfold writeUInt32_Vbr. rewrite to_unsigned_small by exact H32.
    apply vbrEncoded_intro; auto.
    change (2 ^ (7 * Z.of_nat 5)) with (2 ^ 35).
    pose proof (Z.pow_lt_mono_r 2 32 35). lia.
  - unfold writeUInt64_Vbr. rewrite to_unsigned_small by exact H64.
    apply vbrEncoded_intro; auto.
    change (2 ^ (7 * Z.of_nat 10)) with (2 ^ 70).
    pose proof (Z.pow_lt_mono_r 2 64 70). lia.
  - unfold readUInt32_Vbr.
    pose proof (vbrLimit_intro 5 0 r HvR) as L.
    destruct (readVbrLoop 5 0 r). exact L.
  - unfold readUInt64_Vbr.
    pose proof (vbrLimit_intro 10 0 r HvR) as L.
    destruct (readVbrLoop 10 0 r). exact L.
Qed.

(** ** A fresh writer *)

Lemma valid_newWriter : valid newWriter.
Proof.
  constructor; cbn [newWriter wPos wBit wBuffer].
  - rewrite repeat_length. vm_compute. split; discriminate.
  - lia.
  - intros E. now contradiction E.
  - intros E. now contradiction E.
Qed.

Lemma room_newWriter Nbits : Nbits <= 8 * BufferSize -> room Nbits newWriter.
Proof.
  intros HN. unfold room, cursor; cbn [newWriter wPos wBit wBuffer].
  rewrite repeat_length, Z2Nat.id by (vm_compute; discriminate). lia.
Qed.

Lemma firstn_S_nth (l : list Z) p d :
  (p < length l)%nat -> firstn (S p) l = firstn p l ++ [nth p l d].
Proof.
  revert p. induction l as [|x t IH]; intros [|p] Hp; cbn [length] in Hp; try lia.
  - reflexivity.
  - cbn [firstn nth app]. f_equal. apply IH. lia.
Qed.

(** What a writer has put in its buffer is carried by the bytes [flush]
    would hand over. *)
Lemma carries_written w : valid w -> carries (written w) w.
Proof.
  intros [Hp Hb Hin Hc]. unfold carries, written, streamBits.
  destruct (Z.eqb_spec (wBit w) 0) as [E|E].
  - exists []. rewrite E, Z.add_0_r. cbn [Z.to_nat firstn].
    now rewrite !app_nil_r.
  - specialize (Hin E).
    assert (Hlt : (Z.to_nat (wPos w) < length (wBuffer w))%nat) by lia.
    exists (skipn (Z.to_nat (wBit w)) (byteBits (getByte (wBuffer w) (wPos w)))).
    replace (Z.to_nat (wPos w + 1)) with (S (Z.to_nat (wPos w))) by lia.
    rewrite <- app_assoc, firstn_skipn.
    rewrite (firstn_S_nth _ _ 0 Hlt), bitsOfBytes_app.
    cbn [bitsOfBytes flat_map]. now rewrite app_nil_r.
Qed.

Lemma vbr_round_trip_witness :
  let w := newWriter in
  let d32 := written (writeUInt32_Vbr 128 w) in
  let d64 := written (writeUInt64_Vbr (2 ^ 63) w) in
  readUInt32_Vbr (readerAt d32 w) = (128, readerAt d32 (writeUInt32_Vbr 128 w))
  /\ readUInt64_Vbr (readerAt d64 w)
     = (2 ^ 63, readerAt d64 (writeUInt64_Vbr (2 ^ 63) w))
  /\ map snd (vbrGroups 5 128) = [0; 1].
Proof.
  intros w d32 d64.
  destruct (vbr_round_trip w 128 (2 ^ 63) d32 d64 (readerAt d32 w))
    as (H1 & H2 & _).
  - exact valid_newWriter.
  - apply room_newWriter. vm_compute. discriminate.
  - lia.
  - lia.
  - exists []. vm_compute. reflexivity.
  - exists []. vm_compute. reflexivity.
  - apply validR_readerAt. exact valid_newWriter.
  - split; [exact H1|]. split; [exact H2|]. reflexivity.
Defined.

End ByteStream.

(** * The two stream instances *)

(** The bit stream of the specification as an instance of the base
    classes. *)
#[export] Instance BitWriter : ByteStreamWriterBase ByteStream.ByteStreamWriter := {|
  flush := ByteStream.flush;
  endAtom := ByteStream.endAtom;
  writeBits32 := ByteStream.writeBits32;
  writeBits64 := ByteStream.writeBits64;
  writeUInt32_Vbr := ByteStream.writeUInt32_Vbr;
  writeUInt64_Vbr := ByteStream.writeUInt64_Vbr
|}.

#[export] Instance BitReader : ByteStreamReaderBase ByteStream.ByteStreamReader := {|
  readEndAtom := ByteStream.readEndAtom;
  empty := ByteStream.empty;
  readBits32 := ByteStream.readBits32;
  readBits64 := ByteStream.readBits64;
  readUInt32_Vbr := ByteStream.readUInt32_Vbr;
  readUInt64_Vbr := ByteStream.readUInt64_Vbr
|}.

(** The recording stream: the sequence of calls made on the writer, kept
    in order and played back to the reader.  It stands for any stream
    that hands back the fields that were written, atom by atom. *)
Inductive Field : Type :=
  | FBits32 (V Nbits : Z)
  | FBits64 (V Nbits : Z)
  | FVbr32 (V : Z)
  | FVbr64 (V : Z).

Inductive Item : Type :=
  | IField (f : Field)
  | IEndAtom.

(** [flush] moves buffered bytes to the sink and adds nothing to the
    stream. *)
#[export] Instance Recorder : ByteStreamWriterBase (list Item) := {|
  flush := fun log => log;
  endAtom := fun log => log ++ [IEndAtom];
  writeBits32 := fun V Nbits log => log ++ [IField (FBits32 V Nbits)];
  writeBits64 := fun V Nbits log => log ++ [IField (FBits64 V Nbits)];
  writeUInt32_Vbr := fun V log => log ++ [IField (FVbr32 V)];
  writeUInt64_Vbr := fun V log => log ++ [IField (FVbr64 V)]
|}.

(** Playing a record back: a read takes the field at the head when it is
    of the kind and width asked for, and yields the bits the stream
    carries for it ([Nbits] bits of a 32- or 64-bit value); anything else
    reads as 0 and takes nothing. *)
Definition playBits32 (Nbits : Z) (l : list Item) : Z * list Item :=
  match l with
  | IField (FBits32 V N) :: l' =>
      if N =? Nbits then (to_unsigned Nbits (to_unsigned 32 V), l') else (0, l)
  | _ => (0, l)
  end.

Definition playBits64 (Nbits : Z) (l : list Item) : Z * list Item :=
  match l with
  | IField (FBits64 V N) :: l' =>
      if N =? Nbits then (to_unsigned Nbits (to_unsigned 64 V), l') else (0, l)
  | _ => (0, l)
  end.

Definition playVbr32 (l : list Item) : Z * list Item :=
  match l with
  | IField (FVbr32 V) :: l' => (to_unsigned 32 V, l')
  | _ => (0, l)
  end.

Definition playVbr64 (l : list Item) : Z * list Item :=
  match l with
  | IField (FVbr64 V) :: l' => (to_unsigned 64 V, l')
  | _ => (0, l)
  end.

(** The reader's [endAtom]: what is left of the current atom is passed
    over, through its end mark. *)
Fixpoint playEndAtom (l : list Item) : list Item :=
  match l with
  | [] => []
  | IEndAtom :: l' => l'
  | IField _ :: l' => playEndAtom l'
  end.

Definition playEmpty (l : list Item) : bool :=
  match l with
  | [] => true
  | _ => false
  end.

#[export] Instance Playback : ByteStreamReaderBase (list Item) := {|
  readEndAtom := playEndAtom;
  empty := playEmpty;
  readBits32 := playBits32;
  readBits64 := playBits64;
  readUInt32_Vbr := playVbr32;
  readUInt64_Vbr := playVbr64
|}.

(** * Expressions, annotations and the traversal *)

#[local] Set Warnings "-register-all".


(** The IR is declared in [TIL.h] and [Annotation.h].
    Modelled from the spec: a node as the codec sees it (section 4.D): an
    opcode, the scalar fields its [reduce] method writes after the opcode
    (kept as the calls it makes on the writer), its child arguments and
    its annotations.  An annotation is its kind, the payload its
    [serialize] method writes, and the sub-expressions its [traverse]
    method visits ([AnnotationImpl.h]: none for [InstrNameAnnot] and
    [SourceLocAnnot], [Condition] for [PreconditionAnnot], [ExpA], [ExpB],
    [ExpC] for [TestTripletAnnot]). *)
Inductive SExpr : Type :=
  | Node (Op : Z) (Scalars : list Field) (Args : list SExpr)
         (Annots : list Annotation)
with Annotation : Type :=
  | Annot (Kind : Z) (Payload : list Field) (SubExprs : list SExpr).

Definition opcode (E : SExpr) : Z := match E with Node Op _ _ _ => Op end.
Definition scalars (E : SExpr) : list Field := match E with Node _ Sc _ _ => Sc end.
Definition args (E : SExpr) : list SExpr := match E with Node _ _ As _ => As end.

(** [E->annotations()] and the [next()] links, as a list. *)
Definition annotations (E : SExpr) : list Annotation :=
  match E with Node _ _ _ Ans => Ans end.

(** [A->kind()]. *)
Definition kind (A : Annotation) : Z := match A with Annot K _ _ => K end.
Definition payload (A : Annotation) : list Field := match A with Annot _ P _ => P end.
Definition subExprs (A : Annotation) : list SExpr := match A with Annot _ _ Ss => Ss end.

(** [E->addAnnotation(A)] of the builder side ([TIL.h]).
    Modelled from the spec: the annotation joins the end of the node's
    list (section 8, property 6). *)
Definition addAnnotation (A : Annotation) (E : SExpr) : SExpr :=
  match E with Node Op Sc As Ans => Node Op Sc As (Ans ++ [A]) end.

Section Traversal.
Context {W : Type} {WB : ByteStreamWriterBase W}.

(** One recorded call, made again on a writer. *)
Definition writeField (w : W) (f : Field) : W :=
  match f with
  | FBits32 V Nbits => writeBits32 V Nbits w
  | FBits64 V Nbits => writeBits64 V Nbits w
  | FVbr32 V => writeUInt32_Vbr V w
  | FVbr64 V => writeUInt64_Vbr V w
  end.

(** Modelled from the spec: a [reduce] method (section 4.D, step 2): "the
    opcode (pseudo or real; 6 bits), any scalar fields specific to that
    node, no child payload". *)
Definition reduce (E : SExpr) (w : W) : W :=
  fold_left writeField (scalars E) (writeOpcode (opcode E) w).

(** Modelled from the spec: [A->serialize(this)], defined outside the
    header: the annotation's payload. *)
Definition serialize (A : Annotation) (w : W) : W :=
  fold_left writeField (payload A) w.

(** [template <class T> void reduceAnnotationT(T *A) {
       writePseudoOpcode(PSOP_Annotation);
       writeFlag(A->kind());
       A->serialize(this);
     }] *)
Definition reduceAnnotationT (A : Annotation) (w : W) : W :=
  let w1 := writePseudoOpcode PSOP_Annotation w in
  let w2 := writeFlag F_TIL_AnnKind (kind A) w1 in
  serialize A w2.

(** Modelled from the spec: [SuperTv::traverse] of the base traversal
    ([TILTraverse.h]), section 4.D, steps 1 and 2: the children through
    the traversal of the derived class ([self]), then the node's [reduce]
    method.  [traverseAllAnnotations] is overridden to do nothing, so the
    base traversal leaves the annotations alone.  The [TraversalKind]
    argument, which [BytecodeWriter] passes on untouched, is left out. *)
Definition SuperTv_traverse (self : SExpr -> W -> W) (E : SExpr) (w : W) : W :=
  reduce E (fold_left (fun w0 a => self a w0) (args E) w).

(** [Annotation::traverse] ([AnnotationImpl.h]): [traverseArg] on each
    sub-expression, then [reduceAnnotationT]; [traverseArg] comes back to
    the traversal of the derived class. *)
Definition Annotation_traverse (self : SExpr -> W -> W) (A : Annotation) (w : W) : W :=
  reduceAnnotationT A (fold_left (fun w0 e => self e w0) (subExprs A) w).

(** [template<class T> void traverse(T *E, TraversalKind K) {
       SuperTv::traverse(E, K);
       Writer->endAtom();
       Annotation* A = E->annotations();
       while (A) {
         self()->traverseAnnotation(A);
         Writer->endAtom();
         A = A->next();
       }
     }] *)
Fixpoint traverse (E : SExpr) (w : W) {struct E} : W :=
  let w1 := SuperTv_traverse traverse E w in
  let w2 := endAtom w1 in
  fold_left (fun w0 A => endAtom (traverseAnnotation A w0)) (annotations E) w2
with traverseAnnotation (A : Annotation) (w : W) {struct A} : W :=
  Annotation_traverse traverse A w.

(** [void write(SExpr* E) { traverseAll(E); Writer->flush(); }] *)
Definition write (E : SExpr) (w : W) : W := flush (traverse E w).

End Traversal.

(** * [BytecodeReader] *)

(** The reader's state: [Reader], [Success], the three counters, [Stack],
    [Vars], [Blocks] and [Instrs] of the header; [Cerr] is what [fail]
    has printed on [std::cerr].  The builder is not kept: nodes are built
    as values.  A [VarDecl], a [BasicBlock] and an [Instruction] are
    [SExpr]s; [None] is the null pointer. *)
Record BytecodeReader (R : Type) : Type := mkBytecodeReader {
  Reader : R;
  Success : bool;
  Cerr : list string;
  CurrentInstrID : Z;
  CurrentArg : Z;
  CFGStackSize : Z;
  Stack : list SExpr;
  Vars : list (option SExpr);
  Blocks : list (option SExpr);
  Instrs : list (option SExpr)
}.
Arguments mkBytecodeReader {R} _ _ _ _ _ _ _ _ _ _.
Arguments Reader {R} _.
Arguments Success {R} _.
Arguments Cerr {R} _.
Arguments CurrentInstrID {R} _.
Arguments CurrentArg {R} _.
Arguments CFGStackSize {R} _.
Arguments Stack {R} _.
Arguments Vars {R} _.
Arguments Blocks {R} _.
Arguments Instrs {R} _.

Section BytecodeReaderState.
Context {R : Type}.

(** [BytecodeReader(CFGBuilder& B, ByteStreamReaderBase* R)
      : Builder(B), Reader(R), Success(true),
        CurrentInstrID(0), CurrentArg(0), CFGStackSize(0) {
      Vars.push_back(nullptr);  // indices start at 1.
    }] *)
Definition newBytecodeReader (r : R) : BytecodeReader R :=
  {| Reader := r; Success := true; Cerr := [];
     CurrentInstrID := 0; CurrentArg := 0; CFGStackSize := 0;
     Stack := []; Vars := [None]; Blocks := []; Instrs := [] |}.

Definition setReader (r : R) (st : BytecodeReader R) : BytecodeReader R :=
  {| Reader := r; Success := Success st; Cerr := Cerr st;
     CurrentInstrID := CurrentInstrID st; CurrentArg := CurrentArg st;
     CFGStackSize := CFGStackSize st;
     Stack := Stack st; Vars := Vars st; Blocks := Blocks st;
     Instrs := Instrs st |}.

Definition setStack (s : list SExpr) (st : BytecodeReader R) : BytecodeReader R :=
  {| Reader := Reader st; Success := Success st; Cerr := Cerr st;
     CurrentInstrID := CurrentInstrID st; CurrentArg := CurrentArg st;
     CFGStackSize := CFGStackSize st;
     Stack := s; Vars := Vars st; Blocks := Blocks st; Instrs := Instrs st |}.

Definition setVars (v : list (option SExpr)) (st : BytecodeReader R)
  : BytecodeReader R :=
  {| Reader := Reader st; Success := Success st; Cerr := Cerr st;
     CurrentInstrID := CurrentInstrID st; CurrentArg := CurrentArg st;
     CFGStackSize := CFGStackSize st;
     Stack := Stack st; Vars := v; Blocks := Blocks st; Instrs := Instrs st |}.

(** [void fail(const char* Msg) { std::cerr << Msg << "\n"; Success = false; }] *)
Definition fail (Msg : string) (st : BytecodeReader R) : BytecodeReader R :=
  {| Reader := Reader st; Success := false; Cerr := Cerr st ++ [Msg];
     CurrentInstrID := CurrentInstrID st; CurrentArg := CurrentArg st;
     CFGStackSize := CFGStackSize st;
     Stack := Stack st; Vars := Vars st; Blocks := Blocks st;
     Instrs := Instrs st |}.

(** [bool success() { return Success; }] *)
Definition success (st : BytecodeReader R) : bool := Success st.

(** [SExpr *arg(int i)]: [Stack[Stack.size()-1 - i]], under the assertion
    that [i] is in range ([None] when it fails). *)
Definition arg (i : nat) (st : BytecodeReader R) : option SExpr :=
  if (i <? length (Stack st))%nat
  then nth_error (Stack st) (length (Stack st) - 1 - i)
  else None.

(** [void push(SExpr* E) { Stack.push_back(E); }] *)
Definition push (E : SExpr) (st : BytecodeReader R) : BytecodeReader R :=
  setStack (Stack st ++ [E]) st.

(** [void drop(int n) { Stack.resize(Stack.size() - n); }] (the callers
    keep [n] within the stack). *)
Definition drop (n : nat) (st : BytecodeReader R) : BytecodeReader R :=
  setStack (firstn (length (Stack st) - n) (Stack st)) st.

(** [ArrayRef<SExpr*> lastArgs(unsigned n)]: the [n] topmost entries, the
    oldest first. *)
Definition lastArgs (n : nat) (st : BytecodeReader R) : list SExpr :=
  skipn (length (Stack st) - n) (Stack st).

(** ** The symbol table of variables *)

(** Modelled from the spec: [enterScope], [exitScope] and [getVarDecl],
    declared in the header and defined elsewhere (sections 4.E and 4.F):
    "EnterScope allocates a new VarDecl in the symbol table; ExitScope
    pops the innermost scope"; an [ExitScope] with no scope open is a
    pseudo-opcode out of context and "lookup by out-of-range index is a
    fatal error". *)
Definition enterScope (Vd : SExpr) (st : BytecodeReader R) : BytecodeReader R :=
  setVars (Vars st ++ [Some Vd]) st.

Definition exitScope (st : BytecodeReader R) : BytecodeReader R :=
  if (length (Vars st) <=? 1)%nat
  then fail "ExitScope outside of a scope." st
  else setVars (removelast (Vars st)) st.

Definition getVarDecl (Vidx : Z) (st : BytecodeReader R)
  : option SExpr * BytecodeReader R :=
  let i := Z.to_nat (to_unsigned 32 Vidx) in
  match nth_error (Vars st) i with
  | Some Vd => (Vd, st)
  | None => (None, fail "Invalid variable index." st)
  end.

(** What the stream can ask of the table of variables. *)
Inductive ScopeOp : Type :=
  | SEnterScope (Vd : SExpr)
  | SExitScope
  | SGetVarDecl (Vidx : Z).

Definition scopeStep (st : BytecodeReader R) (op : ScopeOp) : BytecodeReader R :=
  match op with
  | SEnterScope Vd => enterScope Vd st
  | SExitScope => exitScope st
  | SGetVarDecl Vidx => snd (getVarDecl Vidx st)
  end.

End BytecodeReaderState.

(** ** The driver *)

Section Driver.
Context {R : Type} {RB : ByteStreamReaderBase R}.

(** What the header leaves to other files and the specification to the
    IR: the opcodes the reader knows, the number of operands of an opcode
    and of sub-expressions of an annotation kind ("a node's operand
    count is determined statically by its opcode"), the readers of the
    scalar fields of a node and of the payload of an annotation, and the
    readers of the markers other than [PSOP_Annotation] ([readNull],
    [readWeak], [enterScope], ...). *)
Variable knownOpcode : Z -> bool.
Variable arity : Z -> nat.
Variable annArity : Z -> nat.
Variable readScalars : Z -> R -> list Field * R.
Variable readPayload : Z -> R -> list Field * R.
Variable readMarker : Z -> BytecodeReader R -> BytecodeReader R.

(** Modelled from the spec: the sticky [Error] flag of the stream
    (section 4.B: "any attempt to read past end-of-stream, a VBR
    continuation chain exceeding the permitted group count ... sets a
    sticky Error flag; the driver reports failure and aborts decoding of
    the root").  The header keeps the flag private and declares no
    accessor for it. *)
Variable streamError : R -> bool.

(** Modelled from the spec: [readSExprByType], declared in the header
    (section 4.E): the per-opcode reader "(a) reads the node's scalar
    fields, (b) pops its operands from the top of the value stack (the
    arity is determined by the opcode), (c) asks the builder to construct
    the node, (d) pushes the new node onto the stack"; too few operands
    is a fatal error (section 7, operand underflow). *)
Definition readSExprByType (Op : Z) (st : BytecodeReader R) : BytecodeReader R :=
  let '(Sc, r) := readScalars Op (Reader st) in
  let st1 := setReader r st in
  let n := arity Op in
  if (length (Stack st1) <? n)%nat
  then fail "Too few arguments on the stack." st1
  else push (Node Op Sc (lastArgs n st1) []) (drop n st1).

(** Modelled from the spec: [readAnnotation] and [readAnnotationByKind],
    declared in the header: the 8-bit kind, the payload, the
    sub-expressions from the top of the stack, and the annotation joins
    "the most-recently pushed node", the one then on top. *)
Definition readAnnotationByKind (Ak : Z) (st : BytecodeReader R) : BytecodeReader R :=
  let '(P, r) := readPayload Ak (Reader st) in
  let st1 := setReader r st in
  let n := annArity Ak in
  if (length (Stack st1) <? n)%nat
  then fail "Too few arguments on the stack." st1
  else
    let A := Annot Ak P (lastArgs n st1) in
    let st2 := drop n st1 in
    match arg 0 st2 with
    | Some E => push (addAnnotation A E) (drop 1 st2)
    | None => fail "Annotation without an expression." st2
    end.

Definition readAnnotation (st : BytecodeReader R) : BytecodeReader R :=
  let '(Ak, r) := readFlag F_TIL_AnnKind (Reader st) in
  readAnnotationByKind Ak (setReader r st).

(** Modelled from the spec: [readSExpr], declared in the header (section
    4.E): one opcode is read; a real opcode goes to its reader, a marker
    to its own; an opcode the reader does not know is a fatal error
    (section 7, unknown opcode). *)
Definition readSExpr (st : BytecodeReader R) : BytecodeReader R :=
  let '(Psop, r) := readPseudoOpcode (Reader st) in
  let st1 := setReader r st in
  if isRealOpcode Psop
  then if knownOpcode (getOpcode Psop)
       then readSExprByType (getOpcode Psop) st1
       else fail "Unknown opcode." st1
  else if Psop =? PSOP_Annotation then readAnnotation st1
  else readMarker Psop st1.

(** Modelled from the spec: one round of the loop of [read] (sections
    4.B, 4.E and 7): one atom is read; if the reads of the atom have set
    the stream's [Error] flag and no failure has been reported for the
    atom, the driver reports it ("the diagnostic is emitted once"); the
    stream then moves to the end of the atom. *)
Definition readAtom (st : BytecodeReader R) : BytecodeReader R :=
  let st1 := readSExpr st in
  let st2 := if success st1 && streamError (Reader st1)
             then fail "Read error in the byte stream." st1
             else st1 in
  setReader (readEndAtom (Reader st2)) st2.

(** Modelled from the spec: the loop of [read], declared in the header
    (sections 4.E and 7): one atom at a time while the stream has data
    and no fatal error has occurred ("the first fatal error
    short-circuits the rest of the decode").  [None]: the rounds allowed
    by [fuel] did not exhaust the stream. *)
Fixpoint readLoop (fuel : nat) (st : BytecodeReader R) : option (BytecodeReader R) :=
  if negb (empty (Reader st)) && success st
  then
    match fuel with
    | O => None
    | S fuel' => readLoop fuel' (readAtom st)
    end
  else Some st.

(** Modelled from the spec: the end of [read] (section 4.E): "the value
    stack contains exactly one entry, the reconstructed root, which is
    returned; any other residual stack state is a protocol violation";
    "any fatal condition causes read() to return a null root". *)
Definition readRoot (st : BytecodeReader R) : option SExpr * BytecodeReader R :=
  if success st
  then
    match Stack st with
    | [root] => (Some root, st)
    | _ => (None, fail "Exactly one expression must remain on the stack." st)
    end
  else (None, st).

Definition read (fuel : nat) (st : BytecodeReader R)
  : option (option SExpr * BytecodeReader R) :=
  match readLoop fuel st with
  | Some st1 => Some (readRoot st1)
  | None => None
  end.

End Driver.

(** The rest of the current atom, as the played-back stream holds it. *)
Fixpoint takeFields (l : list Item) : list Field * list Item :=
  match l with
  | IField f :: l' => let '(fs, l'') := takeFields l' in (f :: fs, l'')
  | _ => ([], l)
  end.

(** * Integer conversions *)

Lemma to_unsigned_range bits V : 0 <= bits -> 0 <= to_unsigned bits V < 2 ^ bits.
Proof.
  intros Hb. unfold to_unsigned. apply Z.mod_pos_bound.
  apply Z.pow_pos_nonneg; lia.
Qed.

Lemma to_unsigned_id bits V : 0 <= V < 2 ^ bits -> to_unsigned bits V = V.
Proof. intros HV. unfold to_unsigned. now apply Z.mod_small. Qed.

(** Two's complement: the signed reading of the unsigned cast is the value. *)
Lemma to_signed_to_unsigned bits V :
  0 < bits -> - 2 ^ (bits - 1) <= V < 2 ^ (bits - 1) ->
  to_signed bits (to_unsigned bits V) = V.
Proof.
  intros Hb HV. unfold to_signed, to_unsigned.
  assert (E : 2 ^ bits = 2 * 2 ^ (bits - 1)).
  { replace bits with (Z.succ (bits - 1)) at 1 by lia. apply Z.pow_succ_r. lia. }
  rewrite Zplus_mod_idemp_l. rewrite Z.mod_small by lia. lia.
Qed.

(** * The typed wrappers of the stream classes *)

Section StreamWrappers.
Context {W R : Type} {WB : ByteStreamWriterBase W} {RB : ByteStreamReaderBase R}.

Lemma readInt8_of_bits V r r' :
  - 2 ^ 7 <= V < 2 ^ 7 ->
  readBits32 8 r = (to_unsigned 8 V, r') -> readInt8 r = (V, r').
Proof.
  intros HV E. unfold readInt8. rewrite E.
  now rewrite (to_signed_to_unsigned 8) by (cbn; lia).
Qed.

Lemma readInt16_of_bits V r r' :
  - 2 ^ 15 <= V < 2 ^ 15 ->
  readBits32 16 r = (to_unsigned 16 V, r') -> readInt16 r = (V, r').
Proof.
  intros HV E. unfold readInt16. rewrite E.
  now rewrite (to_signed_to_unsigned 16) by (cbn; lia).
Qed.

Lemma readInt32_of_bits V r r' :
  - 2 ^ 31 <= V < 2 ^ 31 ->
  readBits32 32 r = (to_unsigned 32 V, r') -> readInt32 r = (V, r').
Proof.
  intros HV E. unfold readInt32. rewrite E.
  now rewrite (to_signed_to_unsigned 32) by (cbn; lia).
Qed.

Lemma readInt64_of_bits V r r' :
  - 2 ^ 63 <= V < 2 ^ 63 ->
  readBits64 64 r = (to_unsigned 64 V, r') -> readInt64 r = (V, r').
Proof.
  intros HV E. unfold readInt64. rewrite E.
  now rewrite (to_signed_to_unsigned 64) by (cbn; lia).
Qed.

(** C7.  A signed integer of 8, 16, 32 or 64 bits is written as one raw
    field of that width holding its unsigned cast (the value modulo
    [2^width], so the 32-bit argument of [writeBits32] carries no sign
    extension), and whenever the stream hands that field back,
    [readInt8], [readInt16], [readInt32] and [readInt64] return the
    signed value that was written. *)
Theorem signed_ints_raw_round_trip
    (V8 V16 V32 V64 : Z) (w : W) (r8 r8' r16 r16' r32 r32' r64 r64' : R) :
  - 2 ^ 7 <= V8 < 2 ^ 7 ->
  - 2 ^ 15 <= V16 < 2 ^ 15 ->
  - 2 ^ 31 <= V32 < 2 ^ 31 ->
  - 2 ^ 63 <= V64 < 2 ^ 63 ->
  readBits32 8 r8 = (to_unsigned 8 V8, r8') ->
  readBits32 16 r16 = (to_unsigned 16 V16, r16') ->
  readBits32 32 r32 = (to_unsigned 32 V32, r32') ->
  readBits64 64 r64 = (to_unsigned 64 V64, r64') ->
  (writeInt8 V8 w = writeBits32 (to_unsigned 8 V8) 8 w
   /\ 0 <= to_unsigned 8 V8 < 2 ^ 8
   /\ readInt8 r8 = (V8, r8'))
  /\ (writeInt16 V16 w = writeBits32 (to_unsigned 16 V16) 16 w
      /\ 0 <= to_unsigned 16 V16 < 2 ^ 16
      /\ readInt16 r16 = (V16, r16'))
  /\ (writeInt32 V32 w = writeBits32 (to_unsigned 32 V32) 32 w
      /\ 0 <= to_unsigned 32 V32 < 2 ^ 32
      /\ readInt32 r32 = (V32, r32'))
  /\ (writeInt64 V64 w = writeBits64 (to_unsigned 64 V64) 64 w
      /\ 0 <= to_unsigned 64 V64 < 2 ^ 64
      /\ readInt64 r64 = (V64, r64')).
Proof.
  intros H8 H16 H32 H64 E8 E16 E32 E64.
  repeat match goal with |- _ /\ _ => split end;
    try reflexivity; try (apply to_unsigned_range; lia).
  - now apply readInt8_of_bits.
  - now apply readInt16_of_bits.
  - now apply readInt32_of_bits.
  - now apply readInt64_of_bits.
Qed.

(** C10.  [writeUInt16] hands its value to the 32-bit VBR encoder and
    [readUInt16] is the 32-bit VBR decoder cut to 16 bits, so a 16-bit
    value that the VBR codec carries comes back unchanged; [writeUInt8]
    and [readUInt8] use one raw 8-bit field. *)
Theorem uint16_through_vbr (V : Z) (w : W) (r r' : R) :
  0 <= V < 2 ^ 16 ->
  readUInt32_Vbr r = (V, r') ->
  writeUInt16 V w = writeUInt32_Vbr V w
  /\ readUInt16 r = (V, r')
  /\ (forall r0 : R,
        readUInt16 r0
        = (to_unsigned 16 (fst (readUInt32_Vbr r0)), snd (readUInt32_Vbr r0)))
  /\ (forall (U : Z) (w0 : W),
        writeUInt8 U w0 = writeBits32 (to_unsigned 8 U) 8 w0)
  /\ (forall r0 : R,
        readUInt8 r0
        = (to_unsigned 8 (fst (readBits32 8 r0)), snd (readBits32 8 r0))).
Proof.
  intros HV E. split; [|split; [|split; [|split]]].
  - unfold writeUInt16. now rewrite to_unsigned_id.
  - unfold readUInt16. rewrite E. now rewrite to_unsigned_id.
  - intros r0. unfold readUInt16. now destruct (readUInt32_Vbr r0).
  - reflexivity.
  - intros r0. unfold readUInt8. now destruct (readBits32 8 r0).
Qed.

(** C8.  Writer and reader take every field width from the one table
    [getBitSizeImpl]: [writeFlag] writes, and [readFlag] reads, exactly
    [getBitSize T] bits for a field of kind [T], booleans use 1 bit on
    both sides, and a flag that fits its width comes back unchanged
    whenever the stream hands the field back. *)
Theorem field_widths_shared (T : FieldKind) (Flag : Z) (w : W) (r r' : R) :
  0 <= Flag < 2 ^ getBitSize T ->
  readBits32 (getBitSize T) r = (Flag, r') ->
  (getBitSize F_PseudoOpcode = 6 /\ getBitSize F_TIL_Opcode = 6
   /\ getBitSize F_TIL_AnnKind = 8
   /\ getBitSize F_TIL_UnaryOpcode = 6 /\ getBitSize F_TIL_BinaryOpcode = 6
   /\ getBitSize F_TIL_CastOpcode = 6
   /\ getBitSize F_VariableKind = 2 /\ getBitSize F_CallingConvention = 4
   /\ getBitSize F_ApplyKind = 2 /\ getBitSize F_AllocKind = 2)
  /\ writeFlag T Flag w = writeBits32 Flag (getBitSize T) w
  /\ readFlag T r = (Flag, r')
  /\ (forall (V : bool) (w0 : W), writeBool V w0 = writeBits32 (Z.b2z V) 1 w0)
  /\ (forall (V : bool) (r0 r0' : R),
        readBits32 1 r0 = (Z.b2z V, r0') -> readBool r0 = (V, r0')).
Proof.
  intros HF E. split; [|split; [|split; [|split]]].
  - repeat split.
  - reflexivity.
  - unfold readFlag. rewrite E. f_equal.
    destruct T; try reflexivity. cbn [castTo].
    apply to_unsigned_id. cbn in HF. lia.
  - reflexivity.
  - intros V r0 r0' E0. unfold readBool. rewrite E0. now destruct V.
Qed.

(** C3.  Pseudo-opcodes and real opcodes share the 6-bit code space: the
    writer emits the 6-bit field [PSOP_Last + Op] for the opcode [Op], a
    code is a real opcode exactly when it is at least [PSOP_Last] (the
    nine markers all lie below), and [getOpcode] undoes the encoding. *)
Theorem opcode_code_space (Op : Z) (w : W) (r r' : R) :
  0 <= Op -> PSOP_Last + Op < 2 ^ 6 ->
  readBits32 6 r = (PSOP_Last + Op, r') ->
  writeOpcode Op w = writeBits32 (PSOP_Last + Op) 6 w
  /\ readPseudoOpcode r = (PSOP_Last + Op, r')
  /\ isRealOpcode (PSOP_Last + Op) = true
  /\ (forall c, isRealOpcode c = true <-> PSOP_Last <= c)
  /\ (forall p, In p pseudoOpcodes -> isRealOpcode p = false)
  /\ getOpcode (PSOP_Last + Op) = Op.
Proof.
  intros H0 H6 E. change (2 ^ 6) with 64 in H6.
  assert (H8 : 0 <= PSOP_Last + Op < 2 ^ 8)
    by (change (2 ^ 8) with 256; unfold PSOP_Last in *; lia).
  assert (H32 : 0 <= PSOP_Last + Op < 2 ^ 32)
    by (change (2 ^ 32) with 4294967296; unfold PSOP_Last in *; lia).
  split; [|split; [|split; [|split; [|split]]]].
  - unfold writeOpcode, writePseudoOpcode, writeFlag. cbv zeta.
    rewrite (to_unsigned_id 32) by exact H32.
    rewrite (to_unsigned_id 8) by exact H8.
    reflexivity.
  - unfold readPseudoOpcode, readFlag. change (getBitSize F_PseudoOpcode) with 6.
    rewrite E. cbn [castTo].
    now rewrite (to_unsigned_id 8) by exact H8.
  - unfold isRealOpcode. apply Z.leb_le. lia.
  - intros c. unfold isRealOpcode. apply Z.leb_le.
  - intros p Hp. unfold isRealOpcode. apply Z.leb_gt.
    cbv [pseudoOpcodes In] in Hp.
    repeat (destruct Hp as [Hp|Hp]; [subst p; reflexivity|]). contradiction.
  - unfold getOpcode. lia.
Qed.

End StreamWrappers.

(** * The wrappers over the bit stream of the specification *)

(** The methods of the two instances, by name. *)
Lemma BitWriter_writeBits32 : @writeBits32 _ BitWriter = ByteStream.writeBits32.
Proof. reflexivity. Qed.

Lemma BitWriter_writeBits64 : @writeBits64 _ BitWriter = ByteStream.writeBits64.
Proof. reflexivity. Qed.

Lemma BitWriter_writeUInt32_Vbr :
  @writeUInt32_Vbr _ BitWriter = ByteStream.writeUInt32_Vbr.
Proof. reflexivity. Qed.

Lemma BitReader_readBits32 : @readBits32 _ BitReader = ByteStream.readBits32.
Proof. reflexivity. Qed.

Lemma BitReader_readBits64 : @readBits64 _ BitReader = ByteStream.readBits64.
Proof. reflexivity. Qed.

Lemma BitReader_readUInt32_Vbr :
  @readUInt32_Vbr _ BitReader = ByteStream.readUInt32_Vbr.
Proof. reflexivity. Qed.

(** A raw field written at [w] is read back from any bytes that carry it. *)
Lemma readInt8_writeInt8 data (w : ByteStream.ByteStreamWriter) V :
  ByteStream.valid w -> ByteStream.room 8 w -> - 2 ^ 7 <= V < 2 ^ 7 ->
  ByteStream.carries data (writeInt8 V w) ->
  readInt8 (ByteStream.readerAt data w)
  = (V, ByteStream.readerAt data (writeInt8 V w)).
Proof.
  intros Hv Hr HV Hc. apply readInt8_of_bits; [exact HV|].
  assert (E : writeInt8 V w = ByteStream.writeBits32 (to_unsigned 8 V) 8 w)
    by reflexivity.
  rewrite E in *. rewrite BitReader_readBits32.
  rewrite (ByteStream.readBits32_writeBits32 data w (to_unsigned 8 V) 8 Hv);
    [|lia|exact Hr|exact Hc].
  f_equal. apply Z.mod_small. apply to_unsigned_range. lia.
Qed.

Lemma readInt64_writeInt64 data (w : ByteStream.ByteStreamWriter) V :
  ByteStream.valid w -> ByteStream.room 64 w -> - 2 ^ 63 <= V < 2 ^ 63 ->
  ByteStream.carries data (writeInt64 V w) ->
  readInt64 (ByteStream.readerAt data w)
  = (V, ByteStream.readerAt data (writeInt64 V w)).
Proof.
  intros Hv Hr HV Hc. apply readInt64_of_bits; [exact HV|].
  assert (E : writeInt64 V w = ByteStream.writeBits64 (to_unsigned 64 V) 64 w)
    by reflexivity.
  rewrite E in *. rewrite BitReader_readBits64.
  rewrite (ByteStream.readBits64_writeBits64 data w (to_unsigned 64 V) 64 Hv);
    [|lia|exact Hr|exact Hc].
  f_equal. apply Z.mod_small. apply to_unsigned_range. lia.
Qed.

Lemma readUInt16_writeUInt16 data (w : ByteStream.ByteStreamWriter) V :
  ByteStream.valid w -> ByteStream.room 40 w -> 0 <= V < 2 ^ 16 ->
  ByteStream.carries data (writeUInt16 V w) ->
  readUInt16 (ByteStream.readerAt data w)
  = (V, ByteStream.readerAt data (writeUInt16 V w)).
Proof.
  intros Hv Hr HV Hc.
  assert (HV32 : 0 <= V < 2 ^ 32) by (pose proof (Z.pow_lt_mono_r 2 16 32); lia).
  assert (E : writeUInt16 V w = ByteStream.writeUInt32_Vbr V w).
  { unfold writeUInt16. rewrite to_unsigned_id by exact HV.
    now rewrite BitWriter_writeUInt32_Vbr. }
  rewrite E in *.
  apply (proj1 (proj2 (uint16_through_vbr V w _ _ HV
    ltac:(rewrite BitReader_readUInt32_Vbr;
          exact (ByteStream.readUInt32_Vbr_writeUInt32_Vbr data w V Hv Hr HV32 Hc))))).
Qed.

Lemma readPseudoOpcode_writeOpcode data (w : ByteStream.ByteStreamWriter) Op :
  ByteStream.valid w -> ByteStream.room 6 w ->
  0 <= Op -> PSOP_Last + Op < 2 ^ 6 ->
  ByteStream.carries data (writeOpcode Op w) ->
  readPseudoOpcode (ByteStream.readerAt data w)
  = (PSOP_Last + Op, ByteStream.readerAt data (writeOpcode Op w)).
Proof.
  intros Hv Hr H0 H6 Hc.
  assert (E : writeOpcode Op w = ByteStream.writeBits32 (PSOP_Last + Op) 6 w).
  { unfold writeOpcode, writePseudoOpcode, writeFlag. cbv zeta.
    change (2 ^ 6) with 64 in H6.
    rewrite (to_unsigned_id 32)
      by (change (2 ^ 32) with 4294967296; unfold PSOP_Last in *; lia).
    rewrite (to_unsigned_id 8)
      by (change (2 ^ 8) with 256; unfold PSOP_Last in *; lia).
    now rewrite BitWriter_writeBits32. }
  rewrite E in *.
  unfold readPseudoOpcode, readFlag. change (getBitSize F_PseudoOpcode) with 6.
  rewrite BitReader_readBits32.
  rewrite (ByteStream.readBits32_writeBits32 data w (PSOP_Last + Op) 6 Hv);
    [|lia|exact Hr|exact Hc].
  rewrite Z.mod_small by (unfold PSOP_Last in *; lia).
  cbn [castTo]. rewrite to_unsigned_id; [reflexivity|].
  change (2 ^ 6) with 64 in H6. change (2 ^ 8) with 256.
  unfold PSOP_Last in *. lia.
Qed.

(** * The stream properties at a fresh writer *)

Lemma signed_ints_raw_round_trip_witness :
  let w := ByteStream.newWriter in
  let d8 := ByteStream.written (writeInt8 (-1) w) in
  let d16 := ByteStream.written (writeInt16 (-32768) w) in
  let d32 := ByteStream.written (writeInt32 (-2) w) in
  let d64 := ByteStream.written (writeInt64 (- 2 ^ 63) w) in
  readInt8 (ByteStream.readerAt d8 w)
  = (-1, ByteStream.readerAt d8 (writeInt8 (-1) w))
  /\ readInt16 (ByteStream.readerAt d16 w)
     = (-32768, ByteStream.readerAt d16 (writeInt16 (-32768) w))
  /\ readInt32 (ByteStream.readerAt d32 w)
     = (-2, ByteStream.readerAt d32 (writeInt32 (-2) w))
  /\ readInt64 (ByteStream.readerAt d64 w)
     = (- 2 ^ 63, ByteStream.readerAt d64 (writeInt64 (- 2 ^ 63) w)).
Proof.
  intros w d8 d16 d32 d64.
  pose proof (signed_ints_raw_round_trip (-1) (-32768) (-2) (- 2 ^ 63) w
              (ByteStream.readerAt d8 w)
              (ByteStream.readerAt d8 (writeInt8 (-1) w))
              (ByteStream.readerAt d16 w)
              (ByteStream.readerAt d16 (writeInt16 (-32768) w))
              (ByteStream.readerAt d32 w)
              (ByteStream.readerAt d32 (writeInt32 (-2) w))
              (ByteStream.readerAt d64 w)
              (ByteStream.readerAt d64 (writeInt64 (- 2 ^ 63) w))) as H.
  assert (R8 : - 2 ^ 7 <= -1 < 2 ^ 7) by lia.
  assert (R16 : - 2 ^ 15 <= -32768 < 2 ^ 15) by lia.
  assert (R32 : - 2 ^ 31 <= -2 < 2 ^ 31) by lia.
  assert (R64 : - 2 ^ 63 <= - 2 ^ 63 < 2 ^ 63) by lia.
  specialize (H R8 R16 R32 R64).
  assert (E8 : readBits32 8 (ByteStream.readerAt d8 w)
               = (to_unsigned 8 (-1), ByteStream.readerAt d8 (writeInt8 (-1) w)))
    by (vm_compute; reflexivity).
  assert (E16 : readBits32 16 (ByteStream.readerAt d16 w)
                = (to_unsigned 16 (-32768),
                   ByteStream.readerAt d16 (writeInt16 (-32768) w)))
    by (vm_compute; reflexivity).
  assert (E32 : readBits32 32 (ByteStream.readerAt d32 w)
                = (to_unsigned 32 (-2), ByteStream.readerAt d32 (writeInt32 (-2) w)))
    by (vm_compute; reflexivity).
  assert (E64 : readBits64 64 (ByteStream.readerAt d64 w)
                = (to_unsigned 64 (- 2 ^ 63),
                   ByteStream.readerAt d64 (writeInt64 (- 2 ^ 63) w)))
    by (vm_compute; reflexivity).
  specialize (H E8 E16 E32 E64).
  exact (conj (proj2 (proj2 (proj1 H)))
        (conj (proj2 (proj2 (proj1 (proj2 H))))
        (conj (proj2 (proj2 (proj1 (proj2 (proj2 H)))))
              (proj2 (proj2 (proj2 (proj2 (proj2 H)))))))).
Defined.

Lemma uint16_through_vbr_witness :
  let w := ByteStream.newWriter in
  let d := ByteStream.written (writeUInt16 65535 w) in
  readUInt16 (ByteStream.readerAt d w)
  = (65535, ByteStream.readerAt d (writeUInt16 65535 w)).
Proof.
  intros w d.
  pose proof (uint16_through_vbr 65535 w (ByteStream.readerAt d w)
              (ByteStream.readerAt d (writeUInt16 65535 w))) as H.
  assert (H1 : 0 <= 65535 < 2 ^ 16) by lia.
  assert (H2 : readUInt32_Vbr (ByteStream.readerAt d w)
               = (65535, ByteStream.readerAt d (writeUInt16 65535 w)))
    by (vm_compute; reflexivity).
  exact (proj1 (proj2 (H H1 H2))).
Defined.

Lemma field_widths_shared_witness :
  let w := ByteStream.newWriter in
  let d := ByteStream.written (writeFlag F_CallingConvention 11 w) in
  readFlag F_CallingConvention (ByteStream.readerAt d w)
  = (11, ByteStream.readerAt d (writeFlag F_CallingConvention 11 w)).
Proof.
  intros w d.
  pose proof (field_widths_shared F_CallingConvention 11 w
              (ByteStream.readerAt d w)
              (ByteStream.readerAt d (writeFlag F_CallingConvention 11 w))) as H.
  assert (H1 : 0 <= 11 < 2 ^ getBitSize F_CallingConvention)
    by (vm_compute; split; [discriminate|reflexivity]).
  assert (H2 : readBits32 (getBitSize F_CallingConvention) (ByteStream.readerAt d w)
               = (11, ByteStream.readerAt d (writeFlag F_CallingConvention 11 w)))
    by (vm_compute; reflexivity).
  exact (proj1 (proj2 (proj2 (H H1 H2)))).
Defined.

Lemma opcode_code_space_witness :
  let w := ByteStream.newWriter in
  let d := ByteStream.written (writeOpcode 10 w) in
  readPseudoOpcode (ByteStream.readerAt d w)
  = (PSOP_Last + 10, ByteStream.readerAt d (writeOpcode 10 w))
  /\ getOpcode (PSOP_Last + 10) = 10.
Proof.
  intros w d.
  pose proof (opcode_code_space 10 w (ByteStream.readerAt d w)
              (ByteStream.readerAt d (writeOpcode 10 w))) as H.
  assert (H1 : 0 <= 10) by lia.
  assert (H2 : PSOP_Last + 10 < 2 ^ 6) by (vm_compute; reflexivity).
  assert (H3 : readBits32 6 (ByteStream.readerAt d w)
               = (PSOP_Last + 10, ByteStream.readerAt d (writeOpcode 10 w)))
    by (vm_compute; reflexivity).
  specialize (H H1 H2 H3).
  exact (conj (proj1 (proj2 H)) (proj2 (proj2 (proj2 (proj2 (proj2 H)))))).
Defined.

(** * Pointer literals *)

Section PointerLiterals.
Context {W R : Type} {WB : ByteStreamWriterBase W} {RB : ByteStreamReaderBase R}.

(** C6, as the code has it.  [reduceLiteralT] on a pointer literal writes
    the opcode and the base type first and only then reaches
    [writeLitVal], whose assertion fails on a non-null pointer; no
    overload writes a value for a pointer, so a null pointer literal is
    its opcode and its base type alone, and the reader's overload returns
    the null pointer without reading. *)
Theorem pointer_literal_checked_after_header
    (COP_Literal : Z) (Bt : BaseType) (P : Z) (w : W) (r : R) :
  reduceLiteralT COP_Literal writeLitVal_ptr (mkLiteralT Bt P) w
  = (if P =? 0
     then Done (writeBaseType Bt (writeOpcode COP_Literal w))
     else AssertionFailed "Cannot serialize non-null pointer literal."
            (writeBaseType Bt (writeOpcode COP_Literal w)))
  /\ (forall w0 : W,
        writeLitVal_ptr P w0
        = if P =? 0 then Done w0
          else AssertionFailed "Cannot serialize non-null pointer literal." w0)
  /\ readLitVal_ptr r = (0, r).
Proof.
  split; [|split]; try reflexivity.
Qed.

End PointerLiterals.

(** C6, as stated, fails: when the assertion on the non-null pointer
    [4096] fires, the opcode field and the base-type field have already
    been written (two calls on the writer; two bytes begun in the buffer
    of the bit stream). *)
Lemma pointer_literal_fails_after_writes :
  reduceLiteralT 10 writeLitVal_ptr (mkLiteralT (mkBaseType 11 0) 4096)
    ([] : list Item)
  = AssertionFailed "Cannot serialize non-null pointer literal."
      [IField (FBits32 19 6); IField (FBits32 11 8)]
  /\ match reduceLiteralT 10 writeLitVal_ptr (mkLiteralT (mkBaseType 11 0) 4096)
             ByteStream.newWriter with
     | AssertionFailed _ w => ByteStream.written w
     | Done _ => []
     end = [211; 2].
Proof.
  split; vm_compute; reflexivity.
Qed.

(** * The table of variables *)

Section VarsTable.
Context {R : Type}.

(** The shape of [Vars] at all times: the null entry, then declarations. *)
Definition varsShape (st : BytecodeReader R) : Prop :=
  exists Vds : list SExpr, Vars st = None :: map Some Vds.

Lemma varsShape_new (r : R) : varsShape (newBytecodeReader r).
Proof. exists []. reflexivity. Qed.

Lemma removelast_map_Some (Vds : list SExpr) :
  removelast (map Some Vds) = map Some (removelast Vds).
Proof.
  induction Vds as [|x t IH]; [reflexivity|].
  destruct t as [|y t']; [reflexivity|].
  cbn [map removelast] in *. now rewrite IH.
Qed.

Lemma varsShape_step (st : BytecodeReader R) (op : ScopeOp) :
  varsShape st -> varsShape (scopeStep st op).
Proof.
  intros [Vds E]. destruct op as [Vd| |Vidx]; cbn [scopeStep].
  - exists (Vds ++ [Vd]). unfold enterScope; cbn [setVars Vars].
    rewrite E, map_app. reflexivity.
  - unfold exitScope. destruct (length (Vars st) <=? 1)%nat eqn:L.
    + exists Vds. exact E.
    + apply Nat.leb_gt in L. rewrite E in L. cbn [length] in L.
      rewrite length_map in L.
      destruct Vds as [|x t]; [cbn in L; lia|].
      exists (removelast (x :: t)). cbn [setVars Vars]. rewrite E.
      rewrite <- removelast_map_Some. reflexivity.
  - unfold getVarDecl.
    destruct (nth_error (Vars st) (Z.to_nat (to_unsigned 32 Vidx))) as [v|];
      cbn [snd]; exists Vds; exact E.
Qed.

Lemma varsShape_run (ops : list ScopeOp) (st : BytecodeReader R) :
  varsShape st -> varsShape (fold_left scopeStep ops st).
Proof.
  revert st. induction ops as [|op ops IH]; intros st Hs; [exact Hs|].
  cbn [fold_left]. apply IH. now apply varsShape_step.
Qed.

(** C9.  Whatever scopes the stream opens and closes and whatever it
    looks up, from the constructor on, slot 0 of [Vars] holds the null
    entry and every other slot holds a declaration: the index 0 is
    answered with the null pointer and is no error, and every index from
    1 to the size of the table is answered with a declaration. *)
Theorem vars_slot_zero_reserved (r : R) (ops : list ScopeOp) :
  let st := fold_left scopeStep ops (newBytecodeReader r) in
  nth_error (Vars st) 0 = Some None
  /\ (forall i, (1 <= i < length (Vars st))%nat ->
        exists Vd, nth_error (Vars st) i = Some (Some Vd))
  /\ getVarDecl 0 st = (None, st)
  /\ (forall Vidx,
        1 <= Vidx < Z.of_nat (length (Vars st)) -> Vidx < 2 ^ 32 ->
        exists Vd, getVarDecl Vidx st = (Some Vd, st)).
Proof.
  intros st.
  destruct (varsShape_run ops (newBytecodeReader r) (varsShape_new r)) as [Vds E].
  fold st in E.
  assert (Hnth : forall i, (1 <= i < length (Vars st))%nat ->
                   exists Vd, nth_error (Vars st) i = Some (Some Vd)).
  { intros i Hi. rewrite E in *. cbn [length] in Hi. rewrite length_map in Hi.
    destruct i as [|i]; [lia|]. cbn [nth_error].
    destruct (nth_error Vds i) as [Vd|] eqn:N.
    - exists Vd. now rewrite nth_error_map, N.
    - apply nth_error_None in N. lia. }
  split; [now rewrite E|]. split; [exact Hnth|]. split.
  - unfold getVarDecl. change (Z.to_nat (to_unsigned 32 0)) with 0%nat.
    now rewrite E.
  - intros Vidx Hi H32. unfold getVarDecl.
    rewrite to_unsigned_id by lia.
    destruct (Hnth (Z.to_nat Vidx)) as [Vd HVd]; [lia|].
    exists Vd. now rewrite HVd.
Qed.

End VarsTable.

(** * Failure of the driver *)

(** Modelled from the spec: what reading a marker comes to (sections 4.E
    and 7): the reader goes on, with the stream, the stack, the tables
    and the counters as the marker leaves them, or the marker meets a
    fatal condition ("out-of-range symbol index, pseudo-opcode out of
    context"), which the driver reports.  The readers of the markers
    ([readNull], [readWeak], [enterScope], ...) are declared in the
    header and defined elsewhere. *)
Inductive MarkerResult (R : Type) : Type :=
  | Continue (r : R) (stack : list SExpr)
             (vars blocks instrs : list (option SExpr))
             (instrID curArg cfgStackSize : Z)
  | Fatal (Msg : string).
Arguments Continue {R} _ _ _ _ _ _ _ _.
Arguments Fatal {R} _.

(** Modelled from the spec: the driver on a marker: it goes on as the
    marker says, or reports the fatal condition with [fail] ("it prints a
    single diagnostic string", section 4.E). *)
Definition readMarkerBy {R : Type}
    (marker : Z -> BytecodeReader R -> MarkerResult R)
    (Psop : Z) (st : BytecodeReader R) : BytecodeReader R :=
  match marker Psop st with
  | Continue r stack vars blocks instrs instrID curArg cfgStackSize =>
      {| Reader := r; Success := Success st; Cerr := Cerr st;
         CurrentInstrID := instrID; CurrentArg := curArg;
         CFGStackSize := cfgStackSize;
         Stack := stack; Vars := vars; Blocks := blocks; Instrs := instrs |}
  | Fatal Msg => fail Msg st
  end.

Section DriverFailure.
Context {R : Type} {RB : ByteStreamReaderBase R}.
Variable knownOpcode : Z -> bool.
Variable arity : Z -> nat.
Variable annArity : Z -> nat.
Variable readScalars : Z -> R -> list Field * R.
Variable readPayload : Z -> R -> list Field * R.
Variable marker : Z -> BytecodeReader R -> MarkerResult R.
Variable streamError : R -> bool.

Let readSExpr' :=
  readSExpr knownOpcode arity annArity readScalars readPayload (readMarkerBy marker).
Let readAtom' :=
  readAtom knownOpcode arity annArity readScalars readPayload (readMarkerBy marker) streamError.
Let readLoop' :=
  readLoop knownOpcode arity annArity readScalars readPayload (readMarkerBy marker) streamError.
Let read' :=
  read knownOpcode arity annArity readScalars readPayload (readMarkerBy marker) streamError.

(** The atom at the head of the stream is malformed (section 7): an
    opcode the reader does not know, a node with fewer operands on the
    stack than its opcode takes, an annotation with fewer
    sub-expressions on the stack than its kind takes or with no
    expression below them to join, a marker out of context or with an
    index out of range. *)
Definition malformedAtom (st : BytecodeReader R) : bool :=
  let '(Psop, r) := readPseudoOpcode (Reader st) in
  if isRealOpcode Psop
  then negb (knownOpcode (getOpcode Psop))
       || (length (Stack st) <? arity (getOpcode Psop))%nat
  else if Psop =? PSOP_Annotation
  then let '(Ak, _) := readFlag F_TIL_AnnKind r in
       (length (Stack st) <=? annArity Ak)%nat
  else match marker Psop (setReader r st) with
       | Fatal _ => true
       | Continue _ _ _ _ _ _ _ _ => false
       end.

(** The fatal conditions of an atom: it is malformed, or reading it has
    set the [Error] flag of the stream (a read past the end of the
    stream, a VBR chain longer than the decoder accepts). *)
Definition fatalCondition (st : BytecodeReader R) : bool :=
  malformedAtom st || streamError (Reader (readSExpr' st)).

(** The reader after [k] rounds of the loop. *)
Fixpoint rounds (k : nat) (st : BytecodeReader R) : BytecodeReader R :=
  match k with
  | O => st
  | S k' => rounds k' (readAtom' st)
  end.

Lemma arg_0_None (s : BytecodeReader R) :
  arg 0 s = None <-> Stack s = [].
Proof.
  unfold arg. destruct (Stack s) as [|x t] eqn:E; cbn [length].
  - split; reflexivity.
  - replace (0 <? S (length t))%nat with true by (symmetry; apply Nat.ltb_lt; lia).
    split; [|discriminate]. intros H. apply nth_error_None in H.
    cbn [length] in H. lia.
Qed.

Lemma readSExprByType_spec Op (st : BytecodeReader R) :
  Success st = true ->
  if (length (Stack st) <? arity Op)%nat
  then Success (readSExprByType arity readScalars Op st) = false
       /\ exists Msg, Cerr (readSExprByType arity readScalars Op st) = Cerr st ++ [Msg]
  else Success (readSExprByType arity readScalars Op st) = true
       /\ Cerr (readSExprByType arity readScalars Op st) = Cerr st.
Proof.
  intros Hs. unfold readSExprByType.
  destruct (readScalars Op (Reader st)) as [Sc r]. cbn [setReader Stack].
  destruct (length (Stack st) <? arity Op)%nat.
  - split; [reflexivity|]. eexists. reflexivity.
  - split; [exact Hs | reflexivity].
Qed.

Lemma readAnnotation_spec (st : BytecodeReader R) :
  Success st = true ->
  if (length (Stack st) <=? annArity (fst (readFlag F_TIL_AnnKind (Reader st))))%nat
  then Success (readAnnotation annArity readPayload st) = false
       /\ exists Msg, Cerr (readAnnotation annArity readPayload st) = Cerr st ++ [Msg]
  else Success (readAnnotation annArity readPayload st) = true
       /\ Cerr (readAnnotation annArity readPayload st) = Cerr st.
Proof.
  intros Hs. unfold readAnnotation.
  destruct (readFlag F_TIL_AnnKind (Reader st)) as [Ak r]. cbn [fst].
  unfold readAnnotationByKind. cbn [Reader setReader].
  destruct (readPayload Ak r) as [P r1]. cbn [setReader Stack].
  destruct (Nat.ltb_spec (length (Stack st)) (annArity Ak)) as [Hlt|Hge].
  - replace (length (Stack st) <=? annArity Ak)%nat with true
      by (symmetry; apply Nat.leb_le; lia).
    split; [reflexivity|]. eexists. reflexivity.
  - match goal with |- context [arg 0 ?s] => destruct (arg 0 s) as [E|] eqn:A end.
    + replace (length (Stack st) <=? annArity Ak)%nat with false.
      * split; [exact Hs | reflexivity].
      * symmetry. apply Nat.leb_gt.
        destruct (Nat.eq_dec (length (Stack st)) (annArity Ak)) as [Eq|Ne]; [|lia].
        match type of A with
        | arg 0 ?s = Some _ =>
            assert (N : arg 0 s = None)
              by (apply arg_0_None; unfold drop; cbn [setStack setReader Stack];
                  rewrite Eq, Nat.sub_diag; reflexivity)
        end.
        rewrite N in A. discriminate A.
    + apply arg_0_None in A. unfold drop in A. cbn [setStack Stack] in A.
      apply (f_equal (@length SExpr)) in A. rewrite length_firstn in A.
      cbn [length] in A.
      change (Stack (setReader r1 (setReader r st))) with (Stack st) in A.
      replace (length (Stack st) <=? annArity Ak)%nat with true
        by (symmetry; apply Nat.leb_le; lia).
      split; [reflexivity|]. eexists. reflexivity.
Qed.

Lemma readSExpr_spec (st : BytecodeReader R) :
  Success st = true ->
  if malformedAtom st
  then Success (readSExpr' st) = false
       /\ exists Msg, Cerr (readSExpr' st) = Cerr st ++ [Msg]
  else Success (readSExpr' st) = true /\ Cerr (readSExpr' st) = Cerr st.
Proof.
  intros Hs. unfold malformedAtom, readSExpr', readSExpr.
  destruct (readPseudoOpcode (Reader st)) as [Psop r].
  destruct (isRealOpcode Psop).
  - destruct (knownOpcode (getOpcode Psop)); cbn [negb orb].
    + exact (readSExprByType_spec (getOpcode Psop) (setReader r st) Hs).
    + split; [reflexivity|]. eexists. reflexivity.
  - destruct (Psop =? PSOP_Annotation).
    + pose proof (readAnnotation_spec (setReader r st) Hs) as H.
      cbn [setReader Reader Stack Cerr] in H.
      destruct (readFlag F_TIL_AnnKind r) as [Ak r1]. exact H.
    + unfold readMarkerBy.
      destruct (marker Psop (setReader r st)) as [r1 s v b i id a c|Msg].
      * split; [exact Hs | reflexivity].
      * split; [reflexivity|]. eexists. reflexivity.
Qed.

Lemma readAtom_spec (st : BytecodeReader R) :
  Success st = true ->
  if fatalCondition st
  then Success (readAtom' st) = false
       /\ exists Msg, Cerr (readAtom' st) = Cerr st ++ [Msg]
  else Success (readAtom' st) = true /\ Cerr (readAtom' st) = Cerr st.
Proof.
  intros Hs. pose proof (readSExpr_spec st Hs) as H.
  unfold fatalCondition, readAtom', readAtom. fold readSExpr'. cbv zeta.
  unfold success.
  destruct (malformedAtom st); cbn [orb].
  - destruct H as [H1 H2]. rewrite H1. cbn [andb setReader Success Cerr].
    split; assumption.
  - destruct H as [H1 H2]. rewrite H1. cbn [andb].
    destruct (streamError (Reader (readSExpr' st))).
    + cbn [fail setReader Success Cerr]. split; [reflexivity|].
      eexists. rewrite H2. reflexivity.
    + cbn [setReader Success Cerr]. split; assumption.
Qed.

(** After a fatal error the loop does not run. *)
Lemma readLoop_after_failure fuel (st : BytecodeReader R) :
  Success st = false -> readLoop' fuel st = Some st.
Proof.
  intros E. destruct fuel; cbn [readLoop' readLoop]; unfold success;
    rewrite E, andb_false_r; reflexivity.
Qed.

Lemma readLoop_at_end fuel (st : BytecodeReader R) :
  empty (Reader st) = true -> readLoop' fuel st = Some st.
Proof.
  intros E. destruct fuel; cbn [readLoop' readLoop]; rewrite E; reflexivity.
Qed.

Lemma readLoop_round fuel (st : BytecodeReader R) :
  empty (Reader st) = false -> Success st = true ->
  readLoop' (S fuel) st = readLoop' fuel (readAtom' st).
Proof.
  intros E Hs. cbn [readLoop' readLoop]. unfold success. rewrite E, Hs.
  reflexivity.
Qed.

Lemma read_after_failure fuel (st : BytecodeReader R) :
  Success st = false -> read' fuel st = Some (None, st).
Proof.
  intros E. unfold read', read. fold readLoop'.
  rewrite (readLoop_after_failure fuel st E).
  unfold readRoot, success. now rewrite E.
Qed.

Lemma rounds_clean (k : nat) : forall st : BytecodeReader R,
  Success st = true ->
  (forall i, (i < k)%nat ->
     empty (Reader (rounds i st)) = false /\ fatalCondition (rounds i st) = false) ->
  Success (rounds k st) = true
  /\ Cerr (rounds k st) = Cerr st
  /\ forall fuel, readLoop' (k + fuel) st = readLoop' fuel (rounds k st).
Proof.
  induction k as [|k IH]; intros st Hs H.
  - cbn [rounds Nat.add]. repeat split; assumption.
  - destruct (H 0%nat ltac:(lia)) as [E0 F0]. cbn [rounds] in E0, F0.
    pose proof (readAtom_spec st Hs) as A. rewrite F0 in A. destruct A as [A1 A2].
    assert (H' : forall i, (i < k)%nat ->
               empty (Reader (rounds i (readAtom' st))) = false
               /\ fatalCondition (rounds i (readAtom' st)) = false).
    { intros i Hi. exact (H (S i) ltac:(lia)). }
    destruct (IH (readAtom' st) A1 H') as (I1 & I2 & I3).
    cbn [rounds]. split; [exact I1|]. split; [congruence|].
    intros fuel. cbn [Nat.add]. rewrite (readLoop_round _ st E0 Hs). apply I3.
Qed.

Lemma rounds_S (k : nat) : forall st : BytecodeReader R,
  rounds (S k) st = readAtom' (rounds k st).
Proof.
  induction k as [|k IH]; intros st; [reflexivity|].
  change (rounds (S (S k)) st) with (rounds (S k) (readAtom' st)).
  rewrite IH. reflexivity.
Qed.

Lemma readLoop_reports_once fuel : forall st st1 : BytecodeReader R,
  Success st = true -> readLoop' fuel st = Some st1 ->
  (Success st1 = true /\ Cerr st1 = Cerr st)
  \/ (Success st1 = false /\ exists Msg, Cerr st1 = Cerr st ++ [Msg]).
Proof.
  induction fuel as [|fuel IH]; intros st st1 Hs E.
  - cbn [readLoop' readLoop] in E.
    destruct (negb (empty (Reader st)) && success st); [discriminate|].
    injection E as <-. left. split; [exact Hs | reflexivity].
  - destruct (empty (Reader st)) eqn:Ee.
    + rewrite (readLoop_at_end _ st Ee) in E. injection E as <-.
      left. split; [exact Hs | reflexivity].
    + rewrite (readLoop_round _ st Ee Hs) in E.
      pose proof (readAtom_spec st Hs) as A.
      destruct (fatalCondition st); destruct A as [A1 A2].
      * rewrite (readLoop_after_failure _ _ A1) in E. injection E as <-.
        right. split; assumption.
      * destruct (IH _ _ A1 E) as [[G1 G2]|[G1 [Msg G2]]].
        -- left. split; congruence.
        -- right. split; [exact G1|]. exists Msg. congruence.
Qed.

Lemma readLoop_total (size : R -> nat) :
  (forall s : BytecodeReader R,
     Success s = true -> empty (Reader s) = false -> fatalCondition s = false ->
     (size (Reader (readAtom' s)) < size (Reader s))%nat) ->
  forall n (st : BytecodeReader R) fuel,
    (size (Reader st) <= n)%nat -> (n < fuel)%nat ->
    exists st1, readLoop' fuel st = Some st1.
Proof.
  intros Hp. induction n as [|n IH]; intros st fuel Hn Hfuel;
    (destruct fuel as [|fuel]; [lia|]);
    destruct (Success st) eqn:Hs;
    try (exists st; apply readLoop_after_failure; exact Hs);
    destruct (empty (Reader st)) eqn:Ee;
    try (exists st; apply readLoop_at_end; exact Ee);
    rewrite (readLoop_round _ st Ee Hs);
    pose proof (readAtom_spec st Hs) as A;
    destruct (fatalCondition st) eqn:Ef; destruct A as [A1 A2];
    try (exists (readAtom' st); apply readLoop_after_failure; exact A1);
    pose proof (Hp st Hs Ee Ef) as Hlt.
  - lia.
  - apply IH; lia.
Qed.


End DriverFailure.

(** * Annotations in the stream *)

(** ** Induction on expressions and their annotations *)

Section NestedInduction.
Variable P : SExpr -> Prop.
Variable Q : Annotation -> Prop.
Hypothesis P_Node : forall Op Sc As Ans,
  Forall P As -> Forall Q Ans -> P (Node Op Sc As Ans).
Hypothesis Q_Annot : forall K Pl Ss, Forall P Ss -> Q (Annot K Pl Ss).

Fixpoint SExpr_nested_ind (E : SExpr) : P E :=
  match E with
  | Node Op Sc As Ans =>
      P_Node Op Sc As Ans
        ((fix all (l : list SExpr) : Forall P l :=
            match l with
            | [] => Forall_nil P
            | x :: t => Forall_cons x (SExpr_nested_ind x) (all t)
            end) As)
        ((fix all (l : list Annotation) : Forall Q l :=
            match l with
            | [] => Forall_nil Q
            | x :: t => Forall_cons x (Annotation_nested_ind x) (all t)
            end) Ans)
  end
with Annotation_nested_ind (A : Annotation) : Q A :=
  match A with
  | Annot K Pl Ss =>
      Q_Annot K Pl Ss
        ((fix all (l : list SExpr) : Forall P l :=
            match l with
            | [] => Forall_nil P
            | x :: t => Forall_cons x (SExpr_nested_ind x) (all t)
            end) Ss)
  end.

End NestedInduction.

(** ** What the traversal records *)

(** The atom of a node: its opcode field, its scalar fields, the end
    mark. *)
Definition nodeAtom (E : SExpr) : list Item :=
  IField (FBits32 (to_unsigned 8 (to_unsigned 32 (PSOP_Last + opcode E))) 6)
  :: map IField (scalars E) ++ [IEndAtom].

(** The atom of an annotation: the [PSOP_Annotation] marker in 6 bits,
    the kind in 8 bits, the payload, the end mark. *)
Definition annotationAtom (A : Annotation) : list Item :=
  IField (FBits32 PSOP_Annotation 6)
  :: IField (FBits32 (kind A) 8)
  :: map IField (payload A) ++ [IEndAtom].

(** The whole record of an expression: the children, the node's atom,
    then every annotation in the order of the list, each after the
    sub-expressions it holds. *)
Fixpoint emit (E : SExpr) : list Item :=
  match E with
  | Node Op Sc As Ans =>
      flat_map emit As ++ nodeAtom (Node Op Sc As Ans)
      ++ flat_map emitAnnotation Ans
  end
with emitAnnotation (A : Annotation) : list Item :=
  match A with
  | Annot K Pl Ss => flat_map emit Ss ++ annotationAtom (Annot K Pl Ss)
  end.

(** The number of atoms in the record. *)
Fixpoint atoms (E : SExpr) : nat :=
  match E with
  | Node _ _ As Ans =>
      list_sum (map atoms As) + 1 + list_sum (map atomsAnnotation Ans)
  end
with atomsAnnotation (A : Annotation) : nat :=
  match A with
  | Annot _ _ Ss => list_sum (map atoms Ss) + 1
  end.

Lemma fold_left_record (f : list Item -> Field -> list Item) fs log :
  (forall l x, f l x = l ++ [IField x]) ->
  fold_left f fs log = log ++ map IField fs.
Proof.
  intros Hf. revert log. induction fs as [|x t IH]; intros log; cbn [fold_left map].
  - now rewrite app_nil_r.
  - rewrite IH, Hf, <- app_assoc. reflexivity.
Qed.

Lemma writeField_record log f : writeField log f = log ++ [IField f].
Proof. destruct f; reflexivity. Qed.

Lemma fold_traverse_record (Es : list SExpr) :
  Forall (fun E => forall log, traverse E log = log ++ emit E) Es ->
  forall log,
    fold_left (fun w0 a => traverse a w0) Es log = log ++ flat_map emit Es.
Proof.
  induction 1 as [|E Es HE _ IH]; intros log; cbn [fold_left flat_map].
  - now rewrite app_nil_r.
  - rewrite HE, IH, <- app_assoc. reflexivity.
Qed.

Lemma reduce_record E log :
  reduce E log
  = log ++ IField (FBits32 (to_unsigned 8 (to_unsigned 32 (PSOP_Last + opcode E))) 6)
            :: map IField (scalars E).
Proof.
  unfold reduce. rewrite (fold_left_record _ _ _ writeField_record).
  unfold writeOpcode, writePseudoOpcode, writeFlag. cbv zeta.
  change (getBitSize F_PseudoOpcode) with 6.
  cbn [writeBits32 Recorder]. now rewrite <- app_assoc.
Qed.

Lemma reduceAnnotationT_record A log :
  reduceAnnotationT A log
  = log ++ IField (FBits32 PSOP_Annotation 6)
           :: IField (FBits32 (kind A) 8) :: map IField (payload A).
Proof.
  unfold reduceAnnotationT, serialize. cbv zeta.
  rewrite (fold_left_record _ _ _ writeField_record).
  unfold writePseudoOpcode, writeFlag.
  change (getBitSize F_PseudoOpcode) with 6.
  change (getBitSize F_TIL_AnnKind) with 8.
  cbn [writeBits32 Recorder]. now rewrite <- !app_assoc.
Qed.

Lemma traverseAnnotation_unfold (A : Annotation) (log : list Item) :
  traverseAnnotation A log = Annotation_traverse traverse A log.
Proof. destruct A; reflexivity. Qed.

Lemma traverse_unfold (E : SExpr) (log : list Item) :
  traverse E log
  = fold_left (fun w0 A => endAtom (traverseAnnotation A w0)) (annotations E)
      (endAtom (SuperTv_traverse traverse E log)).
Proof. destruct E; reflexivity. Qed.

Lemma fold_annotations_record (Ans : list Annotation) :
  Forall (fun A => forall log,
            traverseAnnotation A log ++ [IEndAtom] = log ++ emitAnnotation A) Ans ->
  forall log,
    fold_left (fun w0 A => endAtom (traverseAnnotation A w0)) Ans log
    = log ++ flat_map emitAnnotation Ans.
Proof.
  induction 1 as [|A Ans HA _ IH]; intros log; cbn [fold_left flat_map].
  - now rewrite app_nil_r.
  - cbn [endAtom Recorder]. rewrite HA, IH, <- app_assoc. reflexivity.
Qed.

(** The traversal appends the record of the expression to the record. *)
Lemma traverse_record (E : SExpr) :
  forall log : list Item, traverse E log = log ++ emit E.
Proof.
  apply (SExpr_nested_ind
           (fun E => forall log : list Item, traverse E log = log ++ emit E)
           (fun A => forall log : list Item,
              traverseAnnotation A log ++ [IEndAtom] = log ++ emitAnnotation A)).
  - intros Op Sc As Ans HAs HAns log.
    rewrite traverse_unfold. cbn [annotations].
    rewrite (fold_annotations_record Ans HAns).
    unfold SuperTv_traverse. cbn [args].
    rewrite (fold_traverse_record As HAs), reduce_record.
    cbn [endAtom Recorder emit]. unfold nodeAtom.
    rewrite <- !app_assoc. cbn [app]. rewrite <- !app_assoc. reflexivity.
  - intros K Pl Ss HSs log.
    rewrite traverseAnnotation_unfold. unfold Annotation_traverse. cbn [subExprs].
    rewrite (fold_traverse_record Ss HSs), reduceAnnotationT_record.
    cbn [emitAnnotation]. unfold annotationAtom.
    rewrite <- !app_assoc. cbn [app]. reflexivity.
Qed.

(** ** Reading the record back *)

Lemma takeFields_map (fs : list Field) (rest : list Item) :
  takeFields (map IField fs ++ IEndAtom :: rest) = (fs, IEndAtom :: rest).
Proof.
  induction fs as [|f fs IH]; cbn [map app takeFields]; [reflexivity|].
  now rewrite IH.
Qed.

Lemma takeFields_atom (fs : list Field) (rest : list Item) :
  takeFields ((map IField fs ++ [IEndAtom]) ++ rest) = (fs, IEndAtom :: rest).
Proof. rewrite <- app_assoc. apply takeFields_map. Qed.

Lemma skipn_app_exact {A : Type} (S0 As : list A) :
  skipn (length (S0 ++ As) - length As) (S0 ++ As) = As.
Proof.
  rewrite length_app.
  replace (length S0 + length As - length As)%nat with (length S0 + 0)%nat by lia.
  rewrite skipn_app, Nat.add_0_r, skipn_all.
  replace (length S0 - length S0)%nat with 0%nat by lia. reflexivity.
Qed.

Lemma firstn_app_exact {A : Type} (S0 As : list A) :
  firstn (length (S0 ++ As) - length As) (S0 ++ As) = S0.
Proof.
  rewrite length_app.
  replace (length S0 + length As - length As)%nat with (length S0 + 0)%nat by lia.
  rewrite firstn_app_2. cbn [firstn]. now rewrite app_nil_r.
Qed.

Lemma sent_opcode_read (Op : Z) :
  0 <= Op -> PSOP_Last + Op < 64 ->
  to_unsigned 8 (to_unsigned 6 (to_unsigned 32
     (to_unsigned 8 (to_unsigned 32 (PSOP_Last + Op))))) = PSOP_Last + Op.
Proof.
  intros H0 H1. unfold to_unsigned, PSOP_Last in *.
  change (2 ^ 8) with 256. change (2 ^ 6) with 64. change (2 ^ 32) with 4294967296.
  rewrite (Z.mod_small (9 + Op) 4294967296) by lia.
  rewrite (Z.mod_small (9 + Op) 256) by lia.
  rewrite (Z.mod_small (9 + Op) 4294967296) by lia.
  rewrite (Z.mod_small (9 + Op) 64) by lia.
  apply Z.mod_small. lia.
Qed.

Lemma sent_kind_read (K : Z) :
  0 <= K -> K < 256 -> to_unsigned 8 (to_unsigned 32 K) = K.
Proof.
  intros H0 H1. unfold to_unsigned.
  change (2 ^ 8) with 256. change (2 ^ 32) with 4294967296.
  rewrite (Z.mod_small K 4294967296) by lia.
  apply Z.mod_small. lia.
Qed.

Section Decoding.
Variable arity : Z -> nat.
Variable annArity : Z -> nat.
Variable readMarker : Z -> BytecodeReader (list Item) -> BytecodeReader (list Item).

(** The expressions the format can carry: an opcode within the 6 bits of
    the opcode field, as many operands as the opcode takes, a kind within
    8 bits, as many sub-expressions as the kind takes. *)
Fixpoint wf (E : SExpr) : bool :=
  match E with
  | Node Op _ As Ans =>
      (0 <=? Op) && (PSOP_Last + Op <? 64) && (length As =? arity Op)%nat
      && forallb wf As && forallb wfAnnotation Ans
  end
with wfAnnotation (A : Annotation) : bool :=
  match A with
  | Annot K _ Ss =>
      (0 <=? K) && (K <? 256) && (length Ss =? annArity K)%nat && forallb wf Ss
  end.

(** The reader on a played-back record: every opcode is one the reader
    knows, the scalar fields of a node and the payload of an annotation
    are what is left of the atom, and a record played back has no
    [Error] flag to set. *)
Definition playSExpr : BytecodeReader (list Item) -> BytecodeReader (list Item) :=
  readSExpr (fun _ => true) arity annArity (fun _ => takeFields) (fun _ => takeFields) readMarker.

Definition playLoop : nat -> BytecodeReader (list Item) -> option (BytecodeReader (list Item)) :=
  readLoop (fun _ => true) arity annArity (fun _ => takeFields) (fun _ => takeFields) readMarker
    (fun _ => false).

Definition playRead : nat -> BytecodeReader (list Item)
                      -> option (option SExpr * BytecodeReader (list Item)) :=
  read (fun _ => true) arity annArity (fun _ => takeFields) (fun _ => takeFields) readMarker
    (fun _ => false).

(** The state with [rest] left to read and [S0] on the stack. *)
Definition during (rest : list Item) (S0 : list SExpr)
                  (st : BytecodeReader (list Item)) : BytecodeReader (list Item) :=
  setReader rest (setStack S0 st).

Lemma playLoop_step k st :
  empty (Reader st) = false -> Success st = true ->
  playLoop (S k) st
  = playLoop k (setReader (readEndAtom (Reader (playSExpr st))) (playSExpr st)).
Proof.
  intros He Hs. unfold playLoop. cbn [readLoop]. unfold success.
  rewrite He, Hs. cbn [negb andb]. unfold readAtom. cbv zeta.
  rewrite andb_false_r. reflexivity.
Qed.

Lemma playSExpr_node Op Sc As Ans rest S0 st :
  0 <= Op -> PSOP_Last + Op < 64 -> length As = arity Op ->
  playSExpr (during (nodeAtom (Node Op Sc As Ans) ++ rest) (S0 ++ As) st)
  = during (IEndAtom :: rest) (S0 ++ [Node Op Sc As []]) st.
Proof.
  intros H0 H1 Hn. destruct st. unfold playSExpr, readSExpr, during, setReader, setStack.
  cbn [Reader Success Cerr CurrentInstrID CurrentArg CFGStackSize Stack Vars Blocks Instrs].
  unfold nodeAtom, readPseudoOpcode, readFlag. cbn [opcode scalars app].
  change (getBitSize F_PseudoOpcode) with 6.
  cbn [readBits32 Playback playBits32]. change (6 =? 6) with true. cbv iota.
  cbn [castTo]. rewrite (sent_opcode_read Op H0 H1).
  assert (Hr : isRealOpcode (PSOP_Last + Op) = true)
    by (unfold isRealOpcode; apply Z.leb_le; lia).
  rewrite Hr. unfold getOpcode. replace (PSOP_Last + Op - PSOP_Last) with Op by lia.
  unfold readSExprByType.
  cbn [Reader Success Cerr CurrentInstrID CurrentArg CFGStackSize Stack Vars Blocks Instrs].
  rewrite takeFields_atom. unfold setReader, push, drop, lastArgs, setStack.
  cbn [Reader Success Cerr CurrentInstrID CurrentArg CFGStackSize Stack Vars Blocks Instrs].
  rewrite <- Hn.
  assert (Hl : (length (S0 ++ As) <? length As)%nat = false)
    by (apply Nat.ltb_ge; rewrite length_app; lia).
  rewrite Hl, skipn_app_exact, firstn_app_exact. reflexivity.
Qed.

Lemma playSExpr_annotation K Pl Ss rest S0 E0 st :
  0 <= K -> K < 256 -> length Ss = annArity K ->
  playSExpr (during (annotationAtom (Annot K Pl Ss) ++ rest) ((S0 ++ [E0]) ++ Ss) st)
  = during (IEndAtom :: rest) (S0 ++ [addAnnotation (Annot K Pl Ss) E0]) st.
Proof.
  intros H0 H1 Hn. destruct st. unfold playSExpr, readSExpr, during, setReader, setStack.
  cbn [Reader Success Cerr CurrentInstrID CurrentArg CFGStackSize Stack Vars Blocks Instrs].
  unfold annotationAtom, readPseudoOpcode, readFlag. cbn [kind payload app].
  change (getBitSize F_PseudoOpcode) with 6.
  cbn [readBits32 Playback playBits32]. change (6 =? 6) with true. cbv iota.
  change (castTo F_PseudoOpcode (to_unsigned 6 (to_unsigned 32 PSOP_Annotation)))
    with PSOP_Annotation.
  change (isRealOpcode PSOP_Annotation) with false.
  change (PSOP_Annotation =? PSOP_Annotation) with true. cbv iota.
  unfold readAnnotation, readFlag, setReader.
  cbn [Reader Success Cerr CurrentInstrID CurrentArg CFGStackSize Stack Vars Blocks Instrs].
  change (getBitSize F_TIL_AnnKind) with 8.
  cbn [readBits32 Playback playBits32]. change (8 =? 8) with true. cbv iota.
  cbn [castTo]. rewrite (sent_kind_read K H0 H1).
  unfold readAnnotationByKind.
  cbn [Reader Success Cerr CurrentInstrID CurrentArg CFGStackSize Stack Vars Blocks Instrs].
  rewrite takeFields_atom. unfold setReader, push, drop, lastArgs, arg, setStack.
  cbn [Reader Success Cerr CurrentInstrID CurrentArg CFGStackSize Stack Vars Blocks Instrs].
  rewrite <- Hn.
  assert (Hl : (length ((S0 ++ [E0]) ++ Ss) <? length Ss)%nat = false)
    by (apply Nat.ltb_ge; rewrite length_app; lia).
  rewrite Hl, skipn_app_exact, firstn_app_exact.
  assert (Ht : (0 <? length (S0 ++ [E0]))%nat = true)
    by (apply Nat.ltb_lt; rewrite length_app; cbn [length]; lia).
  rewrite Ht.
  assert (Hx : nth_error (S0 ++ [E0]) (length (S0 ++ [E0]) - 1 - 0) = Some E0).
  { rewrite length_app. cbn [length].
    replace (length S0 + 1 - 1 - 0)%nat with (length S0) by lia.
    rewrite nth_error_app2 by lia. now rewrite Nat.sub_diag. }
  rewrite Hx.
  change 1%nat with (length [E0]). rewrite firstn_app_exact. reflexivity.
Qed.

Lemma playLoop_node Op Sc As Ans k rest S0 st :
  0 <= Op -> PSOP_Last + Op < 64 -> length As = arity Op -> Success st = true ->
  playLoop (S k) (during (nodeAtom (Node Op Sc As Ans) ++ rest) (S0 ++ As) st)
  = playLoop k (during rest (S0 ++ [Node Op Sc As []]) st).
Proof.
  intros H0 H1 Hn Hs. rewrite playLoop_step.
  - rewrite playSExpr_node by assumption. destruct st; reflexivity.
  - destruct st; reflexivity.
  - destruct st; exact Hs.
Qed.

Lemma playLoop_annotation K Pl Ss k rest S0 E0 st :
  0 <= K -> K < 256 -> length Ss = annArity K -> Success st = true ->
  playLoop (S k) (during (annotationAtom (Annot K Pl Ss) ++ rest) ((S0 ++ [E0]) ++ Ss) st)
  = playLoop k (during rest (S0 ++ [addAnnotation (Annot K Pl Ss) E0]) st).
Proof.
  intros H0 H1 Hn Hs. rewrite playLoop_step.
  - rewrite playSExpr_annotation by assumption. destruct st; reflexivity.
  - destruct st; reflexivity.
  - destruct st; exact Hs.
Qed.

Lemma list_sum_cons (x : nat) (l : list nat) :
  list_sum (x :: l) = (x + list_sum l)%nat.
Proof. reflexivity. Qed.

(** An expression is read back whole. *)
Definition readsBack (E : SExpr) : Prop :=
  wf E = true ->
  forall k rest S0 st, Success st = true ->
    playLoop (atoms E + k) (during (emit E ++ rest) S0 st)
    = playLoop k (during rest (S0 ++ [E]) st).

(** An annotation is read back onto the expression on top of the stack. *)
Definition joinsBack (A : Annotation) : Prop :=
  wfAnnotation A = true ->
  forall k rest S0 E0 st, Success st = true ->
    playLoop (atomsAnnotation A + k) (during (emitAnnotation A ++ rest) (S0 ++ [E0]) st)
    = playLoop k (during rest (S0 ++ [addAnnotation A E0]) st).

Lemma readsBack_list (Es : list SExpr) :
  Forall readsBack Es -> forallb wf Es = true ->
  forall k rest S0 st, Success st = true ->
    playLoop (list_sum (map atoms Es) + k) (during (flat_map emit Es ++ rest) S0 st)
    = playLoop k (during rest (S0 ++ Es) st).
Proof.
  induction 1 as [|E Es HE _ IH]; intros Hw k rest S0 st Hs;
    cbn [map flat_map app].
  - now rewrite app_nil_r.
  - rewrite list_sum_cons. cbn [forallb] in Hw. apply andb_prop in Hw. destruct Hw as [Hw1 Hw2].
    rewrite <- Nat.add_assoc, <- app_assoc, (HE Hw1) by exact Hs.
    rewrite (IH Hw2) by exact Hs. rewrite <- app_assoc. reflexivity.
Qed.

Lemma joinsBack_list (Ans : list Annotation) :
  Forall joinsBack Ans -> forallb wfAnnotation Ans = true ->
  forall k rest S0 E0 st, Success st = true ->
    playLoop (list_sum (map atomsAnnotation Ans) + k)
             (during (flat_map emitAnnotation Ans ++ rest) (S0 ++ [E0]) st)
    = playLoop k (during rest
                    (S0 ++ [fold_left (fun e a => addAnnotation a e) Ans E0]) st).
Proof.
  induction 1 as [|A Ans HA _ IH]; intros Hw k rest S0 E0 st Hs;
    cbn [map flat_map app fold_left].
  - reflexivity.
  - rewrite list_sum_cons. cbn [forallb] in Hw. apply andb_prop in Hw. destruct Hw as [Hw1 Hw2].
    rewrite <- Nat.add_assoc, <- app_assoc, (HA Hw1) by exact Hs.
    now rewrite (IH Hw2) by exact Hs.
Qed.

Lemma addAnnotation_all Op Sc As (Ans A0 : list Annotation) :
  fold_left (fun e a => addAnnotation a e) Ans (Node Op Sc As A0)
  = Node Op Sc As (A0 ++ Ans).
Proof.
  revert A0. induction Ans as [|A Ans IH]; intros A0; cbn [fold_left].
  - now rewrite app_nil_r.
  - cbn [addAnnotation]. rewrite IH, <- app_assoc. reflexivity.
Qed.

Lemma wf_readsBack (E : SExpr) : readsBack E.
Proof.
  apply (SExpr_nested_ind readsBack joinsBack).
  - intros Op Sc As Ans HAs HAns Hw k rest S0 st Hs.
    cbn [wf] in Hw.
    apply andb_prop in Hw. destruct Hw as [Hw Hw5].
    apply andb_prop in Hw. destruct Hw as [Hw Hw4].
    apply andb_prop in Hw. destruct Hw as [Hw Hw3].
    apply andb_prop in Hw. destruct Hw as [Hw1 Hw2].
    apply Z.leb_le in Hw1. apply Z.ltb_lt in Hw2. apply Nat.eqb_eq in Hw3.
    cbn [atoms emit].
    rewrite <- !Nat.add_assoc, <- !app_assoc.
    rewrite (readsBack_list As HAs Hw4) by exact Hs.
    cbn [Nat.add].
    rewrite playLoop_node by assumption.
    rewrite (joinsBack_list Ans HAns Hw5) by exact Hs.
    rewrite addAnnotation_all. reflexivity.
  - intros K Pl Ss HSs Hw k rest S0 E0 st Hs.
    cbn [wfAnnotation] in Hw.
    apply andb_prop in Hw. destruct Hw as [Hw Hw4].
    apply andb_prop in Hw. destruct Hw as [Hw Hw3].
    apply andb_prop in Hw. destruct Hw as [Hw1 Hw2].
    apply Z.leb_le in Hw1. apply Z.ltb_lt in Hw2. apply Nat.eqb_eq in Hw3.
    cbn [atomsAnnotation emitAnnotation].
    rewrite <- !Nat.add_assoc, <- !app_assoc.
    rewrite (readsBack_list Ss HSs Hw4) by exact Hs.
    cbn [Nat.add].
    rewrite playLoop_annotation by assumption. reflexivity.
Qed.

Lemma emitAnnotation_atom (A : Annotation) :
  emitAnnotation A
  = flat_map emit (subExprs A)
    ++ IField (FBits32 PSOP_Annotation 6)
       :: IField (FBits32 (kind A) 8) :: map IField (payload A) ++ [IEndAtom].
Proof. destruct A; reflexivity. Qed.

Lemma playLoop_done k S0 st :
  playLoop k (during [] S0 st) = Some (during [] S0 st).
Proof. destruct st, k; reflexivity. Qed.


End Decoding.

(** * A sample tree and a sample failure *)

(** Opcode 1 takes two operands and every other opcode none; annotation
    kind 2 holds one sub-expression and every other kind none; the
    markers other than [PSOP_Annotation] leave the state as it is. *)
Definition sampleArity (Op : Z) : nat := if Op =? 1 then 2%nat else 0%nat.
Definition sampleAnnArity (K : Z) : nat := if K =? 2 then 1%nat else 0%nat.
Definition sampleMarker (Psop : Z) (st : BytecodeReader (list Item))
  : BytecodeReader (list Item) := st.

(** A binary node over two leaves, the second leaf annotated, with three
    annotations of its own, the middle one holding a sub-expression. *)
Definition sampleTree : SExpr :=
  Node 1 [FVbr32 7]
    [ Node 0 [FBits32 1 1] [] [];
      Node 3 [] [] [Annot 0 [FVbr64 5] []] ]
    [ Annot 0 [FVbr32 3] [];
      Annot 2 [] [Node 0 [] [] []];
      Annot 1 [FVbr64 99] [] ].

(** The reader knows the opcodes 0, 1, 2 and 3. *)
Definition sampleKnown (Op : Z) : bool := (0 <=? Op) && (Op <=? 3).

(** The scalar fields of the sample opcodes: a 64-bit integer for
    opcode 2, none for the others; annotations without payload; markers
    that leave the reader as it is. *)
Definition sampleScalars (Op : Z) (r : ByteStream.ByteStreamReader)
  : list Field * ByteStream.ByteStreamReader :=
  if Op =? 2 then let '(V, r') := readUInt64 r in ([FVbr64 V], r') else ([], r).

Definition samplePayload (Ak : Z) (r : ByteStream.ByteStreamReader)
  : list Field * ByteStream.ByteStreamReader := ([], r).

Definition sampleMarkers (Psop : Z) (st : BytecodeReader ByteStream.ByteStreamReader)
  : MarkerResult ByteStream.ByteStreamReader :=
  Continue (Reader st) (Stack st) (Vars st) (Blocks st) (Instrs st)
           (CurrentInstrID st) (CurrentArg st) (CFGStackSize st).

(** A stream cut short in a 64-bit integer: the atom of a leaf (code 9
    in its own byte), then the code of opcode 2 and the start of its
    integer, a continuation flag and one bit of the first group, where
    the stream ends. *)
Definition sampleTruncated : BytecodeReader ByteStream.ByteStreamReader :=
  newBytecodeReader
    {| ByteStream.rBufferLen := 2; ByteStream.rPos := 0; ByteStream.rBit := 0;
       ByteStream.rEof := true; ByteStream.rError := false;
       ByteStream.rBuffer := [9; 75] |}.



(** * The in-memory transports *)

(** ** [InMemoryReader] *)

Module InMemoryReader.

(** The members [SourcePos], [SourceSize] and [SourceBuffer]; the arena
    serves [allocStringData] only.  A byte is an integer.  The
    constructor sets [SourcePos(0), SourceSize(Sz), SourceBuffer(Buf)]
    and then calls [refill()] of the base class, which the header only
    declares and which reads through [readData]; it is not modelled, and
    what follows is about [readData] on any state of the members. *)
Record InMemoryReader : Type := mkInMemoryReader {
  SourcePos : Z;
  SourceSize : Z;
  SourceBuffer : list Z
}.

(** [int totalLength() { return SourceSize - SourcePos; }] *)
Definition totalLength (s : InMemoryReader) : Z := SourceSize s - SourcePos s.

(** [memcpy(Buf, SourceBuffer + SourcePos, Sz)]: the [Sz] bytes from
    offset [Pos] on, as they arrive in [Buf]. *)
Definition memcpy (Src : list Z) (Pos Sz : Z) : list Z :=
  firstn (Z.to_nat Sz) (skipn (Z.to_nat Pos) Src).

(** [virtual int64_t readData(void *Buf, int64_t Sz) override {
      if (Sz > totalLength())
        Sz = totalLength();
      memcpy(Buf, SourceBuffer + SourcePos, Sz);
      SourcePos += Sz;
      return Sz;
    }]
    The result: what was copied into [Buf], the value returned, and
    the reader afterwards. *)
Definition readData (Sz : Z) (s : InMemoryReader) : list Z * Z * InMemoryReader :=
  let Sz1 := if Sz >? totalLength s then totalLength s else Sz in
  (memcpy (SourceBuffer s) (SourcePos s) Sz1,
   Sz1,
   {| SourcePos := SourcePos s + Sz1;
      SourceSize := SourceSize s;
      SourceBuffer := SourceBuffer s |}).

(** Successive calls of [readData], one for each size asked, and the
    blocks they deliver. *)
Fixpoint readBlocks (sizes : list Z) (s : InMemoryReader)
  : list (list Z) * InMemoryReader :=
  match sizes with
  | [] => ([], s)
  | Sz :: rest =>
      let '(data, _, s1) := readData Sz s in
      let '(blocks, s2) := readBlocks rest s1 in
      (data :: blocks, s2)
  end.

(** The reader is within its source: the position lies between 0 and the
    size given to the constructor, which the buffer covers. *)
Definition within (s : InMemoryReader) : Prop :=
  0 <= SourcePos s <= SourceSize s
  /\ SourceSize s <= Z.of_nat (length (SourceBuffer s)).

(** What the source still holds. *)
Definition pending (s : InMemoryReader) : list Z :=
  memcpy (SourceBuffer s) (SourcePos s) (totalLength s).

End InMemoryReader.

(** ** [BytecodeStringWriter] *)

Module BytecodeStringWriter.

(** The member [Buffer], a string stream, as the bytes put into it. *)
Record BytecodeStringWriter : Type := mkBytecodeStringWriter {
  Buffer : list Z
}.

(** The writer as constructed: the string stream is empty. *)
Definition init : BytecodeStringWriter := {| Buffer := [] |}.

(** [virtual void writeData(const void *Buf, int64_t Size) override {
      Buffer.write(static_cast<const char *>(Buf), Size);
    }] *)
Definition writeData (Buf : list Z) (Size : Z) (s : BytecodeStringWriter)
  : BytecodeStringWriter :=
  {| Buffer := Buffer s ++ firstn (Z.to_nat Size) Buf |}.

(** [std::string str() { return Buffer.str(); }] *)
Definition str (s : BytecodeStringWriter) : list Z := Buffer s.

End BytecodeStringWriter.

(** ** Reading from memory *)

Section InMemoryReading.
Import InMemoryReader.

Lemma readData_min (Sz : Z) (s : InMemoryReader) :
  readData Sz s
  = (memcpy (SourceBuffer s) (SourcePos s) (Z.min Sz (totalLength s)),
     Z.min Sz (totalLength s),
     {| SourcePos := SourcePos s + Z.min Sz (totalLength s);
        SourceSize := SourceSize s;
        SourceBuffer := SourceBuffer s |}).
Proof.
  unfold readData. cbv zeta.
  destruct (Sz >? totalLength s) eqn:E.
  - apply Z.gtb_lt in E. now rewrite Z.min_r by lia.
  - rewrite Z.gtb_ltb in E. apply Z.ltb_ge in E. now rewrite Z.min_l by lia.
Qed.

Lemma memcpy_length (s : InMemoryReader) (n : Z) :
  within s -> 0 <= n <= totalLength s ->
  length (memcpy (SourceBuffer s) (SourcePos s) n) = Z.to_nat n.
Proof.
  intros [Hp Hb] Hn. unfold memcpy, totalLength in *.
  apply firstn_length_le. rewrite length_skipn. lia.
Qed.

Lemma memcpy_pending (s : InMemoryReader) (n : Z) :
  n <= totalLength s ->
  memcpy (SourceBuffer s) (SourcePos s) n = firstn (Z.to_nat n) (pending s).
Proof.
  intros Hn. unfold pending, memcpy. rewrite firstn_firstn.
  now rewrite Nat.min_l by lia.
Qed.

Lemma pending_split (s : InMemoryReader) (n : Z) :
  within s -> 0 <= n <= totalLength s ->
  pending s
  = memcpy (SourceBuffer s) (SourcePos s) n
    ++ pending {| SourcePos := SourcePos s + n;
                  SourceSize := SourceSize s;
                  SourceBuffer := SourceBuffer s |}.
Proof.
  intros [Hp Hb] Hn. unfold pending, memcpy, totalLength in *.
  cbn [SourcePos SourceSize SourceBuffer].
  replace (Z.to_nat (SourceSize s - SourcePos s))
    with (Z.to_nat n + Z.to_nat (SourceSize s - (SourcePos s + n)))%nat by lia.
  rewrite ByteStream.firstn_plus, skipn_skipn.
  replace (Z.to_nat n + Z.to_nat (SourcePos s))%nat
    with (Z.to_nat (SourcePos s + n)) by lia.
  reflexivity.
Qed.

Lemma within_advance (s : InMemoryReader) (n : Z) :
  within s -> 0 <= n <= totalLength s ->
  within {| SourcePos := SourcePos s + n;
            SourceSize := SourceSize s;
            SourceBuffer := SourceBuffer s |}.
Proof.
  intros [Hp Hb] Hn. unfold within, totalLength in *.
  cbn [SourcePos SourceSize SourceBuffer]. lia.
Qed.

Lemma pending_length (s : InMemoryReader) :
  within s -> Z.of_nat (length (pending s)) = totalLength s.
Proof.
  intros H. unfold pending.
  rewrite (memcpy_length s (totalLength s) H);
    destruct H as [Hp Hb]; unfold totalLength in *; lia.
Qed.

(** X1.  [InMemoryReader::readData] never reads past the end of its
    source: a call for [Sz] bytes delivers the next [min(Sz, left)] bytes
    of the source, returns that count and advances by it, so the reader
    stays within the source, and it returns fewer bytes than asked
    exactly when the source held fewer. *)
Theorem in_memory_read_is_bounded
    (Sz : Z) (s s' : InMemoryReader) (data : list Z) (n : Z) :
  within s -> 0 <= Sz ->
  readData Sz s = (data, n, s') ->
  n = Z.min Sz (totalLength s)
  /\ Z.of_nat (length data) = n
  /\ pending s = data ++ pending s'
  /\ SourcePos s' = SourcePos s + n
  /\ totalLength s' = totalLength s - n
  /\ within s'
  /\ (n < Sz <-> totalLength s < Sz).
Proof.
  intros Hw HSz E. rewrite readData_min in E. injection E as <- <- <-.
  assert (Ht : 0 <= totalLength s) by (destruct Hw; unfold totalLength; lia).
  assert (Hn : 0 <= Z.min Sz (totalLength s) <= totalLength s) by lia.
  split; [reflexivity|]. split; [|split; [|split; [|split; [|split]]]].
  - rewrite (memcpy_length s _ Hw Hn). lia.
  - apply pending_split; assumption.
  - reflexivity.
  - unfold totalLength. cbn [SourcePos SourceSize]. lia.
  - apply within_advance; assumption.
  - lia.
Qed.

(** X2.  Two reads in a row deliver what one read of the two sizes
    together delivers: the same bytes, the same count, the same reader
    afterwards. *)
Theorem in_memory_reads_compose (a b : Z) (s : InMemoryReader) :
  within s -> 0 <= a -> 0 <= b ->
  let r1 := readData a s in
  let r2 := readData b (snd r1) in
  readData (a + b) s
  = (fst (fst r1) ++ fst (fst r2), snd (fst r1) + snd (fst r2), snd r2).
Proof.
  intros Hw Ha Hb r1 r2. subst r1 r2. rewrite !readData_min.
  cbn [fst snd SourcePos SourceSize SourceBuffer].
  assert (Ht : 0 <= totalLength s) by (destruct Hw; unfold totalLength; lia).
  set (n1 := Z.min a (totalLength s)).
  set (s1 := {| SourcePos := SourcePos s + n1; SourceSize := SourceSize s;
                SourceBuffer := SourceBuffer s |}).
  assert (H1 : 0 <= n1 <= totalLength s) by (subst n1; lia).
  assert (Ht1 : totalLength s1 = totalLength s - n1)
    by (unfold totalLength; subst s1; cbn [SourcePos SourceSize]; lia).
  set (n2 := Z.min b (totalLength s1)).
  assert (H2 : 0 <= n2 <= totalLength s1) by (subst n2; lia).
  assert (Hn : Z.min (a + b) (totalLength s) = n1 + n2) by (subst n1 n2; lia).
  rewrite Hn. f_equal; [f_equal|].
  - unfold memcpy.
    replace (Z.to_nat (n1 + n2)) with (Z.to_nat n1 + Z.to_nat n2)%nat by lia.
    rewrite ByteStream.firstn_plus, skipn_skipn.
    replace (Z.to_nat n1 + Z.to_nat (SourcePos s))%nat
      with (Z.to_nat (SourcePos s + n1)) by (destruct Hw; lia).
    reflexivity.
  - f_equal. lia.
Qed.

Lemma readData_step (Sz : Z) (s s' : InMemoryReader) (data : list Z) (n : Z) :
  within s -> 0 <= Sz ->
  readData Sz s = (data, n, s') ->
  n = Z.min Sz (totalLength s)
  /\ Z.of_nat (length data) = n
  /\ pending s = data ++ pending s'
  /\ within s'
  /\ totalLength s' = totalLength s - n.
Proof.
  intros Hw HSz E. rewrite readData_min in E. injection E as <- <- <-.
  assert (Ht : 0 <= totalLength s) by (destruct Hw; unfold totalLength; lia).
  assert (Hn : 0 <= Z.min Sz (totalLength s) <= totalLength s) by lia.
  split; [reflexivity|]. split; [|split; [|split]].
  - rewrite (memcpy_length s _ Hw Hn). lia.
  - apply pending_split; assumption.
  - apply within_advance; assumption.
  - unfold totalLength. cbn [SourcePos SourceSize]. lia.
Qed.

Lemma readBlocks_spec (sizes : list Z) : forall s : InMemoryReader,
  within s -> Forall (fun Sz => 0 <= Sz) sizes ->
  pending s = concat (fst (readBlocks sizes s)) ++ pending (snd (readBlocks sizes s))
  /\ within (snd (readBlocks sizes s))
  /\ totalLength (snd (readBlocks sizes s))
     = totalLength s - Z.min (fold_right Z.add 0 sizes) (totalLength s)
  /\ Forall2 (fun Sz blk => Z.of_nat (length blk) <= Sz) sizes
       (fst (readBlocks sizes s)).
Proof.
  induction sizes as [|Sz rest IH]; intros s Hw Hs.
  - cbn [readBlocks fst snd concat app fold_right].
    assert (Ht : 0 <= totalLength s) by (destruct Hw; unfold totalLength; lia).
    repeat split; try assumption; try constructor; try (apply Hw); lia.
  - inversion Hs as [|? ? HSz Hrest]; subst.
    cbn [readBlocks fold_right].
    destruct (readData Sz s) as [[data n] s1] eqn:E.
    destruct (readData_step Sz s s1 data n Hw HSz E)
      as (En & El & Ep & Ew & Et).
    specialize (IH s1 Ew Hrest).
    destruct (readBlocks rest s1) as [blocks s2] eqn:E2.
    cbn [fst snd concat] in *.
    destruct IH as (Ip & Iw & It & If).
    assert (Hf : 0 <= fold_right Z.add 0 rest).
    { clear - Hrest. induction Hrest; cbn [fold_right]; lia. }
    split; [|split; [|split]].
    + rewrite Ep, Ip, app_assoc. reflexivity.
    + exact Iw.
    + rewrite It, Et. lia.
    + constructor; [lia | exact If].
Qed.

Lemma readData_at_end (Sz : Z) (s : InMemoryReader) :
  0 <= Sz -> totalLength s = 0 -> readData Sz s = ([], 0, s).
Proof.
  intros HSz Ht. rewrite readData_min, Ht, Z.min_r by lia.
  unfold memcpy. cbn [Z.to_nat firstn]. rewrite Z.add_0_r. now destruct s.
Qed.

(** X3.  However a source is read, block by block, the blocks put end to
    end are the first bytes of what the source held, as many as were
    asked for; once as many bytes were asked for as the source held,
    they are all of it, and every further read returns no byte, the
    count 0, and leaves the reader as it is. *)
Theorem in_memory_blocks_are_the_source (sizes : list Z) (s : InMemoryReader) :
  within s -> Forall (fun Sz => 0 <= Sz) sizes ->
  concat (fst (readBlocks sizes s))
  = firstn (Z.to_nat (fold_right Z.add 0 sizes)) (pending s)
  /\ (totalLength s <= fold_right Z.add 0 sizes ->
      concat (fst (readBlocks sizes s)) = pending s
      /\ forall Sz, 0 <= Sz ->
           readData Sz (snd (readBlocks sizes s))
           = ([], 0, snd (readBlocks sizes s))).
Proof.
  intros Hw Hs.
  destruct (readBlocks_spec sizes s Hw Hs) as (Ep & Ew & Et & _).
  assert (Hsum : 0 <= fold_right Z.add 0 sizes).
  { clear - Hs. induction Hs; cbn [fold_right]; lia. }
  assert (Ht : 0 <= totalLength s) by (destruct Hw; unfold totalLength; lia).
  pose proof (pending_length s Hw) as Ls.
  pose proof (pending_length _ Ew) as L2.
  assert (Lc : Z.of_nat (length (concat (fst (readBlocks sizes s))))
               = Z.min (fold_right Z.add 0 sizes) (totalLength s)).
  { apply (f_equal (@length Z)) in Ep. rewrite length_app in Ep. lia. }
  split.
  - rewrite Ep, firstn_app.
    destruct (Z.le_gt_cases (totalLength s) (fold_right Z.add 0 sizes)) as [H|H].
    + rewrite firstn_all2 by lia.
      assert (E0 : pending (snd (readBlocks sizes s)) = [])
        by (apply length_zero_iff_nil; lia).
      rewrite E0, firstn_nil, app_nil_r. reflexivity.
    + replace (Z.to_nat (fold_right Z.add 0%Z sizes)
               - length (concat (fst (readBlocks sizes s))))%nat with O by lia.
      rewrite firstn_all2 by lia. cbn [firstn]. now rewrite app_nil_r.
  - intros H. split.
    + assert (E0 : pending (snd (readBlocks sizes s)) = [])
        by (apply length_zero_iff_nil; lia).
      rewrite Ep, E0, app_nil_r. reflexivity.
    + intros Sz HSz. apply readData_at_end; [exact HSz | lia].
Qed.

Lemma str_writeData_all (blocks : list (list Z)) :
  forall w : BytecodeStringWriter.BytecodeStringWriter,
    BytecodeStringWriter.str
      (fold_left (fun w0 b => BytecodeStringWriter.writeData b (Z.of_nat (length b)) w0)
         blocks w)
    = BytecodeStringWriter.str w ++ concat blocks.
Proof.
  induction blocks as [|b blocks IH]; intros w; cbn [fold_left concat].
  - now rewrite app_nil_r.
  - rewrite IH. unfold BytecodeStringWriter.writeData, BytecodeStringWriter.str.
    cbn [BytecodeStringWriter.Buffer].
    rewrite Nat2Z.id, firstn_all, <- app_assoc. reflexivity.
Qed.

Lemma readBlocks_concat (blocks : list (list Z)) :
  forall (s : InMemoryReader) (rest : list Z),
    within s -> pending s = concat blocks ++ rest ->
    fst (readBlocks (map (fun b => Z.of_nat (length b)) blocks) s) = blocks
    /\ pending (snd (readBlocks (map (fun b => Z.of_nat (length b)) blocks) s)) = rest.
Proof.
  induction blocks as [|b blocks IH]; intros s rest Hw Ep; cbn [map readBlocks].
  - cbn [fst snd concat app] in *. now split.
  - destruct (readData (Z.of_nat (length b)) s) as [[data n] s1] eqn:E.
    pose proof (pending_length s Hw) as Ls.
    assert (Hlen : Z.of_nat (length b) <= totalLength s).
    { rewrite <- Ls, Ep. cbn [concat]. rewrite !length_app. lia. }
    pose proof E as E'. rewrite readData_min in E'.
    rewrite Z.min_l in E' by exact Hlen. injection E' as Ed En Es.
    destruct (readData_step _ s s1 data n Hw (Nat2Z.is_nonneg _) E)
      as (_ & _ & Ep1 & Ew1 & _).
    assert (Hd : data = b).
    { rewrite <- Ed, memcpy_pending by exact Hlen.
      rewrite Ep. cbn [concat]. rewrite <- app_assoc, Nat2Z.id.
      rewrite firstn_app, firstn_all, Nat.sub_diag. cbn [firstn].
      now rewrite app_nil_r. }
    clear Ed. subst data.
    assert (Ep2 : pending s1 = concat blocks ++ rest).
    { rewrite Ep1 in Ep. cbn [concat] in Ep. rewrite <- app_assoc in Ep.
      now apply app_inv_head in Ep. }
    destruct (IH s1 rest Ew1 Ep2) as [I1 I2].
    destruct (readBlocks (map (fun b0 => Z.of_nat (length b0)) blocks) s1)
      as [bs s2].
    cbn [fst snd] in *. split; [now rewrite I1 | exact I2].
Qed.

(** X4.  What [BytecodeStringWriter] was given block by block through
    [writeData] is, in the order of the calls, what [str()] returns; any
    [InMemoryReader] that is within its source and still holds exactly
    that string returns it through [readData] block by block when asked
    for the same sizes, and nothing is left in the source afterwards. *)
Theorem string_writer_to_memory_reader
    (blocks : list (list Z)) (s : InMemoryReader) :
  let w := fold_left
             (fun w0 b => BytecodeStringWriter.writeData b (Z.of_nat (length b)) w0)
             blocks BytecodeStringWriter.init in
  let sizes := map (fun b => Z.of_nat (length b)) blocks in
  within s ->
  pending s = BytecodeStringWriter.str w ->
  BytecodeStringWriter.str w = concat blocks
  /\ fst (readBlocks sizes s) = blocks
  /\ pending (snd (readBlocks sizes s)) = []
  /\ readData 1 (snd (readBlocks sizes s)) = ([], 0, snd (readBlocks sizes s)).
Proof.
  intros w sizes Hw Hp.
  assert (Esrc : BytecodeStringWriter.str w = concat blocks).
  { subst w. now rewrite str_writeData_all. }
  assert (Ep : pending s = concat blocks ++ []).
  { now rewrite Hp, Esrc, app_nil_r. }
  destruct (readBlocks_concat blocks s [] Hw Ep) as [E1 E2].
  fold sizes in E1, E2.
  split; [exact Esrc|]. split; [exact E1|]. split; [exact E2|].
  apply readData_at_end; [lia|].
  assert (Hs : Forall (fun Sz => 0 <= Sz) sizes).
  { subst sizes. apply Forall_forall. intros x Hx. apply in_map_iff in Hx.
    destruct Hx as [b [<- _]]. lia. }
  destruct (readBlocks_spec sizes s Hw Hs) as (_ & Ew & _ & _).
  rewrite <- (pending_length _ Ew), E2. reflexivity.
Qed.

End InMemoryReading.

(** A source of five bytes, two of them already read. *)
Definition sampleSource : InMemoryReader.InMemoryReader :=
  InMemoryReader.mkInMemoryReader 2 5 [10; 20; 30; 40; 50].

Lemma sampleSource_within : InMemoryReader.within sampleSource.
Proof. unfold InMemoryReader.within, sampleSource. cbn. lia. Qed.

Lemma in_memory_read_is_bounded_witness :
  InMemoryReader.readData 7 sampleSource
  = ([30; 40; 50], 3, InMemoryReader.mkInMemoryReader 5 5 [10; 20; 30; 40; 50])
  /\ 3 = Z.min 7 (InMemoryReader.totalLength sampleSource)
  /\ Z.of_nat (length [30; 40; 50]) = 3
  /\ InMemoryReader.pending sampleSource
     = [30; 40; 50]
       ++ InMemoryReader.pending
            (InMemoryReader.mkInMemoryReader 5 5 [10; 20; 30; 40; 50])
  /\ InMemoryReader.SourcePos
       (InMemoryReader.mkInMemoryReader 5 5 [10; 20; 30; 40; 50])
     = InMemoryReader.SourcePos sampleSource + 3
  /\ InMemoryReader.totalLength
       (InMemoryReader.mkInMemoryReader 5 5 [10; 20; 30; 40; 50])
     = InMemoryReader.totalLength sampleSource - 3
  /\ InMemoryReader.within
       (InMemoryReader.mkInMemoryReader 5 5 [10; 20; 30; 40; 50])
  /\ (3 < 7 <-> InMemoryReader.totalLength sampleSource < 7).
Proof.
  assert (E : InMemoryReader.readData 7 sampleSource
              = ([30; 40; 50], 3,
                 InMemoryReader.mkInMemoryReader 5 5 [10; 20; 30; 40; 50]))
    by reflexivity.
  assert (H7 : 0 <= 7) by lia.
  exact (conj E (in_memory_read_is_bounded 7 sampleSource _ _ _
                   sampleSource_within H7 E)).
Defined.

Lemma in_memory_reads_compose_witness :
  InMemoryReader.readData (2 + 4) sampleSource
  = (fst (fst (InMemoryReader.readData 2 sampleSource))
     ++ fst (fst (InMemoryReader.readData 4
                    (snd (InMemoryReader.readData 2 sampleSource)))),
     snd (fst (InMemoryReader.readData 2 sampleSource))
     + snd (fst (InMemoryReader.readData 4
                   (snd (InMemoryReader.readData 2 sampleSource)))),
     snd (InMemoryReader.readData 4
            (snd (InMemoryReader.readData 2 sampleSource)))).
Proof.
  assert (H2 : 0 <= 2) by lia.
  assert (H4 : 0 <= 4) by lia.
  exact (in_memory_reads_compose 2 4 sampleSource sampleSource_within H2 H4).
Defined.

Lemma in_memory_blocks_are_the_source_witness :
  concat (fst (InMemoryReader.readBlocks [1; 0; 5] sampleSource))
  = firstn (Z.to_nat (fold_right Z.add 0 [1; 0; 5]))
      (InMemoryReader.pending sampleSource)
  /\ (InMemoryReader.totalLength sampleSource <= fold_right Z.add 0 [1; 0; 5] ->
      concat (fst (InMemoryReader.readBlocks [1; 0; 5] sampleSource))
      = InMemoryReader.pending sampleSource
      /\ forall Sz, 0 <= Sz ->
           InMemoryReader.readData Sz
             (snd (InMemoryReader.readBlocks [1; 0; 5] sampleSource))
           = ([], 0, snd (InMemoryReader.readBlocks [1; 0; 5] sampleSource))).
Proof.
  assert (Hs : Forall (fun Sz => 0 <= Sz) [1; 0; 5])
    by (repeat constructor; lia).
  exact (in_memory_blocks_are_the_source [1; 0; 5] sampleSource
           sampleSource_within Hs).
Defined.

Lemma string_writer_to_memory_reader_witness :
  fst (InMemoryReader.readBlocks [2; 0; 1] sampleSource) = [[30; 40]; []; [50]]
  /\ InMemoryReader.pending
       (snd (InMemoryReader.readBlocks [2; 0; 1] sampleSource)) = []
  /\ InMemoryReader.readData 1
       (snd (InMemoryReader.readBlocks [2; 0; 1] sampleSource))
     = ([], 0, snd (InMemoryReader.readBlocks [2; 0; 1] sampleSource)).
Proof.
  exact (proj2 (string_writer_to_memory_reader [[30; 40]; []; [50]] sampleSource
                  sampleSource_within eq_refl)).
Defined.

(** * The reader's stack *)

Section ReaderStack.
Context {R : Type}.

Lemma Stack_push (E : SExpr) (st : BytecodeReader R) :
  Stack (push E st) = Stack st ++ [E].
Proof. reflexivity. Qed.

Lemma arg_nth_error (i : nat) (st : BytecodeReader R) :
  (i < length (Stack st))%nat ->
  arg i st = nth_error (Stack st) (length (Stack st) - 1 - i).
Proof.
  intros Hi. unfold arg. apply Nat.ltb_lt in Hi. now rewrite Hi.
Qed.

(** X5.  The stack of the reader is last in, first out: [arg(0)] is the
    expression pushed last, [arg(i+1)] after a push is [arg(i)] before
    it, and [arg(i)] passes its assertion exactly when [i] is below the
    size of the stack. *)
Theorem stack_is_last_in_first_out (E : SExpr) (st : BytecodeReader R) (i : nat) :
  arg 0 (push E st) = Some E
  /\ arg (S i) (push E st) = arg i st
  /\ (arg i st = None <-> (length (Stack st) <= i)%nat).
Proof.
  split; [|split].
  - unfold arg. rewrite Stack_push, length_app. cbn [length].
    replace (0 <? length (Stack st) + 1)%nat with true
      by (symmetry; apply Nat.ltb_lt; lia).
    replace (length (Stack st) + 1 - 1 - 0)%nat with (length (Stack st)) by lia.
    rewrite nth_error_app2 by lia. now rewrite Nat.sub_diag.
  - unfold arg. rewrite Stack_push, length_app. cbn [length].
    destruct (Nat.ltb_spec i (length (Stack st))) as [Hi|Hi].
    + replace (S i <? length (Stack st) + 1)%nat with true
        by (symmetry; apply Nat.ltb_lt; lia).
      rewrite nth_error_app1 by lia. f_equal. lia.
    + replace (S i <? length (Stack st) + 1)%nat with false
        by (symmetry; apply Nat.ltb_ge; lia).
      reflexivity.
  - unfold arg. destruct (Nat.ltb_spec i (length (Stack st))) as [Hi|Hi].
    + split; [|lia]. intros HN. apply nth_error_None in HN. lia.
    + split; [intros _; exact Hi | reflexivity].
Qed.

(** X6.  [lastArgs(n)] is the [n] topmost entries in the order they were
    pushed: entry [i] of it is [arg(n-1-i)], and it is exactly what
    [drop(n)] takes off the stack. *)
Theorem lastArgs_in_push_order (n : nat) (st : BytecodeReader R) :
  (n <= length (Stack st))%nat ->
  length (lastArgs n st) = n
  /\ (forall i, (i < n)%nat -> nth_error (lastArgs n st) i = arg (n - 1 - i) st)
  /\ Stack st = Stack (drop n st) ++ lastArgs n st
  /\ length (Stack (drop n st)) = (length (Stack st) - n)%nat.
Proof.
  intros Hn. unfold lastArgs, drop. cbn [setStack Stack].
  split; [|split; [|split]].
  - rewrite length_skipn. lia.
  - intros i Hi. rewrite arg_nth_error by lia.
    rewrite nth_error_skipn. f_equal. lia.
  - now rewrite firstn_skipn.
  - rewrite length_firstn. lia.
Qed.

(** X7.  Pushing a list of expressions and then taking [lastArgs] of as
    many gives the list back in order, and dropping as many leaves the
    reader as it was before the pushes. *)
Theorem pushes_then_lastArgs_and_drop (Es : list SExpr) (st : BytecodeReader R) :
  let st' := fold_left (fun s E => push E s) Es st in
  Stack st' = Stack st ++ Es
  /\ lastArgs (length Es) st' = Es
  /\ drop (length Es) st' = st.
Proof.
  intros st'.
  assert (HS : Stack st' = Stack st ++ Es).
  { subst st'. revert st. induction Es as [|E Es IH]; intros st; cbn [fold_left].
    - now rewrite app_nil_r.
    - rewrite IH, Stack_push, <- app_assoc. reflexivity. }
  assert (HO : forall (l : list SExpr) (s : BytecodeReader R),
             fold_left (fun s0 E => push E s0) l s
             = setStack (Stack s ++ l) s).
  { induction l as [|E l IH]; intros s; cbn [fold_left].
    - rewrite app_nil_r. now destruct s.
    - rewrite IH, Stack_push, <- app_assoc. now destruct s. }
  split; [exact HS|]. split.
  - unfold lastArgs. rewrite HS. apply skipn_app_exact.
  - unfold drop. rewrite HS, firstn_app_exact. subst st'. rewrite HO.
    now destruct st.
Qed.

End ReaderStack.

Lemma lastArgs_in_push_order_witness :
  (2 <= length (Stack (push (Node 3 [] [] [])
                         (push (Node 2 [] [] [])
                            (push (Node 1 [] [] [])
                               (newBytecodeReader ([] : list Item)))))))%nat
  /\ lastArgs 2 (push (Node 3 [] [] [])
                   (push (Node 2 [] [] [])
                      (push (Node 1 [] [] [])
                         (newBytecodeReader ([] : list Item)))))
     = [Node 2 [] [] []; Node 3 [] [] []]
  /\ Stack (drop 2 (push (Node 3 [] [] [])
                      (push (Node 2 [] [] [])
                         (push (Node 1 [] [] [])
                            (newBytecodeReader ([] : list Item))))))
     = [Node 1 [] [] []]
  /\ length (lastArgs 2 (push (Node 3 [] [] [])
                           (push (Node 2 [] [] [])
                              (push (Node 1 [] [] [])
                                 (newBytecodeReader ([] : list Item)))))) = 2%nat.
Proof.
  pose proof (lastArgs_in_push_order 2
                (push (Node 3 [] [] [])
                   (push (Node 2 [] [] [])
                      (push (Node 1 [] [] [])
                         (newBytecodeReader ([] : list Item)))))) as H.
  assert (H2 : (2 <= length (Stack (push (Node 3 [] [] [])
                         (push (Node 2 [] [] [])
                            (push (Node 1 [] [] [])
                               (newBytecodeReader ([] : list Item)))))))%nat)
    by (cbn; lia).
  exact (conj H2 (conj eq_refl (conj eq_refl (proj1 (H H2))))).
Defined.

(** * The annotation classes of [AnnotationImpl.h] *)

Module AnnotationImpl.

(** The four classes with their members: [InstrNameAnnot::Name],
    [SourceLocAnnot::Position], [PreconditionAnnot::Condition] and
    [TestTripletAnnot::ExpA], [ExpB], [ExpC]. *)
Inductive AnnotationClass : Type :=
  | InstrNameAnnot (Name : string)
  | SourceLocAnnot (Position : Z)
  | PreconditionAnnot (Condition : SExpr)
  | TestTripletAnnot (ExpA ExpB ExpC : SExpr).

(** How a call ends: it returns, or [std::vector::at] throws
    [std::out_of_range]; either way the object is as the call left it. *)
Inductive Ending : Type :=
  | Returned (A : AnnotationClass)
  | OutOfRange (A : AnnotationClass).

Section Kinds.
(** The enumerators of [TIL_AnnKind], declared in [Annotation.h]. *)
Variables ANNKIND_InstrNameAnnot ANNKIND_SourceLocAnnot
          ANNKIND_PreconditionAnnot ANNKIND_TestTripletAnnot : Z.

(** [kind()], as the constructors set it:
    [Annotation(ANNKIND_InstrNameAnnot)] and so on. *)
Definition kind (A : AnnotationClass) : Z :=
  match A with
  | InstrNameAnnot _ => ANNKIND_InstrNameAnnot
  | SourceLocAnnot _ => ANNKIND_SourceLocAnnot
  | PreconditionAnnot _ => ANNKIND_PreconditionAnnot
  | TestTripletAnnot _ _ _ => ANNKIND_TestTripletAnnot
  end.

(** [static bool classof(const Annotation *A)
      { return A->kind() == ANNKIND_...; }] of the four classes. *)
Definition classof_InstrNameAnnot (A : AnnotationClass) : bool :=
  kind A =? ANNKIND_InstrNameAnnot.
Definition classof_SourceLocAnnot (A : AnnotationClass) : bool :=
  kind A =? ANNKIND_SourceLocAnnot.
Definition classof_PreconditionAnnot (A : AnnotationClass) : bool :=
  kind A =? ANNKIND_PreconditionAnnot.
Definition classof_TestTripletAnnot (A : AnnotationClass) : bool :=
  kind A =? ANNKIND_TestTripletAnnot.

End Kinds.

Section Traverse.
(** The traversal [Trav]: its state, [traverseArg] and
    [reduceAnnotationT]. *)
Context {Trav : Type}.
Variable traverseArg : SExpr -> Trav -> Trav.
Variable reduceAnnotationT : AnnotationClass -> Trav -> Trav.

(** [template <class Trav> void traverse(Trav *T)] of the four classes:
    [InstrNameAnnot] and [SourceLocAnnot]
      [{ T->self()->template reduceAnnotationT<...>(this); }],
    [PreconditionAnnot]
      [{ T->self()->traverseArg(Condition.get());
         T->self()->template reduceAnnotationT<PreconditionAnnot>(this); }],
    [TestTripletAnnot]
      [{ T->self()->traverseArg(ExpA.get());
         T->self()->traverseArg(ExpB.get());
         T->self()->traverseArg(ExpC.get());
         T->self()->template reduceAnnotationT<TestTripletAnnot>(this); }]. *)
Definition traverse (A : AnnotationClass) (T : Trav) : Trav :=
  match A with
  | InstrNameAnnot _ => reduceAnnotationT A T
  | SourceLocAnnot _ => reduceAnnotationT A T
  | PreconditionAnnot Condition =>
      let T1 := traverseArg Condition T in
      reduceAnnotationT A T1
  | TestTripletAnnot ExpA ExpB ExpC =>
      let T1 := traverseArg ExpA T in
      let T2 := traverseArg ExpB T1 in
      let T3 := traverseArg ExpC T2 in
      reduceAnnotationT A T3
  end.

End Traverse.

(** [void rewrite(const std::vector<SExpr*> &SubExprs)] of the four
    classes: [{ }] for [InstrNameAnnot] and [SourceLocAnnot],
    [{ Condition.reset(SubExprs.at(0)); }] for [PreconditionAnnot], and
    [{ ExpA.reset(SubExprs.at(0));
       ExpB.reset(SubExprs.at(1));
       ExpC.reset(SubExprs.at(2)); }] for [TestTripletAnnot]. *)
Definition rewrite (A : AnnotationClass) (SubExprs : list SExpr) : Ending :=
  match A with
  | InstrNameAnnot _ => Returned A
  | SourceLocAnnot _ => Returned A
  | PreconditionAnnot Condition =>
      match nth_error SubExprs 0 with
      | Some E0 => Returned (PreconditionAnnot E0)
      | None => OutOfRange A
      end
  | TestTripletAnnot ExpA ExpB ExpC =>
      match nth_error SubExprs 0 with
      | None => OutOfRange A
      | Some E0 =>
          match nth_error SubExprs 1 with
          | None => OutOfRange (TestTripletAnnot E0 ExpB ExpC)
          | Some E1 =>
              match nth_error SubExprs 2 with
              | None => OutOfRange (TestTripletAnnot E0 E1 ExpC)
              | Some E2 => Returned (TestTripletAnnot E0 E1 E2)
              end
          end
      end
  end.

(** [StringRef name() const { return Name; }] and
    [void setName(StringRef N) { Name = N; }] of [InstrNameAnnot],
    [SourcePosition position() const { return Position; }] of
    [SourceLocAnnot], [SExpr *condition() { return Condition.get(); }]
    of [PreconditionAnnot]; [None] where the class has no such member. *)
Definition name (A : AnnotationClass) : option string :=
  match A with InstrNameAnnot N => Some N | _ => None end.
Definition setName (N : string) (A : AnnotationClass) : AnnotationClass :=
  match A with InstrNameAnnot _ => InstrNameAnnot N | _ => A end.
Definition position (A : AnnotationClass) : option Z :=
  match A with SourceLocAnnot P => Some P | _ => None end.
Definition condition (A : AnnotationClass) : option SExpr :=
  match A with PreconditionAnnot C => Some C | _ => None end.

(** The sub-expressions in the order [traverse] hands them to
    [traverseArg]: the traversal that only keeps them. *)
Definition visited (A : AnnotationClass) : list SExpr :=
  traverse (fun E l => l ++ [E]) (fun _ l => l) A [].

(** The object a call ended with. *)
Definition object (e : Ending) : AnnotationClass :=
  match e with Returned A => A | OutOfRange A => A end.

End AnnotationImpl.

Section AnnotationClasses.
Import AnnotationImpl.

(** X8.  Each annotation class hands its sub-expressions to
    [traverseArg] in the order of its members and calls
    [reduceAnnotationT] once, afterwards; that order is the order in
    which [rewrite] takes them from [SubExprs]: rewriting an annotation
    with the sub-expressions its traversal visited leaves it as it is. *)
Theorem annotation_traverse_matches_rewrite
    {Trav : Type} (traverseArg : SExpr -> Trav -> Trav)
    (reduceAnnotationT : AnnotationClass -> Trav -> Trav)
    (A : AnnotationClass) (T : Trav) :
  traverse traverseArg reduceAnnotationT A T
  = reduceAnnotationT A (fold_left (fun t E => traverseArg E t) (visited A) T)
  /\ rewrite A (visited A) = Returned A
  /\ (forall B, length (visited B) = length (visited A) ->
        visited (object (rewrite B (visited A))) = visited A).
Proof.
  split; [|split].
  - destruct A; reflexivity.
  - destruct A; reflexivity.
  - intros B HB. destruct A, B; try discriminate HB; reflexivity.
Qed.

(** X9.  [rewrite] with at least as many sub-expressions as the class
    holds returns; the annotation then holds the first of them, in
    order, the ones beyond are ignored, and the name or the position is
    the one it had. *)
Theorem rewrite_takes_the_first (A : AnnotationClass) (SubExprs : list SExpr) :
  (length (visited A) <= length SubExprs)%nat ->
  exists A',
    rewrite A SubExprs = Returned A'
    /\ visited A' = firstn (length (visited A)) SubExprs
    /\ name A' = name A /\ position A' = position A.
Proof.
  intros H. destruct A as [N|P|C|Ea Eb Ec]; cbn in H.
  - exists (InstrNameAnnot N). repeat split.
  - exists (SourceLocAnnot P). repeat split.
  - destruct SubExprs as [|E0 Ss]; [cbn in H; lia|].
    exists (PreconditionAnnot E0). repeat split.
  - destruct SubExprs as [|E0 [|E1 [|E2 Ss]]]; try (cbn in H; lia).
    exists (TestTripletAnnot E0 E1 E2). repeat split.
Qed.

(** X10.  [rewrite] with fewer sub-expressions than the class holds ends
    in [std::out_of_range]; by then the members before the missing one
    have been replaced and the others are the old ones. *)
Theorem rewrite_throws_when_short (A : AnnotationClass) (SubExprs : list SExpr) :
  (length SubExprs < length (visited A))%nat ->
  exists A',
    rewrite A SubExprs = OutOfRange A'
    /\ visited A' = SubExprs ++ skipn (length SubExprs) (visited A)
    /\ name A' = name A /\ position A' = position A.
Proof.
  intros H. destruct A as [N|P|C|Ea Eb Ec]; cbn in H; try lia.
  - destruct SubExprs as [|E0 Ss]; [|cbn in H; lia].
    exists (PreconditionAnnot C). repeat split.
  - destruct SubExprs as [|E0 [|E1 [|E2 Ss]]]; try (cbn in H; lia).
    + exists (TestTripletAnnot Ea Eb Ec). repeat split.
    + exists (TestTripletAnnot E0 Eb Ec). repeat split.
    + exists (TestTripletAnnot E0 E1 Ec). repeat split.
Qed.

End AnnotationClasses.

Section AnnotationClassesWritten.

(** The enumerators of [TIL_AnnKind] and the methods [serialize] of the
    four classes, which the header declares and does not define;
    [serialized] is what a [serialize] writes. *)
Variables ANNKIND_InstrNameAnnot ANNKIND_SourceLocAnnot
          ANNKIND_PreconditionAnnot ANNKIND_TestTripletAnnot : Z.
Variable serialize : AnnotationImpl.AnnotationClass -> list Item -> list Item.
Variable serialized : AnnotationImpl.AnnotationClass -> list Field.
Hypothesis serialize_writes_fields :
  forall A log, serialize A log = log ++ map IField (serialized A).

Let kindOf : AnnotationImpl.AnnotationClass -> Z :=
  AnnotationImpl.kind ANNKIND_InstrNameAnnot ANNKIND_SourceLocAnnot
                      ANNKIND_PreconditionAnnot ANNKIND_TestTripletAnnot.

(** [BytecodeWriter::reduceAnnotationT] on an annotation of one of the
    four classes, recorded:
    [writePseudoOpcode(PSOP_Annotation); writeFlag(A->kind());
     A->serialize(this);] *)
Definition reduceAnnotationClass
    (A : AnnotationImpl.AnnotationClass) (w : list Item) : list Item :=
  let w1 := writePseudoOpcode PSOP_Annotation w in
  let w2 := writeFlag F_TIL_AnnKind (kindOf A) w1 in
  serialize A w2.

Lemma reduceAnnotationClass_record (A : AnnotationImpl.AnnotationClass) (log : list Item) :
  reduceAnnotationClass A log
  = log ++ IField (FBits32 PSOP_Annotation 6) :: IField (FBits32 (kindOf A) 8)
           :: map IField (serialized A).
Proof.
  unfold reduceAnnotationClass. cbv zeta. rewrite serialize_writes_fields.
  unfold writePseudoOpcode, writeFlag.
  change (getBitSize F_PseudoOpcode) with 6.
  change (getBitSize F_TIL_AnnKind) with 8.
  cbn [writeBits32 Recorder]. rewrite <- !app_assoc. reflexivity.
Qed.

(** X11.  Written by [BytecodeWriter], an annotation of any of the four
    classes is the records of its sub-expressions, in the order of its
    members, and only then its own header, the [PSOP_Annotation] marker
    in 6 bits and its kind in 8 bits, followed by what [serialize]
    writes: the record of the annotation of that kind holding these
    sub-expressions. *)
Theorem annotation_classes_write_subexprs_first
    (A : AnnotationImpl.AnnotationClass) (log : list Item) :
  AnnotationImpl.traverse (fun E w => traverse E w) reduceAnnotationClass A log
  = log ++ flat_map emit (AnnotationImpl.visited A)
    ++ IField (FBits32 PSOP_Annotation 6) :: IField (FBits32 (kindOf A) 8)
       :: map IField (serialized A)
  /\ AnnotationImpl.traverse (fun E w => traverse E w) reduceAnnotationClass A log
     = traverseAnnotation
         (Annot (kindOf A) (serialized A) (AnnotationImpl.visited A)) log.
Proof.
  assert (H : AnnotationImpl.traverse (fun E w => traverse E w)
                reduceAnnotationClass A log
              = log ++ flat_map emit (AnnotationImpl.visited A)
                ++ IField (FBits32 PSOP_Annotation 6)
                   :: IField (FBits32 (kindOf A) 8) :: map IField (serialized A)).
  { destruct A as [N|P|C|Ea Eb Ec];
      cbn [AnnotationImpl.traverse AnnotationImpl.visited app];
      rewrite reduceAnnotationClass_record, ?traverse_record;
      cbn [flat_map app]; rewrite <- ?app_assoc, ?app_nil_r; reflexivity. }
  split; [exact H|].
  rewrite H, traverseAnnotation_unfold. unfold Annotation_traverse.
  cbn [subExprs].
  rewrite (fold_traverse_record _ (proj2 (Forall_forall _ _)
                                     (fun E _ => traverse_record E))).
  rewrite reduceAnnotationT_record. cbn [kind payload].
  rewrite <- !app_assoc. reflexivity.
Qed.

End AnnotationClassesWritten.

(** * Base types and literal values *)

Section ReadBaseType.
Context {R : Type} {RB : ByteStreamReaderBase R}.

(** [BaseType::fromUInt8] ([TIL.h]): the base type it leaves in a
    default-constructed object, and its result. *)
Variable fromUInt8 : Z -> BaseType * bool.

(** [BaseType readBaseType() {
       BaseType Bt;
       if (Bt.fromUInt8(Reader->readUInt8()))
         Bt.VectSize = Reader->readUInt8();
       return Bt;
     }] *)
Definition readBaseType (r : R) : BaseType * R :=
  let '(V, r1) := readUInt8 r in
  let '(Bt, HasVectSize) := fromUInt8 V in
  if HasVectSize
  then let '(Vs, r2) := readUInt8 r1 in
       ({| asUInt8 := asUInt8 Bt; VectSize := Vs |}, r2)
  else (Bt, r1).

End ReadBaseType.

(** The overloads of [writeLitVal] and [readLitVal] on [bool], the
    integer types and pointers, by the type of the literal; the overloads
    on [float], [double] and [StringRef] go to stream methods the header
    only declares. *)
Inductive LitType : Type :=
  | T_bool | T_uint8 | T_uint16 | T_uint32 | T_uint64
  | T_int8 | T_int16 | T_int32 | T_int64 | T_ptr.

Inductive LitVal : Type :=
  | V_bool (V : bool)
  | V_uint8 (V : Z)
  | V_uint16 (V : Z)
  | V_uint32 (V : Z)
  | V_uint64 (V : Z)
  | V_int8 (V : Z)
  | V_int16 (V : Z)
  | V_int32 (V : Z)
  | V_int64 (V : Z)
  | V_ptr (P : Z).

Definition litType (v : LitVal) : LitType :=
  match v with
  | V_bool _ => T_bool
  | V_uint8 _ => T_uint8
  | V_uint16 _ => T_uint16
  | V_uint32 _ => T_uint32
  | V_uint64 _ => T_uint64
  | V_int8 _ => T_int8
  | V_int16 _ => T_int16
  | V_int32 _ => T_int32
  | V_int64 _ => T_int64
  | V_ptr _ => T_ptr
  end.

Section LiteralValues.
Context {W R : Type} {WB : ByteStreamWriterBase W} {RB : ByteStreamReaderBase R}.

Definition writeLitVal (v : LitVal) (w : W) : Outcome W :=
  match v with
  | V_bool V => writeLitVal_bool V w
  | V_uint8 V => writeLitVal_uint8 V w
  | V_uint16 V => writeLitVal_uint16 V w
  | V_uint32 V => writeLitVal_uint32 V w
  | V_uint64 V => writeLitVal_uint64 V w
  | V_int8 V => writeLitVal_int8 V w
  | V_int16 V => writeLitVal_int16 V w
  | V_int32 V => writeLitVal_int32 V w
  | V_int64 V => writeLitVal_int64 V w
  | V_ptr P => writeLitVal_ptr P w
  end.

Definition readLitVal (Ty : LitType) (r : R) : LitVal * R :=
  match Ty with
  | T_bool => let '(V, r') := readLitVal_bool r in (V_bool V, r')
  | T_uint8 => let '(V, r') := readLitVal_uint8 r in (V_uint8 V, r')
  | T_uint16 => let '(V, r') := readLitVal_uint16 r in (V_uint16 V, r')
  | T_uint32 => let '(V, r') := readLitVal_uint32 r in (V_uint32 V, r')
  | T_uint64 => let '(V, r') := readLitVal_uint64 r in (V_uint64 V, r')
  | T_int8 => let '(V, r') := readLitVal_int8 r in (V_int8 V, r')
  | T_int16 => let '(V, r') := readLitVal_int16 r in (V_int16 V, r')
  | T_int32 => let '(V, r') := readLitVal_int32 r in (V_int32 V, r')
  | T_int64 => let '(V, r') := readLitVal_int64 r in (V_int64 V, r')
  | T_ptr => let '(P, r') := readLitVal_ptr r in (V_ptr P, r')
  end.

End LiteralValues.

(** A value of its type: within the range of the integer type; the null
    pointer. *)
Definition inType (v : LitVal) : Prop :=
  match v with
  | V_bool _ => True
  | V_uint8 V => 0 <= V < 2 ^ 8
  | V_uint16 V => 0 <= V < 2 ^ 16
  | V_uint32 V => 0 <= V < 2 ^ 32
  | V_uint64 V => 0 <= V < 2 ^ 64
  | V_int8 V => - 2 ^ 7 <= V < 2 ^ 7
  | V_int16 V => - 2 ^ 15 <= V < 2 ^ 15
  | V_int32 V => - 2 ^ 31 <= V < 2 ^ 31
  | V_int64 V => - 2 ^ 63 <= V < 2 ^ 63
  | V_ptr P => P = 0
  end.

(** ** Literals written and read back *)

Lemma to_unsigned_narrow (N M V : Z) :
  0 <= N <= M -> to_unsigned N (to_unsigned M (to_unsigned N V)) = to_unsigned N V.
Proof.
  intros H. pose proof (to_unsigned_range N V (proj1 H)) as HN.
  assert (HM : 2 ^ N <= 2 ^ M) by (apply Z.pow_le_mono_r; lia).
  rewrite (to_unsigned_id M) by lia. apply to_unsigned_id. exact HN.
Qed.

Lemma play_bits32 (V N : Z) (l : list Item) :
  readBits32 N (IField (FBits32 V N) :: l) = (to_unsigned N (to_unsigned 32 V), l).
Proof. cbn [readBits32 Playback playBits32]. now rewrite Z.eqb_refl. Qed.

Lemma play_bits64 (V N : Z) (l : list Item) :
  readBits64 N (IField (FBits64 V N) :: l) = (to_unsigned N (to_unsigned 64 V), l).
Proof. cbn [readBits64 Playback playBits64]. now rewrite Z.eqb_refl. Qed.

Lemma play_vbr32 (V : Z) (l : list Item) :
  readUInt32_Vbr (IField (FVbr32 V) :: l) = (to_unsigned 32 V, l).
Proof. reflexivity. Qed.

Lemma play_vbr64 (V : Z) (l : list Item) :
  readUInt64_Vbr (IField (FVbr64 V) :: l) = (to_unsigned 64 V, l).
Proof. reflexivity. Qed.

Lemma play_writeUInt8 (V : Z) (log rest : list Item) :
  0 <= V < 2 ^ 8 ->
  writeUInt8 V log = log ++ [IField (FBits32 V 8)]
  /\ readUInt8 (IField (FBits32 V 8) :: rest) = (V, rest).
Proof.
  intros HV. split.
  - unfold writeUInt8. rewrite (to_unsigned_id 8) by exact HV. reflexivity.
  - unfold readUInt8. rewrite play_bits32.
    assert (H32 : 0 <= V < 2 ^ 32)
      by (change (2 ^ 8) with 256 in HV; change (2 ^ 32) with 4294967296; lia).
    rewrite (to_unsigned_id 32 V H32), !(to_unsigned_id 8 V HV). reflexivity.
Qed.

Section BaseTypesRecorded.
Variable fromUInt8 : Z -> BaseType * bool.

(** The fields of a base type in the record. *)
Definition baseTypeFields (Bt : BaseType) : list Item :=
  IField (FBits32 (asUInt8 Bt) 8)
  :: (if 1 <=? VectSize Bt then [IField (FBits32 (VectSize Bt) 8)] else []).

Lemma writeBaseType_record (Bt : BaseType) (log : list Item) :
  0 <= asUInt8 Bt < 2 ^ 8 -> 0 <= VectSize Bt < 2 ^ 8 ->
  writeBaseType Bt log = log ++ baseTypeFields Bt.
Proof.
  intros Hc Hv. unfold writeBaseType, baseTypeFields. cbv zeta.
  rewrite (proj1 (play_writeUInt8 _ log [] Hc)).
  destruct (1 <=? VectSize Bt).
  - rewrite (proj1 (play_writeUInt8 _ _ [] Hv)), <- app_assoc. reflexivity.
  - reflexivity.
Qed.

Lemma readBaseType_record (Bt : BaseType) (rest : list Item) :
  0 <= asUInt8 Bt < 2 ^ 8 -> 0 <= VectSize Bt < 2 ^ 8 ->
  fromUInt8 (asUInt8 Bt)
  = ({| asUInt8 := asUInt8 Bt; VectSize := 0 |}, 1 <=? VectSize Bt) ->
  readBaseType fromUInt8 (baseTypeFields Bt ++ rest) = (Bt, rest).
Proof.
  intros Hc Hv Hf. unfold baseTypeFields. cbn [app]. unfold readBaseType.
  rewrite (proj2 (play_writeUInt8 _ [] _ Hc)), Hf.
  destruct (1 <=? VectSize Bt) eqn:E; cbn [app].
  - rewrite (proj2 (play_writeUInt8 _ [] _ Hv)). now destruct Bt.
  - apply Z.leb_gt in E. destruct Bt as [c vs]. cbn [asUInt8 VectSize] in *.
    f_equal. f_equal. lia.
Qed.

(** X12.  A base type written by [writeBaseType] is read back by
    [readBaseType], which stops where the writer stopped: one 8-bit
    field for a scalar type, a second one with the vector size for a
    vector type, provided [fromUInt8] restores the type from its code
    and answers whether a vector size follows as the writer decides it
    ([VectSize >= 1]). *)
Theorem base_type_round_trip (Bt : BaseType) (log rest : list Item) :
  0 <= asUInt8 Bt < 2 ^ 8 -> 0 <= VectSize Bt < 2 ^ 8 ->
  fromUInt8 (asUInt8 Bt)
  = ({| asUInt8 := asUInt8 Bt; VectSize := 0 |}, 1 <=? VectSize Bt) ->
  writeBaseType Bt log
  = log ++ IField (FBits32 (asUInt8 Bt) 8)
       :: (if 1 <=? VectSize Bt then [IField (FBits32 (VectSize Bt) 8)] else [])
  /\ readBaseType fromUInt8 (writeBaseType Bt [] ++ rest) = (Bt, rest).
Proof.
  intros Hc Hv Hf. split.
  - now apply writeBaseType_record.
  - rewrite writeBaseType_record by assumption. cbn [app].
    now apply readBaseType_record.
Qed.

Lemma writeLitVal_readLitVal (v : LitVal) (log rest : list Item) :
  inType v ->
  exists fs,
    writeLitVal v log = Done (log ++ map IField fs)
    /\ readLitVal (litType v) (map IField fs ++ rest) = (v, rest)
    /\ (length fs <= 1)%nat.
Proof.
  intros Hv. destruct v as [V|V|V|V|V|V|V|V|V|P]; cbn [inType] in Hv;
    cbn [writeLitVal readLitVal litType].
  - exists [FBits32 (Z.b2z V) 1]. split; [reflexivity|]. split; [|cbn; lia].
    cbn [map app]. unfold readLitVal_bool, readBool. rewrite play_bits32.
    now destruct V.
  - exists [FBits32 V 8]. split; [|split; [|cbn; lia]].
    + unfold writeLitVal_uint8. now rewrite (proj1 (play_writeUInt8 V log [] Hv)).
    + cbn [map app]. unfold readLitVal_uint8.
      now rewrite (proj2 (play_writeUInt8 V [] rest Hv)).
  - exists [FVbr32 V]. split; [|split; [|cbn; lia]].
    + unfold writeLitVal_uint16, writeUInt16. now rewrite (to_unsigned_id 16) by exact Hv.
    + cbn [map app]. unfold readLitVal_uint16, readUInt16. rewrite play_vbr32.
      rewrite <- (to_unsigned_id 16 V Hv) at 1.
      rewrite to_unsigned_narrow by lia. now rewrite (to_unsigned_id 16) by exact Hv.
  - exists [FVbr32 V]. split; [|split; [|cbn; lia]].
    + unfold writeLitVal_uint32, writeUInt32. now rewrite (to_unsigned_id 32) by exact Hv.
    + cbn [map app]. unfold readLitVal_uint32, readUInt32. rewrite play_vbr32.
      now rewrite (to_unsigned_id 32) by exact Hv.
  - exists [FVbr64 V]. split; [|split; [|cbn; lia]].
    + unfold writeLitVal_uint64, writeUInt64. now rewrite (to_unsigned_id 64) by exact Hv.
    + cbn [map app]. unfold readLitVal_uint64, readUInt64. rewrite play_vbr64.
      now rewrite (to_unsigned_id 64) by exact Hv.
  - exists [FBits32 (to_unsigned 8 V) 8]. split; [reflexivity|]. split; [|cbn; lia].
    cbn [map app]. unfold readLitVal_int8, readInt8. rewrite play_bits32.
    rewrite to_unsigned_narrow by lia.
    now rewrite to_signed_to_unsigned by (try exact Hv; lia).
  - exists [FBits32 (to_unsigned 16 V) 16]. split; [reflexivity|]. split; [|cbn; lia].
    cbn [map app]. unfold readLitVal_int16, readInt16. rewrite play_bits32.
    rewrite to_unsigned_narrow by lia.
    now rewrite to_signed_to_unsigned by (try exact Hv; lia).
  - exists [FBits32 (to_unsigned 32 V) 32]. split; [reflexivity|]. split; [|cbn; lia].
    cbn [map app]. unfold readLitVal_int32, readInt32. rewrite play_bits32.
    rewrite to_unsigned_narrow by lia.
    now rewrite to_signed_to_unsigned by (try exact Hv; lia).
  - exists [FBits64 (to_unsigned 64 V) 64]. split; [reflexivity|]. split; [|cbn; lia].
    cbn [map app]. unfold readLitVal_int64, readInt64. rewrite play_bits64.
    rewrite to_unsigned_narrow by lia.
    now rewrite to_signed_to_unsigned by (try exact Hv; lia).
  - subst P. exists []. split; [|split; [reflexivity|cbn; lia]].
    unfold writeLitVal_ptr. cbn [Z.eqb map]. now rewrite app_nil_r.
Qed.

(** X13.  A literal of [bool], of an integer type or the null pointer,
    written by [reduceLiteralT], is read back in the order it was
    written: [readPseudoOpcode] gives the code of [COP_Literal],
    [readBaseType] the base type, and the overload of [readLitVal] for
    the type the value, after which the reader is where the writer
    stopped. *)
Theorem literal_round_trip
    (COP_Literal : Z) (Bt : BaseType) (v : LitVal) (rest : list Item) :
  0 <= COP_Literal -> PSOP_Last + COP_Literal < 2 ^ 6 ->
  0 <= asUInt8 Bt < 2 ^ 8 -> 0 <= VectSize Bt < 2 ^ 8 ->
  fromUInt8 (asUInt8 Bt)
  = ({| asUInt8 := asUInt8 Bt; VectSize := 0 |}, 1 <=? VectSize Bt) ->
  inType v ->
  exists log l1 l2,
    reduceLiteralT COP_Literal writeLitVal (mkLiteralT Bt v) [] = Done log
    /\ readPseudoOpcode (log ++ rest) = (PSOP_Last + COP_Literal, l1)
    /\ getOpcode (PSOP_Last + COP_Literal) = COP_Literal
    /\ readBaseType fromUInt8 l1 = (Bt, l2)
    /\ readLitVal (litType v) l2 = (v, rest).
Proof.
  intros H0 H6 Hc Hv Hf Hin. change (2 ^ 6) with 64 in H6.
  unfold reduceLiteralT. cbv zeta. cbn [baseType value].
  rewrite writeBaseType_record by assumption.
  destruct (writeLitVal_readLitVal v
              (writeOpcode COP_Literal [] ++ baseTypeFields Bt) rest Hin)
    as (fs & Ew & Er & _).
  exists ((writeOpcode COP_Literal [] ++ baseTypeFields Bt) ++ map IField fs),
         (baseTypeFields Bt ++ map IField fs ++ rest),
         (map IField fs ++ rest).
  split; [exact Ew|]. split; [|split; [|split]].
  - unfold writeOpcode, writePseudoOpcode, writeFlag, readPseudoOpcode, readFlag.
    cbv zeta. change (getBitSize F_PseudoOpcode) with 6.
    cbn [writeBits32 Recorder app]. rewrite play_bits32. cbn [castTo].
    rewrite (sent_opcode_read COP_Literal H0 H6).
    rewrite <- !app_assoc. reflexivity.
  - unfold getOpcode. lia.
  - now apply readBaseType_record.
  - exact Er.
Qed.

End BaseTypesRecorded.

(** * Codes, atoms and failures *)

Section RealCodes.
Context {W : Type} {WB : ByteStreamWriterBase W}.

(** X14.  Every code of the 6-bit field from [PSOP_Last] on is the code
    of an opcode: [getOpcode] gives an opcode between 0 and 54, and
    [writeOpcode] of that opcode writes the code again, in 6 bits; 54 is
    the last opcode the field holds. *)
Theorem real_codes_are_opcodes (c : Z) (w : W) :
  PSOP_Last <= c < 2 ^ 6 ->
  0 <= getOpcode c <= 54
  /\ writeOpcode (getOpcode c) w = writeBits32 c 6 w
  /\ getOpcode (2 ^ 6 - 1) = 54
  /\ (forall Op, 54 < Op < 2 ^ 32 - PSOP_Last ->
        writeOpcode Op w = writeBits32 (to_unsigned 8 (PSOP_Last + Op)) 6 w
        /\ (2 ^ 6 <= PSOP_Last + Op)).
Proof.
  intros Hc. change (2 ^ 6) with 64 in *. unfold getOpcode, PSOP_Last in *.
  split; [lia|]. split; [|split; [reflexivity|]].
  - unfold writeOpcode, writePseudoOpcode, writeFlag, PSOP_Last. cbv zeta.
    change (getBitSize F_PseudoOpcode) with 6.
    replace (9 + (c - 9)) with c by lia.
    rewrite (to_unsigned_id 32) by (change (2 ^ 32) with 4294967296; lia).
    rewrite (to_unsigned_id 8) by (change (2 ^ 8) with 256; lia).
    reflexivity.
  - intros Op HOp. change (2 ^ 32) with 4294967296 in HOp. split; [|lia].
    unfold writeOpcode, writePseudoOpcode, writeFlag, PSOP_Last. cbv zeta.
    change (getBitSize F_PseudoOpcode) with 6.
    rewrite (to_unsigned_id 32) by (change (2 ^ 32) with 4294967296; lia).
    reflexivity.
Qed.

End RealCodes.

Lemma real_codes_are_opcodes_witness :
  PSOP_Last <= 63 < 2 ^ 6
  /\ 0 <= getOpcode 63 <= 54
  /\ writeOpcode (getOpcode 63) ([] : list Item) = writeBits32 63 6 [].
Proof.
  pose proof (real_codes_are_opcodes 63 ([] : list Item)) as H.
  assert (Hc : PSOP_Last <= 63 < 2 ^ 6) by (unfold PSOP_Last; lia).
  exact (conj Hc (conj (proj1 (H Hc)) (proj1 (proj2 (H Hc))))).
Defined.

(** ** The atoms of a record *)

Definition isEndAtom (i : Item) : bool :=
  match i with IEndAtom => true | IField _ => false end.

Lemma no_endAtom_in_fields (fs : list Field) :
  filter isEndAtom (map IField fs) = [].
Proof. induction fs as [|f fs IH]; [reflexivity | exact IH]. Qed.

Lemma endAtoms_flat_map {A : Type} (f : A -> list Item) (g : A -> nat) (l : list A) :
  Forall (fun x => length (filter isEndAtom (f x)) = g x) l ->
  length (filter isEndAtom (flat_map f l)) = list_sum (map g l).
Proof.
  induction 1 as [|x l Hx _ IH]; [reflexivity|].
  cbn [flat_map map]. rewrite list_sum_cons, filter_app, length_app, Hx, IH.
  reflexivity.
Qed.

Lemma endAtoms_emit (E : SExpr) :
  length (filter isEndAtom (emit E)) = atoms E.
Proof.
  apply (SExpr_nested_ind
           (fun E => length (filter isEndAtom (emit E)) = atoms E)
           (fun A => length (filter isEndAtom (emitAnnotation A))
                     = atomsAnnotation A)).
  - intros Op Sc As Ans HAs HAns. cbn [emit atoms].
    rewrite !filter_app, !length_app.
    rewrite (endAtoms_flat_map emit atoms As HAs).
    rewrite (endAtoms_flat_map emitAnnotation atomsAnnotation Ans HAns).
    unfold nodeAtom. cbn [filter isEndAtom scalars].
    rewrite filter_app, no_endAtom_in_fields. cbn [app filter isEndAtom length].
    lia.
  - intros K Pl Ss HSs. cbn [emitAnnotation atomsAnnotation].
    rewrite !filter_app, !length_app.
    rewrite (endAtoms_flat_map emit atoms Ss HSs).
    unfold annotationAtom. cbn [filter isEndAtom payload].
    rewrite filter_app, no_endAtom_in_fields. cbn [app filter isEndAtom length].
    lia.
Qed.

Lemma emitAnnotation_closed (A : Annotation) :
  exists l, emitAnnotation A = l ++ [IEndAtom].
Proof.
  destruct A as [K Pl Ss]. cbn [emitAnnotation]. unfold annotationAtom.
  exists (flat_map emit Ss
          ++ IField (FBits32 PSOP_Annotation 6)
             :: IField (FBits32 (kind (Annot K Pl Ss)) 8)
             :: map IField (payload (Annot K Pl Ss))).
  rewrite <- !app_assoc. reflexivity.
Qed.

Lemma emitAnnotations_closed (Ans : list Annotation) (l0 : list Item) :
  exists l, (l0 ++ [IEndAtom]) ++ flat_map emitAnnotation Ans = l ++ [IEndAtom].
Proof.
  revert l0. induction Ans as [|A Ans IH]; intros l0; cbn [flat_map].
  - exists l0. now rewrite app_nil_r.
  - destruct (emitAnnotation_closed A) as [la Ea]. rewrite Ea.
    destruct (IH ((l0 ++ [IEndAtom]) ++ la)) as [l El]. exists l.
    rewrite <- El, <- !app_assoc. reflexivity.
Qed.

(** X15.  What [write] puts on the stream for an expression is a whole
    number of atoms: one [endAtom] for every node and one for every
    annotation in it, the operands and the sub-expressions of
    annotations counted alike, never none, and the record ends with an
    [endAtom] (the [flush] that follows adds nothing to the record). *)
Theorem write_is_whole_atoms (E : SExpr) :
  length (filter isEndAtom (write E [])) = atoms E
  /\ (1 <= atoms E)%nat
  /\ (exists l, write E [] = l ++ [IEndAtom])
  /\ (forall log, write E log = log ++ write E []).
Proof.
  assert (Hw : forall log, write E log = log ++ emit E).
  { intros log. unfold write. cbn [flush Recorder]. apply traverse_record. }
  split; [|split; [|split]].
  - rewrite Hw. cbn [app]. apply endAtoms_emit.
  - destruct E. cbn [atoms]. lia.
  - rewrite Hw. cbn [app]. destruct E as [Op Sc As Ans]. cbn [emit].
    unfold nodeAtom. cbn [opcode scalars].
    destruct (emitAnnotations_closed Ans
                (flat_map emit As
                 ++ IField (FBits32 (to_unsigned 8 (to_unsigned 32 (PSOP_Last + Op))) 6)
                    :: map IField Sc)) as [l El].
    exists l. rewrite <- El, <- !app_assoc. cbn [app].
    rewrite <- ?app_assoc. cbn [app]. reflexivity.
  - intros log. rewrite !Hw. reflexivity.
Qed.

(** ** Failures and the checks of the stack *)

Section FailuresAndChecks.
Context {R : Type}.

(** X16.  [fail] prints every message it is given, in the order of the
    calls, and leaves [Success] false from the first call on; it reads
    nothing and leaves the stack and the tables as they are. *)
Theorem fail_keeps_all_but_the_status (Msgs : list string) (st : BytecodeReader R) :
  let st' := fold_left (fun s Msg => fail Msg s) Msgs st in
  Cerr st' = Cerr st ++ Msgs
  /\ success st' = (success st && (length Msgs =? 0)%nat)
  /\ Reader st' = Reader st
  /\ Stack st' = Stack st
  /\ Vars st' = Vars st /\ Blocks st' = Blocks st /\ Instrs st' = Instrs st.
Proof.
  revert st. induction Msgs as [|Msg Msgs IH]; intros st; cbn [fold_left].
  - cbv zeta. rewrite app_nil_r. unfold success. cbn [length Nat.eqb].
    now rewrite andb_true_r.
  - specialize (IH (fail Msg st)). cbv zeta in IH.
    destruct IH as (I1 & I2 & I3 & I4 & I5 & I6 & I7). cbv zeta.
    rewrite I1, I2, I3, I4, I5, I6, I7. unfold success, fail.
    cbn [Cerr Success Reader Stack Vars Blocks Instrs length Nat.eqb].
    rewrite <- app_assoc, andb_false_r.
    destruct Msgs; repeat split; reflexivity.
Qed.

(** The assertion of [drop],
    [assert(!Builder.currentCFG() || (Stack.size() - n >= CFGStackSize))]:
    [inCFG] tells whether [Builder.currentCFG()] is non-null; the
    subtraction and the comparison are in [size_t], of [SizeBits] bits. *)
Definition dropAssertion (SizeBits : Z) (inCFG : bool) (n : Z)
    (st : BytecodeReader R) : bool :=
  negb inCFG
  || (to_unsigned SizeBits (CFGStackSize st)
      <=? to_unsigned SizeBits (Z.of_nat (length (Stack st)) - n)).

(** X17.  Within the stack the assertion of [drop] compares what is left
    with [CFGStackSize]; beyond the stack it does not fail: the unsigned
    difference wraps around and is large, so dropping more entries than
    the stack holds passes the check. *)
Theorem drop_assertion_wraps_around
    (SizeBits : Z) (inCFG : bool) (n : Z) (st : BytecodeReader R) :
  0 < SizeBits ->
  0 <= CFGStackSize st < 2 ^ 32 ->
  Z.of_nat (length (Stack st)) < 2 ^ SizeBits ->
  0 <= n < 2 ^ 31 ->
  (n <= Z.of_nat (length (Stack st)) ->
     CFGStackSize st < 2 ^ SizeBits ->
     dropAssertion SizeBits inCFG n st
     = negb inCFG || (CFGStackSize st <=? Z.of_nat (length (Stack st)) - n))
  /\ (Z.of_nat (length (Stack st)) < n ->
      2 ^ 32 + 2 ^ 31 <= 2 ^ SizeBits ->
      dropAssertion SizeBits inCFG n st = true).
Proof.
  intros HB HC HS Hn. unfold dropAssertion. split.
  - intros Hle HCB.
    rewrite (to_unsigned_id SizeBits (CFGStackSize st)) by lia.
    rewrite (to_unsigned_id SizeBits (_ - n)) by lia. reflexivity.
  - intros Hlt Hbig.
    rewrite (to_unsigned_id SizeBits (CFGStackSize st)) by lia.
    assert (Hwrap : to_unsigned SizeBits (Z.of_nat (length (Stack st)) - n)
                    = Z.of_nat (length (Stack st)) - n + 2 ^ SizeBits).
    { unfold to_unsigned. symmetry.
      apply (Z.mod_unique_pos _ _ (-1)); lia. }
    rewrite Hwrap.
    replace (CFGStackSize st <=? Z.of_nat (length (Stack st)) - n + 2 ^ SizeBits)
      with true by (symmetry; apply Z.leb_le; lia).
    apply orb_true_r.
Qed.

End FailuresAndChecks.

(** ** The class of an annotation *)

Section ClassOf.
Variables ANNKIND_InstrNameAnnot ANNKIND_SourceLocAnnot
          ANNKIND_PreconditionAnnot ANNKIND_TestTripletAnnot : Z.

Let kindOf := AnnotationImpl.kind
  ANNKIND_InstrNameAnnot ANNKIND_SourceLocAnnot
  ANNKIND_PreconditionAnnot ANNKIND_TestTripletAnnot.

(** X18.  When the four kinds are different enumerators, [classof] of
    each class answers true for the annotations of that class and for no
    other, and [rewrite] never changes the kind, whether it returns or
    throws. *)
Theorem classof_tells_the_class (A : AnnotationImpl.AnnotationClass) :
  NoDup [ANNKIND_InstrNameAnnot; ANNKIND_SourceLocAnnot;
         ANNKIND_PreconditionAnnot; ANNKIND_TestTripletAnnot] ->
  (AnnotationImpl.classof_InstrNameAnnot
     ANNKIND_InstrNameAnnot ANNKIND_SourceLocAnnot
     ANNKIND_PreconditionAnnot ANNKIND_TestTripletAnnot A = true
   <-> exists N, A = AnnotationImpl.InstrNameAnnot N)
  /\ (AnnotationImpl.classof_SourceLocAnnot
        ANNKIND_InstrNameAnnot ANNKIND_SourceLocAnnot
        ANNKIND_PreconditionAnnot ANNKIND_TestTripletAnnot A = true
      <-> exists P, A = AnnotationImpl.SourceLocAnnot P)
  /\ (AnnotationImpl.classof_PreconditionAnnot
        ANNKIND_InstrNameAnnot ANNKIND_SourceLocAnnot
        ANNKIND_PreconditionAnnot ANNKIND_TestTripletAnnot A = true
      <-> exists C, A = AnnotationImpl.PreconditionAnnot C)
  /\ (AnnotationImpl.classof_TestTripletAnnot
        ANNKIND_InstrNameAnnot ANNKIND_SourceLocAnnot
        ANNKIND_PreconditionAnnot ANNKIND_TestTripletAnnot A = true
      <-> exists Ea Eb Ec, A = AnnotationImpl.TestTripletAnnot Ea Eb Ec)
  /\ (forall SubExprs,
        kindOf (AnnotationImpl.object (AnnotationImpl.rewrite A SubExprs))
        = kindOf A).
Proof.
  intros HD.
  assert (H12 : ANNKIND_InstrNameAnnot <> ANNKIND_SourceLocAnnot
                /\ ANNKIND_InstrNameAnnot <> ANNKIND_PreconditionAnnot
                /\ ANNKIND_InstrNameAnnot <> ANNKIND_TestTripletAnnot
                /\ ANNKIND_SourceLocAnnot <> ANNKIND_PreconditionAnnot
                /\ ANNKIND_SourceLocAnnot <> ANNKIND_TestTripletAnnot
                /\ ANNKIND_PreconditionAnnot <> ANNKIND_TestTripletAnnot).
  { inversion HD as [|? ? N1 D1]; subst. inversion D1 as [|? ? N2 D2]; subst.
    inversion D2 as [|? ? N3 D3]; subst. cbn [In] in *.
    repeat split; intros E; subst; tauto. }
  destruct H12 as (N12 & N13 & N14 & N23 & N24 & N34).
  unfold AnnotationImpl.classof_InstrNameAnnot, AnnotationImpl.classof_SourceLocAnnot,
    AnnotationImpl.classof_PreconditionAnnot, AnnotationImpl.classof_TestTripletAnnot.
  split; [|split; [|split; [|split]]].
  - destruct A; cbn [AnnotationImpl.kind]; rewrite Z.eqb_eq; split; intros H;
      first [ reflexivity | repeat eexists; reflexivity
            | decompose [ex] H; congruence ].
  - destruct A; cbn [AnnotationImpl.kind]; rewrite Z.eqb_eq; split; intros H;
      first [ reflexivity | repeat eexists; reflexivity
            | decompose [ex] H; congruence ].
  - destruct A; cbn [AnnotationImpl.kind]; rewrite Z.eqb_eq; split; intros H;
      first [ reflexivity | repeat eexists; reflexivity
            | decompose [ex] H; congruence ].
  - destruct A; cbn [AnnotationImpl.kind]; rewrite Z.eqb_eq; split; intros H;
      first [ reflexivity | repeat eexists; reflexivity
            | decompose [ex] H; congruence ].
  - intros Ss. destruct A as [N|P|C|Ea Eb Ec]; try reflexivity.
    + destruct Ss as [|E0 Ss]; reflexivity.
    + destruct Ss as [|E0 [|E1 [|E2 Ss]]]; reflexivity.
Qed.

End ClassOf.

(** * Samples *)

Definition sampleLeaf (Op : Z) : SExpr := Node Op [] [] [].

Definition sampleTriplet : AnnotationImpl.AnnotationClass :=
  AnnotationImpl.TestTripletAnnot (sampleLeaf 1) (sampleLeaf 2) (sampleLeaf 3).

(** A [fromUInt8] that takes the codes from 128 on for vector types. *)
Definition sampleFromUInt8 (c : Z) : BaseType * bool :=
  ({| asUInt8 := c; VectSize := 0 |}, 128 <=? c).

Definition sampleVector : BaseType := {| asUInt8 := 130; VectSize := 4 |}.

Lemma rewrite_takes_the_first_witness :
  exists A',
    AnnotationImpl.rewrite sampleTriplet
      [sampleLeaf 4; sampleLeaf 5; sampleLeaf 6; sampleLeaf 7] = AnnotationImpl.Returned A'
    /\ AnnotationImpl.visited A'
       = firstn (length (AnnotationImpl.visited sampleTriplet))
           [sampleLeaf 4; sampleLeaf 5; sampleLeaf 6; sampleLeaf 7]
    /\ AnnotationImpl.name A' = AnnotationImpl.name sampleTriplet
    /\ AnnotationImpl.position A' = AnnotationImpl.position sampleTriplet.
Proof.
  assert (H : (length (AnnotationImpl.visited sampleTriplet)
               <= length [sampleLeaf 4; sampleLeaf 5; sampleLeaf 6; sampleLeaf 7])%nat)
    by (cbn; lia).
  exact (rewrite_takes_the_first sampleTriplet _ H).
Defined.

Lemma rewrite_throws_when_short_witness :
  exists A',
    AnnotationImpl.rewrite sampleTriplet [sampleLeaf 4] = AnnotationImpl.OutOfRange A'
    /\ AnnotationImpl.visited A'
       = [sampleLeaf 4]
         ++ skipn (length [sampleLeaf 4]) (AnnotationImpl.visited sampleTriplet)
    /\ AnnotationImpl.name A' = AnnotationImpl.name sampleTriplet
    /\ AnnotationImpl.position A' = AnnotationImpl.position sampleTriplet.
Proof.
  assert (H : (length [sampleLeaf 4]
               < length (AnnotationImpl.visited sampleTriplet))%nat)
    by (cbn; lia).
  exact (rewrite_throws_when_short sampleTriplet _ H).
Defined.

Lemma annotation_classes_write_subexprs_first_witness :
  AnnotationImpl.traverse (fun E w => traverse E w)
    (reduceAnnotationClass 0 1 2 3 (fun _ log => log)) sampleTriplet []
  = [] ++ flat_map emit (AnnotationImpl.visited sampleTriplet)
    ++ IField (FBits32 PSOP_Annotation 6)
       :: IField (FBits32 (AnnotationImpl.kind 0 1 2 3 sampleTriplet) 8)
       :: map IField [].
Proof.
  exact (proj1 (annotation_classes_write_subexprs_first 0 1 2 3
                  (fun _ log => log) (fun _ => [])
                  (fun _ log => eq_sym (app_nil_r log))
                  sampleTriplet [])).
Defined.

Lemma base_type_round_trip_witness :
  readBaseType sampleFromUInt8
    (writeBaseType sampleVector [] ++ [IField (FVbr32 7)])
  = (sampleVector, [IField (FVbr32 7)]).
Proof.
  assert (Hc : 0 <= asUInt8 sampleVector < 2 ^ 8) by (cbn; lia).
  assert (Hv : 0 <= VectSize sampleVector < 2 ^ 8) by (cbn; lia).
  exact (proj2 (base_type_round_trip sampleFromUInt8 sampleVector []
                  [IField (FVbr32 7)] Hc Hv eq_refl)).
Defined.

Lemma literal_round_trip_witness :
  exists log l1 l2,
    reduceLiteralT 10 writeLitVal (mkLiteralT sampleVector (V_int32 (-5))) [] = Done log
    /\ readPseudoOpcode (log ++ [IEndAtom]) = (PSOP_Last + 10, l1)
    /\ getOpcode (PSOP_Last + 10) = 10
    /\ readBaseType sampleFromUInt8 l1 = (sampleVector, l2)
    /\ readLitVal (litType (V_int32 (-5))) l2 = (V_int32 (-5), [IEndAtom]).
Proof.
  assert (H0 : 0 <= 10) by lia.
  assert (H6 : PSOP_Last + 10 < 2 ^ 6) by (unfold PSOP_Last; lia).
  assert (Hc : 0 <= asUInt8 sampleVector < 2 ^ 8) by (cbn; lia).
  assert (Hv : 0 <= VectSize sampleVector < 2 ^ 8) by (cbn; lia).
  assert (Hi : inType (V_int32 (-5))) by (cbn; lia).
  exact (literal_round_trip sampleFromUInt8 10 sampleVector (V_int32 (-5))
           [IEndAtom] H0 H6 Hc Hv eq_refl Hi).
Defined.

Lemma drop_assertion_wraps_around_witness :
  dropAssertion 64 true 1 (newBytecodeReader ([] : list Item)) = true.
Proof.
  pose proof (drop_assertion_wraps_around 64 true 1
                (newBytecodeReader ([] : list Item))) as H.
  assert (HB : 0 < 64) by lia.
  assert (HC : 0 <= CFGStackSize (newBytecodeReader ([] : list Item)) < 2 ^ 32)
    by (cbn; lia).
  assert (HS : Z.of_nat (length (Stack (newBytecodeReader ([] : list Item)))) < 2 ^ 64)
    by (cbn; lia).
  assert (Hn : 0 <= 1 < 2 ^ 31) by lia.
  assert (Hlt : Z.of_nat (length (Stack (newBytecodeReader ([] : list Item)))) < 1)
    by (cbn; lia).
  assert (Hbig : 2 ^ 32 + 2 ^ 31 <= 2 ^ 64) by lia.
  exact (proj2 (H HB HC HS Hn) Hlt Hbig).
Defined.

Lemma classof_tells_the_class_witness :
  AnnotationImpl.classof_TestTripletAnnot 0 1 2 3 sampleTriplet = true
  <-> exists Ea Eb Ec, sampleTriplet = AnnotationImpl.TestTripletAnnot Ea Eb Ec.
Proof.
  assert (HD : NoDup [0; 1; 2; 3]).
  { repeat constructor; cbn [In]; intros H;
      repeat (destruct H as [H|H]; [discriminate H|]); exact H. }
  exact (proj1 (proj2 (proj2 (proj2
           (classof_tells_the_class 0 1 2 3 sampleTriplet HD))))).
Defined.
